(** * HydraAI coordinator: task ledger, token ledger and parameter blending

    A shallow embedding of [database.py] (class [HydraDatabase]), of the
    request handlers of [coordinator.py] (class [CoordinatorServer]) and of
    the two parameter accessors of [model.py] that the coordinator calls.

    - SQLite tables become record collections: [users] is keyed by its
      primary key, [tasks] and [transactions] keep insertion (rowid) order.
    - Python numbers are kept abstract behind the class [Arith]; every
      general theorem holds for any interpretation of the arithmetic that
      obeys its three laws of float32 values (IEEE arithmetic included),
      concrete runs use exact rationals.
    - Parameter values travel as JSON arrays of numbers ([nested]); the
      PyTorch calls ([torch.tensor], broadcasting arithmetic,
      [load_state_dict]) are modelled after their documented behaviour.
      What a tensor does to the numbers it is given (the integers it
      refuses, the rounding to its element type) is part of [Arith]. *)

From stdpp Require Import gmap strings list fin_maps pretty.
From Stdlib Require Import QArith.

#[local] Open Scope string_scope.
#[local] Open Scope nat_scope.

(** ** Numbers *)

Class Arith (num : Type) := {
  num_zero : num;                 (* the literal 0 *)
  num_one : num;                  (* the literal 1 / 1.0 *)
  num_half : num;                 (* the literal 0.5 *)
  num_tenth : num;                (* the literal 0.1 *)
  num_add : num → num → num;
  num_sub : num → num → num;
  num_mul : num → num → num;
  num_neg : num → num;
  num_ltb : num → num → bool;
  (* [torch.tensor] takes an array with these elements: it raises
     "Overflow" on an array of integers with one outside int64, and on an
     integer too large for a float beside floats *)
  num_fits : list num → bool;
  (* the element the tensor made of [elements] holds for one of them, as
     this program reads it back: rounded to float32 *)
  num_tensor : list num → num → num;
  (* the float32 result of tensor arithmetic, as [tolist()] returns it *)
  num_f32 : num → num;
  (* float32 values can be made a tensor again, and come back as they are *)
  num_fits_f32 : ∀ l, num_fits (num_f32 <$> l) = true;
  num_tensor_f32 : ∀ elements x, num_tensor elements (num_f32 x) = num_f32 x;
  num_f32_tensor :
    ∀ elements x, num_f32 (num_tensor elements x) = num_tensor elements x
}.

(** Exact rational arithmetic, results kept in lowest terms so that equal
    numbers are equal terms; no number is refused and none is rounded. *)
#[export] Instance Q_arith : Arith Q := {|
  num_zero := 0%Q;
  num_one := 1%Q;
  num_half := (1 # 2)%Q;
  num_tenth := (1 # 10)%Q;
  num_add := λ x y, Qred (x + y)%Q;
  num_sub := λ x y, Qred (x - y)%Q;
  num_mul := λ x y, Qred (x * y)%Q;
  num_neg := λ x, Qred (- x)%Q;
  num_ltb := λ x y, negb (Qle_bool y x);
  num_fits := λ _, true;
  num_tensor := λ _ x, x;
  num_f32 := λ x, x;
  num_fits_f32 := λ _, eq_refl;
  num_tensor_f32 := λ _ _, eq_refl;
  num_f32_tensor := λ _ _, eq_refl
|}.

(** ** Arrays of numbers as they appear in JSON and in [tolist()] *)

#[warnings="-register-all"]
Inductive nested (num : Type) : Type :=
  | Leaf (x : num)
  | Node (l : list (nested num)).
Arguments Leaf {num} x.
Arguments Node {num} l.

Section Tensors.
Context {num : Type}.

(** The shape of an array, as in [torch.tensor(data).shape]; [None] when
    the nesting is ragged. *)
Fixpoint shape_of (a : nested num) : option (list nat) :=
  match a with
  | Leaf _ => Some []
  | Node l =>
      match l with
      | [] => Some [0]
      | x :: r =>
          match shape_of x with
          | Some s =>
              if forallb (λ y, bool_decide (shape_of y = Some s)) r
              then Some (S (length r) :: s)
              else None
          | None => None
          end
      end
  end.

(** Row-major list of the elements. *)
Fixpoint flatten (a : nested num) : list num :=
  match a with
  | Leaf x => [x]
  | Node l => concat (map flatten l)
  end.

(** [c * tensor] and the like: a function applied to every element. *)
Fixpoint map_nested (f : num → num) (a : nested num) : nested num :=
  match a with
  | Leaf x => Leaf (f x)
  | Node l => Node (map (map_nested f) l)
  end.

(** Broadcasting of two shapes, trailing dimensions first. *)
Definition broadcast_dim (d1 d2 : nat) : option nat :=
  if d1 =? d2 then Some d1
  else if d1 =? 1 then Some d2
  else if d2 =? 1 then Some d1
  else None.

Fixpoint broadcast_rev (r1 r2 : list nat) : option (list nat) :=
  match r1, r2 with
  | [], r => Some r
  | r, [] => Some r
  | d1 :: t1, d2 :: t2 =>
      match broadcast_dim d1 d2, broadcast_rev t1 t2 with
      | Some d, Some t => Some (d :: t)
      | _, _ => None
      end
  end.

Definition broadcast_shapes (s1 s2 : list nat) : option (list nat) :=
  reverse <$> broadcast_rev (reverse s1) (reverse s2).

(** Leading dimensions of size 1 are added to the operand of lower rank. *)
Fixpoint unsqueeze (k : nat) (a : nested num) : nested num :=
  match k with
  | 0 => a
  | S k' => Node [unsqueeze k' a]
  end.

(** An operand of the same rank as [s] stretched to shape [s]: a
    dimension of size 1 is repeated. *)
Fixpoint expand (s : list nat) (a : nested num) : nested num :=
  match s with
  | [] => a
  | d :: s' =>
      match a with
      | Leaf _ => a
      | Node [x] => Node (replicate d (expand s' x))
      | Node l => Node (map (expand s') l)
      end
  end.

(** Element-wise combination of two arrays of one shape. *)
Fixpoint map2_nested (f : num → num → num) (a b : nested num) : nested num :=
  match a, b with
  | Leaf x, Leaf y => Leaf (f x y)
  | Node la, Node lb =>
      Node ((fix go (la lb : list (nested num)) : list (nested num) :=
               match la, lb with
               | x :: la', y :: lb' => map2_nested f x y :: go la' lb'
               | _, _ => []
               end) la lb)
  | _, _ => a
  end.

(** A binary tensor operation such as [t1 + t2]: [None] stands for the
    exception raised on ragged data or on shapes that do not broadcast. *)
Definition tensor_binop (f : num → num → num) (a b : nested num)
  : option (nested num) :=
  s1 ← shape_of a;
  s2 ← shape_of b;
  s ← broadcast_shapes s1 s2;
  Some (map2_nested f
          (expand s (unsqueeze (length s - length s1) a))
          (expand s (unsqueeze (length s - length s2) b))).

(** The element of an array at a position, one index for each dimension. *)
Fixpoint element_at (position : list nat) (a : nested num) : option num :=
  match position, a with
  | [], Leaf x => Some x
  | i :: rest, Node l =>
      match l !! i with
      | Some x => element_at rest x
      | None => None
      end
  | _, _ => None
  end.

(** Broadcasting, read off the positions: the position in an operand of
    shape [s] of the element that takes part at [position] of the result.
    Dimensions are matched from the last one, and along a dimension of
    size 1 the operand has its only element. *)
Definition broadcast_position (s : list nat) (position : list nat) : list nat :=
  zip_with (λ d i, if d =? 1 then 0 else i) s
    (drop (length position - length s) position).

(** A dimension of size [da] can be stretched to size [d]. *)
Definition stretches (da d : nat) : Prop := da = d ∨ da = 1.

(** Shapes of nested lists: only the last dimension can be empty. *)
Definition shape_ok (s : list nat) : Prop :=
  Forall (λ d, d ≠ 0) (tail (reverse s)).
End Tensors.


(** ** model.py: the parameter accessors of [SimpleTransformer]

    The model is the mapping from parameter names to their current values
    ([named_parameters()]). *)

Inductive outcome := Ok | Raised.

Section Model.
Context {num : Type} `{!Arith num}.

(** [get_trainable_parameters]: a fresh dictionary of [tolist()] values. *)
Definition get_trainable_parameters (model : gmap string (nested num))
  : gmap string (nested num) := model.

(** The shape [torch.tensor(data)] has; [None] when the call raises: on
    ragged data and on numbers a tensor does not take. *)
Definition tensor_shape (data : nested num) : option (list nat) :=
  if num_fits (flatten data) then shape_of data else None.

(** [torch.tensor(data)], written as the array [tolist()] gives back for
    it: the elements are those the tensor holds. *)
Definition torch_tensor (data : nested num) : option (nested num) :=
  match tensor_shape data with
  | Some _ => Some (map_nested (num_tensor (flatten data)) data)
  | None => None
  end.

(** [load_state_dict(state_dict, strict=False)]: every parameter of the
    model found in [state_dict] with the parameter's own shape is copied
    in place; names unknown to the model and names missing from
    [state_dict] are skipped; a size mismatch leaves that parameter alone
    and makes the call raise once all parameters have been visited. *)
Definition size_mismatch (state_dict : gmap string (nested num))
    (name : string) (param : nested num) : bool :=
  match state_dict !! name with
  | Some input_param => bool_decide (shape_of input_param ≠ shape_of param)
  | None => false
  end.

Definition load_param (state_dict : gmap string (nested num))
    (name : string) (param : nested num) : option (nested num) :=
  match state_dict !! name with
  | Some input_param =>
      if size_mismatch state_dict name param then Some param
      else Some input_param
  | None => Some param
  end.

Definition load_state_dict (state_dict model : gmap string (nested num))
  : outcome * gmap string (nested num) :=
  let model' := map_imap (load_param state_dict) model in
  if bool_decide (map_Forall (λ name param,
                    size_mismatch state_dict name param = false) model)
  then (Ok, model')
  else (Raised, model').

(** [set_parameters]: builds [state_dict] with one [torch.tensor] per
    entry, then loads it. *)
Definition set_parameters (parameters model : gmap string (nested num))
  : outcome * gmap string (nested num) :=
  match map_fold (λ name param_data acc,
                    state_dict ← acc;
                    t ← torch_tensor param_data;
                    Some (<[name := t]> state_dict))
                 (Some ∅) parameters with
  | Some state_dict => load_state_dict state_dict model
  | None => (Raised, model)
  end.
End Model.

(** ** coordinator.py: [aggregate_parameters] *)

Section Aggregation.
Context {num : Type} `{!Arith num}.

(** [(1 - learning_rate) * global_values + learning_rate * worker_tensor],
    a float32 tensor, as its [tolist()]. *)
Definition new_values (learning_rate : num) (global_data worker_values : nested num)
  : option (nested num) :=
  global_values ← torch_tensor global_data;
  worker_tensor ← torch_tensor worker_values;
  map_nested num_f32 <$>
    tensor_binop num_add
      (map_nested (num_mul (num_sub num_one learning_rate)) global_values)
      (map_nested (num_mul learning_rate) worker_tensor).

(** One round of the loop over [worker_parameters.items()]. *)
Definition blend_item (learning_rate : num) (param_name : string)
    (worker_values : nested num)
    (acc : option (gmap string (nested num)))
  : option (gmap string (nested num)) :=
  current_params ← acc;
  match current_params !! param_name with
  | Some global_data =>
      v ← new_values learning_rate global_data worker_values;
      Some (<[param_name := v]> current_params)
  | None => Some current_params
  end.

(** [aggregate_parameters]: [None] from the loop is the exception of a
    tensor call, raised before [set_parameters] is reached. Every name is
    visited once and the rounds touch different names, so the order of
    [items()] has no bearing on the result. *)
Definition aggregate_parameters (worker_parameters : gmap string (nested num))
    (learning_rate : num) (model : gmap string (nested num))
  : outcome * gmap string (nested num) :=
  let current_params := get_trainable_parameters model in
  match map_fold (blend_item learning_rate) (Some current_params)
                 worker_parameters with
  | Some current_params' => set_parameters current_params' model
  | None => (Raised, model)
  end.

End Aggregation.


(** ** database.py: [HydraDatabase] *)

Inductive task_status := pending | assigned | completed | failed.

#[export] Instance task_status_eq_dec : EqDecision task_status.
Proof. solve_decision. Defined.

Section Database.
Context {num : Type} `{!Arith num}.

(** Table [users], primary key [user_id]. *)
Record user_row := {
  created_at : string;
  total_tokens : num;
  total_work_done : Z
}.

(** Table [tasks], primary key [task_id]. *)
Record task_row := {
  task_id : string;
  task_created_at : string;
  assigned_to : option string;
  status : task_status;
  data_batch : list string;
  result : option (gmap string (nested num));
  tokens_reward : num;
  completed_at : option string
}.

(** Table [transactions]; [transaction_id] is the position in the log. *)
Record transaction_row := {
  tx_user_id : string;
  amount : num;
  tx_type : string;
  description : string;
  timestamp : string
}.

Record HydraDatabase := {
  users : gmap string user_row;
  tasks : list task_row;
  transactions : list transaction_row
}.

(** [create_tables] on a new file. *)
Definition create_tables : HydraDatabase :=
  {| users := ∅; tasks := []; transactions := [] |}.

(** [create_user]: [False] when the INSERT hits the primary key. *)
Definition create_user (user_id now : string) (d : HydraDatabase)
  : bool * HydraDatabase :=
  match users d !! user_id with
  | Some _ => (false, d)
  | None =>
      (true,
       {| users := <[user_id := {| created_at := now;
                                   total_tokens := num_zero;
                                   total_work_done := 0 |}]> (users d);
          tasks := tasks d;
          transactions := transactions d |})
  end.

Definition get_user (user_id : string) (d : HydraDatabase) : option user_row :=
  users d !! user_id.

Definition credit (amt : num) (u : user_row) : user_row :=
  {| created_at := created_at u;
     total_tokens := num_add (total_tokens u) amt;
     total_work_done := total_work_done u |}.

(** [add_tokens]: the UPDATE touches the row of [user_id] if there is
    one, the INSERT always appends to the log. *)
Definition add_tokens (user_id : string) (amt : num)
    (transaction_type descr now : string) (d : HydraDatabase)
  : HydraDatabase :=
  {| users := alter (credit amt) user_id (users d);
     tasks := tasks d;
     transactions :=
       transactions d ++ [ {| tx_user_id := user_id;
                              amount := amt;
                              tx_type := transaction_type;
                              description := descr;
                              timestamp := now |} ] |}.

(** [create_task]: [None] is the IntegrityError of a repeated primary key. *)
Definition create_task (tid : string) (batch : list string)
    (reward : num) (now : string) (d : HydraDatabase)
  : option HydraDatabase :=
  if bool_decide (tid ∈ task_id <$> tasks d) then None
  else Some
    {| users := users d;
       tasks := tasks d ++ [ {| task_id := tid;
                                task_created_at := now;
                                assigned_to := None;
                                status := pending;
                                data_batch := batch;
                                result := None;
                                tokens_reward := reward;
                                completed_at := None |} ];
       transactions := transactions d |}.

(** [get_pending_task]: SELECT ... WHERE status = 'pending' LIMIT 1, the
    first such row in table order. *)
Definition get_pending_task (d : HydraDatabase) : option task_row :=
  List.find (λ t, bool_decide (status t = pending)) (tasks d).

Definition set_assigned (user_id : string) (t : task_row) : task_row :=
  {| task_id := task_id t;
     task_created_at := task_created_at t;
     assigned_to := Some user_id;
     status := assigned;
     data_batch := data_batch t;
     result := result t;
     tokens_reward := tokens_reward t;
     completed_at := completed_at t |}.

Definition set_completed (res : gmap string (nested num)) (now : string)
    (t : task_row) : task_row :=
  {| task_id := task_id t;
     task_created_at := task_created_at t;
     assigned_to := assigned_to t;
     status := completed;
     data_batch := data_batch t;
     result := Some res;
     tokens_reward := tokens_reward t;
     completed_at := Some now |}.

(** UPDATE tasks SET ... WHERE task_id = ? *)
Definition update_task (f : task_row → task_row) (tid : string)
    (d : HydraDatabase) : HydraDatabase :=
  {| users := users d;
     tasks := (λ t, if bool_decide (task_id t = tid) then f t else t) <$> tasks d;
     transactions := transactions d |}.

Definition assign_task (tid user_id : string) (d : HydraDatabase)
  : HydraDatabase :=
  update_task (set_assigned user_id) tid d.

Definition complete_task (tid : string) (res : gmap string (nested num))
    (now : string) (d : HydraDatabase) : HydraDatabase :=
  update_task (set_completed res now) tid d.

Record user_stats := {
  stats_user_id : string;
  stats_total_tokens : num;
  tasks_completed : nat;
  member_since : string
}.

Definition get_user_stats (user_id : string) (d : HydraDatabase)
  : option user_stats :=
  match get_user user_id d with
  | None => None
  | Some user =>
      Some {| stats_user_id := user_id;
              stats_total_tokens := total_tokens user;
              tasks_completed :=
                length (List.filter
                          (λ t, bool_decide (assigned_to t = Some user_id)
                                && bool_decide (status t = completed))
                          (tasks d));
              member_since := created_at user |}
  end.
End Database.

Arguments user_row : clear implicits.
Arguments task_row : clear implicits.
Arguments transaction_row : clear implicits.
Arguments HydraDatabase : clear implicits.
Arguments user_stats : clear implicits.

(** ** coordinator.py: [CoordinatorServer] *)

(** Python truthiness of a request field read with [data.get]. *)
Definition truthy_str (v : option string) : bool :=
  match v with
  | Some s => negb (String.eqb s EmptyString)
  | None => false
  end.

Definition truthy_dict {A} (v : option (gmap string A)) : bool :=
  match v with
  | Some m => negb (size m =? 0)
  | None => false
  end.

(** What the random generator hands to one round of [generate_tasks]:
    the positions [random.sample] picks, the first eight hex digits of the
    uuid, and the clock reading of [create_task]. *)
Record draw := {
  picks : list nat;
  hex8 : string;
  drawn_at : string
}.

(** [random.sample(population, k)] for the picked positions. *)
Definition random_sample {A} (population : list A) (k : nat) (picked : list nat)
  : list A :=
  take k (omap (λ i, population !! i) picked).

Section Coordinator.
Context {num : Type} `{!Arith num}.

(** The mutable attributes of the server; the tokenizer, whose
    vocabulary only the discarded forward pass reads, is left out. *)
Record CoordinatorServer := {
  db : HydraDatabase num;
  model : gmap string (nested num);
  training_data : list string
}.

Definition with_db (d : HydraDatabase num) (st : CoordinatorServer)
  : CoordinatorServer :=
  {| db := d; model := model st; training_data := training_data st |}.

Definition tokens_per_task : num := num_one.
Definition tokens_cost : num := num_half.

(** JSON bodies, with the HTTP status where it is not 200. *)
Inductive response :=
  | Registered (user_id : string) (initial_tokens : num)
  | AlreadyRegistered (user_id : string) (current_tokens : num)
  | TaskIssued (tid : string) (batch : list string)
      (model_parameters : gmap string (nested num)) (reward : num)
  | NoTasksAvailable                                     (* 404 *)
  | TaskCompleted (tokens_earned new_balance : num)
  | Stats (s : user_stats num)
  | QueryAnswered (text : string) (tokens_spent new_balance : num)
  | InsufficientTokens (required balance : num)          (* 402 *)
  | Error (code : nat) (error : string)                  (* 400, 404 *)
  | InternalServerError.                                 (* 500 *)

Definition register_worker (user_id : option string) (now : string)
    (st : CoordinatorServer) : response * CoordinatorServer :=
  if negb (truthy_str user_id) then (Error 400 "user_id is required", st)
  else
    let uid := default EmptyString user_id in
    let '(success, d) := create_user uid now (db st) in
    if success then (Registered uid num_zero, with_db d st)
    else
      match get_user uid d with
      | Some user => (AlreadyRegistered uid (total_tokens user), with_db d st)
      | None => (InternalServerError, with_db d st)
      end.

Definition get_task (user_id : option string) (st : CoordinatorServer)
  : response * CoordinatorServer :=
  if negb (truthy_str user_id) then (Error 400 "user_id is required", st)
  else
    let uid := default EmptyString user_id in
    match get_user uid (db st) with
    | None => (Error 404 "User not registered", st)
    | Some _ =>
        match get_pending_task (db st) with
        | None => (NoTasksAvailable, st)
        | Some task =>
            let d := assign_task (task_id task) uid (db st) in
            let model_params := get_trainable_parameters (model st) in
            (TaskIssued (task_id task) (data_batch task) model_params
               (tokens_reward task),
             with_db d st)
        end
    end.

Definition submit_result (user_id task_id : option string)
    (updated_parameters : option (gmap string (nested num)))
    (now_completed now_credited : string) (st : CoordinatorServer)
  : response * CoordinatorServer :=
  if negb (truthy_str user_id && truthy_str task_id
           && truthy_dict updated_parameters)
  then (Error 400 "Missing required fields", st)
  else
    let uid := default EmptyString user_id in
    let tid := default EmptyString task_id in
    let params := default ∅ updated_parameters in
    match get_user uid (db st) with
    | None => (Error 404 "User not registered", st)
    | Some _ =>
        let d1 := complete_task tid params now_completed (db st) in
        match aggregate_parameters params num_tenth (model st) with
        | (Raised, m) =>
            (InternalServerError,
             {| db := d1; model := m; training_data := training_data st |})
        | (Ok, m) =>
            let tokens_earned := tokens_per_task in
            let d2 := add_tokens uid tokens_earned "reward"
                        ("Completed training task " ++ tid) now_credited d1 in
            let st' := {| db := d2; model := m;
                          training_data := training_data st |} in
            match get_user uid d2 with
            | Some user =>
                (TaskCompleted tokens_earned (total_tokens user), st')
            | None => (InternalServerError, st')
            end
        end
    end.

Definition get_balance (user_id : option string) (st : CoordinatorServer)
  : response * CoordinatorServer :=
  if negb (truthy_str user_id) then (Error 400 "user_id is required", st)
  else
    match get_user_stats (default EmptyString user_id) (db st) with
    | None => (Error 404 "User not found", st)
    | Some stats => (Stats stats, st)
    end.

(** [generate_response]: the forward pass is computed and dropped. *)
Definition generate_response (prompt : string) : string :=
  "Model response to: '" ++ prompt ++
  "' (Note: This is a demonstration. The model needs more training to generate meaningful responses.)".

Definition query_model (user_id prompt : option string) (now : string)
    (st : CoordinatorServer) : response * CoordinatorServer :=
  if negb (truthy_str user_id && truthy_str prompt)
  then (Error 400 "user_id and prompt are required", st)
  else
    let uid := default EmptyString user_id in
    match get_user uid (db st) with
    | None => (Error 404 "User not registered", st)
    | Some user =>
        if num_ltb (total_tokens user) tokens_cost
        then (InsufficientTokens tokens_cost (total_tokens user), st)
        else
          let d := add_tokens uid (num_neg tokens_cost) "query" "Model query"
                     now (db st) in
          let text := generate_response (default EmptyString prompt) in
          match get_user uid d with
          | Some user' =>
              (QueryAnswered text tokens_cost (total_tokens user'), with_db d st)
          | None => (InternalServerError, with_db d st)
          end
    end.

(** [generate_tasks]: the loop body for the rounds [rounds], round [i]
    drawing [rnd i]; a failing [create_task] ends the loop with the
    tasks created so far in place. *)
Fixpoint generate_loop (rnd : nat → draw) (rounds : list nat)
    (st : CoordinatorServer) : outcome * CoordinatorServer :=
  match rounds with
  | [] => (Ok, st)
  | i :: rest =>
      let batch := random_sample (training_data st)
                     (min 3 (length (training_data st))) (picks (rnd i)) in
      let tid := "task-" ++ hex8 (rnd i) in
      match create_task tid batch tokens_per_task (drawn_at (rnd i)) (db st) with
      | None => (Raised, st)
      | Some d => generate_loop rnd rest (with_db d st)
      end
  end.

Definition generate_tasks (num_tasks : nat) (rnd : nat → draw)
    (st : CoordinatorServer) : outcome * CoordinatorServer :=
  generate_loop rnd (seq 0 num_tasks) st.

(** One wake-up of [background_task_generator]. *)
Definition background_task_generator (rnd : nat → draw)
    (st : CoordinatorServer) : outcome * CoordinatorServer :=
  match get_pending_task (db st) with
  | None => generate_tasks 10 rnd st
  | Some _ => (Ok, st)
  end.

(** *** The server as a transition system *)

Inductive event :=
  | Register (user_id : option string) (now : string)
  | GetTask (user_id : option string)
  | SubmitResult (user_id task_id : option string)
      (updated_parameters : option (gmap string (nested num)))
      (now_completed now_credited : string)
  | GetBalance (user_id : option string)
  | QueryModel (user_id prompt : option string) (now : string)
  | GenerateTasks (num_tasks : nat) (rnd : nat → draw)
  | Background (rnd : nat → draw).

Definition step (e : event) (st : CoordinatorServer) : CoordinatorServer :=
  match e with
  | Register u now => (register_worker u now st).2
  | GetTask u => (get_task u st).2
  | SubmitResult u t p n1 n2 => (submit_result u t p n1 n2 st).2
  | GetBalance u => (get_balance u st).2
  | QueryModel u q now => (query_model u q now st).2
  | GenerateTasks n rnd => (generate_tasks n rnd st).2
  | Background rnd => (background_task_generator rnd st).2
  end.

(** The server starts on a new database file with some model and corpus. *)
Definition initial (st : CoordinatorServer) : Prop := db st = create_tables.

Inductive reachable : CoordinatorServer → Prop :=
  | reachable_initial st : initial st → reachable st
  | reachable_step e st : reachable st → reachable (step e st).

Definition run (events : list event) (st : CoordinatorServer)
  : CoordinatorServer :=
  foldl (λ s e, step e s) st events.

(** *** [get_task] one database call at a time

    Flask serves requests on parallel threads ([threaded=True]) over one
    shared connection, so the calls of two handlers may alternate. *)
Inductive get_task_pc :=
  | AtEntry (user_id : option string)
  | UserChecked (uid : string)
  | TaskSelected (uid : string) (task : task_row num)
  | TaskAssigned (uid : string) (task : task_row num)
  | Returned (r : response).

Definition get_task_step (pc : get_task_pc) (st : CoordinatorServer)
  : get_task_pc * CoordinatorServer :=
  match pc with
  | AtEntry user_id =>
      if negb (truthy_str user_id)
      then (Returned (Error 400 "user_id is required"), st)
      else
        let uid := default EmptyString user_id in
        match get_user uid (db st) with
        | None => (Returned (Error 404 "User not registered"), st)
        | Some _ => (UserChecked uid, st)
        end
  | UserChecked uid =>
      match get_pending_task (db st) with
      | None => (Returned NoTasksAvailable, st)
      | Some task => (TaskSelected uid task, st)
      end
  | TaskSelected uid task =>
      (TaskAssigned uid task, with_db (assign_task (task_id task) uid (db st)) st)
  | TaskAssigned uid task =>
      (Returned (TaskIssued (task_id task) (data_batch task)
                   (get_trainable_parameters (model st)) (tokens_reward task)),
       st)
  | Returned r => (Returned r, st)
  end.

(** Two handlers [a] and [b] under a schedule: [true] lets [a] make its
    next call, [false] lets [b]. *)
Fixpoint interleave (schedule : list bool) (a b : get_task_pc)
    (st : CoordinatorServer) : get_task_pc * get_task_pc * CoordinatorServer :=
  match schedule with
  | [] => (a, b, st)
  | true :: rest =>
      let '(a', st') := get_task_step a st in interleave rest a' b st'
  | false :: rest =>
      let '(b', st') := get_task_step b st in interleave rest a b' st'
  end.

Definition pending_tasks (st : CoordinatorServer) : list (task_row num) :=
  List.filter (λ t, bool_decide (status t = pending)) (tasks (db st)).
End Coordinator.

Arguments CoordinatorServer : clear implicits.
Arguments response : clear implicits.
Arguments event : clear implicits.
Arguments get_task_pc : clear implicits.

(** ** Vocabulary of the statements *)

Section Vocabulary.
Context {num : Type} `{!Arith num}.

(** [(1 - w) * old + w * new] on one element, in float32. *)
Definition blend_element (w old new : num) : num :=
  num_f32 (num_add (num_mul (num_sub num_one w) old) (num_mul w new)).

(** [torch.tensor] takes every stored parameter: each is a rectangular
    array of numbers a tensor can hold. *)
Definition store_wf (model : gmap string (nested num)) : Prop :=
  map_Forall (λ _ g, is_Some (tensor_shape g)) model.

(** Every stored parameter is what a tensor gives back: reading it with
    [torch.tensor] returns it as it is. A model whose parameters have been
    loaded is of this kind. *)
Definition tensor_store (model : gmap string (nested num)) : Prop :=
  map_Forall (λ _ g, torch_tensor g = Some g) model.

(** The value submitted under [k] makes a tensor of the shape of the
    stored parameter [k], if there is one. *)
Definition same_shape_as (model : gmap string (nested num)) (k : string)
    (u : nested num) : bool :=
  match model !! k with
  | Some g => bool_decide (tensor_shape u = tensor_shape g)
  | None => true
  end.

(** The submitted value [u] can be blended into the stored [g] and the
    result has the shape of [g]: both make tensors, and the shape of [u]
    broadcasts to that of [g]. *)
Definition fits_stored (g u : nested num) : bool :=
  match tensor_shape g, tensor_shape u with
  | Some s, Some su => bool_decide (broadcast_shapes s su = Some s)
  | _, _ => false
  end.

Definition blends_in_place (update model : gmap string (nested num)) : Prop :=
  ∀ k g u, model !! k = Some g → update !! k = Some u → fits_stored g u = true.

Definition well_shaped (update model : gmap string (nested num)) : Prop :=
  map_Forall (λ k u, same_shape_as model k u = true) update.

(** The two arrays are rectangular and their shapes broadcast. *)
Definition broadcastable (g u : nested num) : bool :=
  match shape_of g, shape_of u with
  | Some s1, Some s2 => bool_decide (is_Some (broadcast_shapes s1 s2))
  | _, _ => false
  end.

(** Some submitted value cannot be blended into the stored one. *)
Definition blend_fails (w : num) (model update : gmap string (nested num))
  : Prop :=
  ∃ k u g, update !! k = Some u ∧ model !! k = Some g ∧ new_values w g u = None.

(** What the loop leaves under [k] when it runs to its end. *)
Definition blended (w : num) (model update : gmap string (nested num))
    (k : string) : option (nested num) :=
  g ← model !! k;
  match update !! k with
  | Some u => new_values w g u
  | None => Some g
  end.

(** Replaying a user's entries of the transaction log on a balance. *)
Definition apply_log (user_id : string) (start : num)
    (log : list (transaction_row num)) : num :=
  foldl (λ acc t, if bool_decide (tx_user_id t = user_id)
                  then num_add acc (amount t) else acc)
        start log.

Definition balance_of_log (user_id : string)
    (log : list (transaction_row num)) : num :=
  apply_log user_id num_zero log.

(** How one request may move the token ledger from [d] to [d']: the log
    grows by at most one record, written for an existing account; every
    account stays, with its creation time, and its balance moves by
    exactly the new records written for it; an account that appears
    has a non-empty id and a balance of zero. *)
Definition ledger_step (d d' : HydraDatabase num) : Prop :=
  ∃ new : list (transaction_row num),
    transactions d' = (transactions d ++ new)%list ∧
    length new ≤ 1 ∧
    (∀ t, t ∈ new → is_Some (users d !! tx_user_id t)) ∧
    (∀ uid u, users d !! uid = Some u →
       ∃ u', users d' !! uid = Some u' ∧
             created_at u' = created_at u ∧
             total_tokens u' = apply_log uid (total_tokens u) new) ∧
    (∀ uid u', users d !! uid = None → users d' !! uid = Some u' →
       uid ≠ EmptyString ∧ total_tokens u' = num_zero).

(** What holds of the ledger in every state the server can reach. *)
Definition ledger_inv (d : HydraDatabase num) : Prop :=
  (∀ uid, is_Some (users d !! uid) → uid ≠ EmptyString) ∧
  (∀ t, t ∈ transactions d → is_Some (users d !! tx_user_id t)) ∧
  (∀ uid u, users d !! uid = Some u →
     total_tokens u = balance_of_log uid (transactions d)).

(** The task a finished [get_task] handler handed out. *)
Definition issued_task (pc : get_task_pc num) : option string :=
  match pc with
  | Returned (TaskIssued tid _ _ _) => Some tid
  | _ => None
  end.

(** The row [generate_tasks] has [create_task] insert. *)
Definition new_task (tid : string) (batch : list string) (now : string)
  : task_row num :=
  {| task_id := tid; task_created_at := now; assigned_to := None;
     status := pending; data_batch := batch; result := None;
     tokens_reward := tokens_per_task; completed_at := None |}.
End Vocabulary.

(** ** Concrete data for the worked runs, in exact arithmetic *)

Definition vec (l : list Q) : nested Q := Node (Leaf <$> l).

(** A two-parameter model: a bias of shape [3] and a positional encoding
    of shape [1, 1, 2]. *)
Definition small_model : gmap string (nested Q) :=
  {[ "output_layer.bias" := vec [1; 2; 3]%Q;
     "positional_encoding" := Node [Node [vec [0; 0]%Q]] ]}.

(** A well-formed update: the bias with its stored shape, and a name the
    model does not have. *)
Definition bias_update : gmap string (nested Q) :=
  {[ "output_layer.bias" := vec [5; 6; 7]%Q;
     "output_layer.scale" := vec [9]%Q ]}.

(** A bias of shape [1] against the stored shape [3]. *)
Definition short_update : gmap string (nested Q) :=
  {[ "output_layer.bias" := vec [5]%Q ]}.

(** A bias of shape [2] against the stored shape [3]. *)
Definition wrong_update : gmap string (nested Q) :=
  {[ "output_layer.bias" := vec [5; 6]%Q ]}.



(** A random source: every round picks positions 0, 2, 1 and the uuid
    digits end in the round number. *)
Definition demo_rnd (i : nat) : draw :=
  {| picks := [0; 2; 1]; hex8 := "3f9a2c0" ++ pretty i;
     drawn_at := "2024-05-01T09:00:00" |}.

(** The server on a new database. *)
Definition fresh_server : CoordinatorServer Q :=
  {| db := create_tables; model := small_model;
     training_data := ["a"; "b"; "c"; "d"] |}.

Definition empty_corpus_server : CoordinatorServer Q :=
  {| db := create_tables; model := small_model; training_data := [] |}.

(** One pending task, two registered workers. *)
Definition two_workers : CoordinatorServer Q :=
  run [GenerateTasks 1 demo_rnd;
       Register (Some "alice") "2024-05-01T09:01:00";
       Register (Some "bob") "2024-05-01T09:02:00"] fresh_server.

(** ... then alice is handed the task ... *)
Definition alice_holds_task : CoordinatorServer Q :=
  step (GetTask (Some "alice")) two_workers.

(** ... and submits her update. *)
Definition alice_done : CoordinatorServer Q :=
  step (SubmitResult (Some "alice") (Some "task-3f9a2c00") (Some bias_update)
          "2024-05-01T09:05:00" "2024-05-01T09:05:01") alice_holds_task.

(** An account holding 0.3 tokens. *)
Definition carol_has_03 : CoordinatorServer Q :=
  {| db := {| users := {[ "carol" := {| created_at := "2024-05-01T08:00:00";
                                        total_tokens := (3 # 10)%Q;
                                        total_work_done := 0 |} ]};
              tasks := [];
              transactions := [] |};
     model := small_model;
     training_data := ["a"; "b"; "c"; "d"] |}.

(** Both handlers read the user and select a task before either assigns. *)
Definition race_schedule : list bool :=
  [true; true; false; false; true; true; false; false].

(** The first handler returns before the second starts. *)
Definition serial_schedule : list bool :=
  [true; true; true; true; false; false; false; false].

(** ** The moves of the database *)

Section Moves.
Context {num : Type} `{!Arith num}.

(** The columns of a task row that no UPDATE of database.py names. *)
Definition task_core (t : task_row num) : string * string * list string * num :=
  (task_id t, task_created_at t, data_batch t, tokens_reward t).

(** A run of successful [create_task] calls as [generate_tasks] makes
    them: a batch sampled from the corpus, the fixed reward. *)
Inductive creates (corpus : list string)
  : HydraDatabase num → HydraDatabase num → Prop :=
  | creates_none d : creates corpus d d
  | creates_one d d1 d2 hex picked now :
      create_task ("task-" ++ hex)
        (random_sample corpus (min 3 (length corpus)) picked)
        tokens_per_task now d = Some d1 →
      creates corpus d1 d2 →
      creates corpus d d2.

(** Everything one request can do to the database of [st], with the
    guard the handler has passed when it does it. *)
Inductive db_move (st : CoordinatorServer num) : HydraDatabase num → Prop :=
  | move_none : db_move st (db st)
  | move_register uid now :
      uid ≠ EmptyString →
      db_move st (create_user uid now (db st)).2
  | move_assign uid task :
      uid ≠ EmptyString →
      is_Some (get_user uid (db st)) →
      get_pending_task (db st) = Some task →
      db_move st (assign_task (task_id task) uid (db st))
  | move_complete uid tid res now :
      is_Some (get_user uid (db st)) →
      db_move st (complete_task tid res now (db st))
  | move_reward uid tid res now_completed now_credited :
      uid ≠ EmptyString →
      is_Some (get_user uid (db st)) →
      db_move st
        (add_tokens uid tokens_per_task "reward"
           ("Completed training task " ++ tid) now_credited
           (complete_task tid res now_completed (db st)))
  | move_query uid u now :
      get_user uid (db st) = Some u →
      num_ltb (total_tokens u) tokens_cost = false →
      db_move st
        (add_tokens uid (num_neg tokens_cost) "query" "Model query" now (db st))
  | move_generate d :
      creates (training_data st) (db st) d →
      db_move st d.

(** The row one round of [generate_tasks] creates from its draw. *)
Definition drawn_task (corpus : list string) (dr : draw) : task_row num :=
  new_task ("task-" ++ hex8 dr)
    (random_sample corpus (min 3 (length corpus)) (picks dr)) (drawn_at dr).

(** How a task row may differ between two states of the table: the
    columns fixed at creation stay; a row that has left [pending] does not
    come back to it and keeps its assignee; a completed row stays
    completed; no row is ever marked failed. *)
Definition row_evolves (t t' : task_row num) : Prop :=
  task_core t' = task_core t ∧
  (status t ≠ pending →
     status t' ≠ pending ∧ assigned_to t' = assigned_to t) ∧
  (status t = completed → status t' = completed) ∧
  (status t ≠ failed → status t' ≠ failed).

(** The table [l'] continues the table [l]: the rows of [l] are still
    there, in their order and evolved, followed by rows created since. *)
Definition tasks_evolve (l l' : list (task_row num)) : Prop :=
  ∃ kept created, l' = (kept ++ created)%list ∧ Forall2 row_evolves l kept.

(** What holds of a task row in every state the server can reach. *)
Definition task_row_ok (corpus : list string) (d : HydraDatabase num)
    (t : task_row num) : Prop :=
  tokens_reward t = tokens_per_task ∧
  status t ≠ failed ∧
  (status t = pending →
     assigned_to t = None ∧ result t = None ∧ completed_at t = None) ∧
  (status t = assigned → is_Some (assigned_to t)) ∧
  (status t = completed → is_Some (result t) ∧ is_Some (completed_at t)) ∧
  (∀ uid, assigned_to t = Some uid → is_Some (users d !! uid)) ∧
  length (data_batch t) ≤ 3 ∧
  (∀ x, x ∈ data_batch t → x ∈ corpus) ∧
  (∃ hex, task_id t = "task-" ++ hex).

Definition task_inv (corpus : list string) (d : HydraDatabase num) : Prop :=
  NoDup (task_id <$> tasks d) ∧ Forall (task_row_ok corpus d) (tasks d).

(** [tasks_completed] as [get_user_stats] counts it. *)
Definition completed_by (user_id : string) (d : HydraDatabase num) : nat :=
  length (List.filter
            (λ t, bool_decide (assigned_to t = Some user_id)
                  && bool_decide (status t = completed))
            (tasks d)).
End Moves.

(** ** model.py: [SimpleTokenizer]

    Texts are ASCII, as the corpus is; a byte above 127 is neither a
    letter nor white space here. Token ids, lengths and the vocabulary
    size are Python integers. *)

Record SimpleTokenizer := {
  vocab_size : Z;
  token_to_id : gmap string Z;
  id_to_token : gmap Z string;
  next_id : Z
}.

(** [SimpleTokenizer.__init__] *)
Definition new_tokenizer (size : Z) : SimpleTokenizer :=
  {| vocab_size := size;
     token_to_id := {[ "<PAD>" := 0%Z; "<UNK>" := 1%Z;
                       "<START>" := 2%Z; "<END>" := 3%Z ]};
     id_to_token := {[ 0%Z := "<PAD>"; 1%Z := "<UNK>";
                       2%Z := "<START>"; 3%Z := "<END>" ]};
     next_id := 4 |}.

(** The slice [l[:stop]]: a negative [stop] counts from the end. *)
Definition py_slice_to {A} (stop : Z) (l : list A) : list A :=
  if (0 <=? stop)%Z then take (Z.to_nat stop) l
  else take (length l - Z.to_nat (- stop)) l.

(** [str.lower] *)
Definition is_upper (c : Ascii.ascii) : bool :=
  (65 <=? Ascii.nat_of_ascii c) && (Ascii.nat_of_ascii c <=? 90).

Definition lower_char (c : Ascii.ascii) : Ascii.ascii :=
  if is_upper c then Ascii.ascii_of_nat (Ascii.nat_of_ascii c + 32) else c.

Fixpoint lower (s : string) : string :=
  match s with
  | EmptyString => EmptyString
  | String c s' => String (lower_char c) (lower s')
  end.

(** [str.split] without arguments: the maximal runs of characters that
    are not white space (tab to carriage return, file to unit separator,
    space). *)
Definition is_whitespace (c : Ascii.ascii) : bool :=
  (Ascii.nat_of_ascii c =? 32)
  || ((9 <=? Ascii.nat_of_ascii c) && (Ascii.nat_of_ascii c <=? 13))
  || ((28 <=? Ascii.nat_of_ascii c) && (Ascii.nat_of_ascii c <=? 31)).

Fixpoint split_go (word : string) (s : string) : list string :=
  match s with
  | EmptyString => if String.eqb word EmptyString then [] else [word]
  | String c s' =>
      if is_whitespace c
      then (if String.eqb word EmptyString then split_go EmptyString s'
            else word :: split_go EmptyString s')
      else split_go (word ++ String c EmptyString) s'
  end.

Definition split (s : string) : list string := split_go EmptyString s.

(** One round of the loop of [encode]. *)
Definition encode_token (acc : SimpleTokenizer * list Z) (token : string)
  : SimpleTokenizer * list Z :=
  let '(tk, ids) := acc in
  match token_to_id tk !! token with
  | None =>
      if (next_id tk <? vocab_size tk)%Z
      then ({| vocab_size := vocab_size tk;
               token_to_id := <[token := next_id tk]> (token_to_id tk);
               id_to_token := <[next_id tk := token]> (id_to_token tk);
               next_id := next_id tk + 1 |},
            (ids ++ [next_id tk])%list)
      else (tk, (ids ++ [1%Z])%list)
  | Some i => (tk, (ids ++ [i])%list)
  end.

Record encoding := {
  input_ids : list Z;
  attention_mask : list Z
}.

(** [encode] after [tokens = text.lower().split()]. *)
Definition encode_tokens (tokens : list string) (max_length : Z)
    (tk : SimpleTokenizer) : encoding * SimpleTokenizer :=
  let '(tk', ids) :=
    foldl encode_token (tk, []) (py_slice_to (max_length - 2) tokens) in
  let ids := ([2%Z] ++ ids ++ [3%Z])%list in
  let mask := replicate (length ids) 1%Z in
  let pad := Z.to_nat (max_length - Z.of_nat (length ids)) in
  ({| input_ids := py_slice_to max_length (ids ++ replicate pad 0%Z)%list;
      attention_mask := py_slice_to max_length (mask ++ replicate pad 0%Z)%list |},
   tk').

Definition encode (text : string) (max_length : Z) (tk : SimpleTokenizer)
  : encoding * SimpleTokenizer :=
  encode_tokens (split (lower text)) max_length tk.

(** [decode] *)
Definition decode_id (tk : SimpleTokenizer) (i : Z) : option string :=
  match id_to_token tk !! i with
  | Some token =>
      if bool_decide (token ∈ ["<PAD>"; "<START>"; "<END>"]) then None
      else Some token
  | None => None
  end.

Definition decode (token_ids : list Z) (tk : SimpleTokenizer) : string :=
  String.concat " " (omap (decode_id tk) token_ids).

(** The two dictionaries of a tokenizer mirror each other, every id in
    use is below [next_id], and the four special tokens sit at 0 to 3. *)
Definition tokenizer_wf (tk : SimpleTokenizer) : Prop :=
  (∀ t i, token_to_id tk !! t = Some i ↔ id_to_token tk !! i = Some t) ∧
  (∀ i t, id_to_token tk !! i = Some t → (0 ≤ i < next_id tk)%Z) ∧
  id_to_token tk !! 0%Z = Some "<PAD>" ∧
  id_to_token tk !! 1%Z = Some "<UNK>" ∧
  id_to_token tk !! 2%Z = Some "<START>" ∧
  id_to_token tk !! 3%Z = Some "<END>".

(** How [encode] answers for [token] in the state [tk]: with the id the
    token has, or with 1 when the token is unknown and the vocabulary is
    full. *)
Definition answers (tk : SimpleTokenizer) (token : string) (i : Z) : Prop :=
  token_to_id tk !! token = Some i ∨
  (token_to_id tk !! token = None ∧ (vocab_size tk ≤ next_id tk)%Z ∧ i = 1%Z).

Fixpoint no_upper (s : string) : bool :=
  match s with
  | EmptyString => true
  | String c s' => negb (is_upper c) && no_upper s'
  end.

(** ** worker.py: [HydraWorker]

    The worker talks to the coordinator over HTTP; here each request is a
    call of the handler on the coordinator's state, so the network never
    fails. The training is PyTorch's: it enters as a function
    [train_on_task] of the task and of what the worker keeps between
    tasks (its model and its tokenizer), with [None] where the source
    catches an exception. *)

(** The HTTP status of a response. *)
Definition status_code {num} (r : response num) : nat :=
  match r with
  | NoTasksAvailable => 404
  | InsufficientTokens _ _ => 402
  | Error code _ => code
  | InternalServerError => 500
  | _ => 200
  end.

Module HydraWorker.
Section Methods.
Context {num : Type} `{!Arith num} {local : Type}.
Variable train_on_task :
  string → list string → gmap string (nested num) → local →
  option (gmap string (nested num)) * local.
(** The coordinator's clock at its database writes, by request number. *)
Variable clock : nat → string * string.

Definition register (user_id : string) (st : CoordinatorServer num)
  : bool * CoordinatorServer num :=
  let '(r, st') := register_worker (Some user_id) (clock 0).1 st in
  (status_code r =? 200, st').

(** The task data, or [None] for any status but 200. *)
Definition get_task (user_id : string) (st : CoordinatorServer num)
  : option (response num) * CoordinatorServer num :=
  let '(r, st') := get_task (Some user_id) st in
  (if status_code r =? 200 then Some r else None, st').

Definition submit_result (user_id task_id : string)
    (updated_parameters : gmap string (nested num)) (request : nat)
    (st : CoordinatorServer num) : bool * CoordinatorServer num :=
  let '(r, st') := submit_result (Some user_id) (Some task_id)
                     (Some updated_parameters)
                     (clock request).1 (clock request).2 st in
  (status_code r =? 200, st').

Definition check_balance (user_id : string) (st : CoordinatorServer num)
  : option (response num) * CoordinatorServer num :=
  let '(r, st') := get_balance (Some user_id) st in
  (if status_code r =? 200 then Some r else None, st').

(** How a call of [work_loop] ends. *)
Record session := {
  registered : bool;
  tasks_completed : nat;
  (** the loop left by its [break], not by Ctrl+C *)
  stopped : bool;
  worker : local;
  coordinator : CoordinatorServer num
}.

(** The [while True] of [work_loop], interrupted (Ctrl+C, during a sleep)
    after [rounds] iterations if it has not stopped before. A 200 without
    a task id, which the coordinator never sends, ends the loop with the
    KeyError of [get_task]'s print. A failed submission goes on to the
    next iteration; where reading the body of a 500 raises past the
    handler instead, the loop ends in the state this iteration leaves. *)
Fixpoint work_rounds (rounds : nat) (request : nat) (num_tasks : option nat)
    (user_id : string) (counted : nat) (w : local)
    (st : CoordinatorServer num) : nat * bool * local * CoordinatorServer num :=
  match rounds with
  | 0 => (counted, false, w, st)
  | S rounds =>
      if match num_tasks with
         | Some n => n <=? counted
         | None => false
         end
      then (counted, true, w, st)
      else
        let '(task_data, st) := get_task user_id st in
        match task_data with
        | None =>
            work_rounds rounds (S request) num_tasks user_id counted w st
        | Some (TaskIssued tid batch params _) =>
            match train_on_task tid batch params w with
            | (None, w) =>
                work_rounds rounds (S request) num_tasks user_id counted w st
            | (Some updated_parameters, w) =>
                let '(success, st) :=
                  submit_result user_id tid updated_parameters (S request) st in
                let counted := if success then S counted else counted in
                let st := if counted mod 5 =? 0
                          then (check_balance user_id st).2 else st in
                work_rounds rounds (S request) num_tasks user_id counted w st
            end
        | Some _ => (counted, false, w, st)
        end
  end.

Definition work_loop (rounds : nat) (num_tasks : option nat)
    (user_id : string) (w : local) (st : CoordinatorServer num) : session :=
  let '(ok, st) := register user_id st in
  if negb ok
  then {| registered := false; tasks_completed := 0; stopped := false;
          worker := w; coordinator := st |}
  else
    let '(counted, stopped, w, st) :=
      work_rounds rounds 0 num_tasks user_id 0 w st in
    {| registered := true; tasks_completed := counted; stopped := stopped;
       worker := w; coordinator := (check_balance user_id st).2 |}.
End Methods.
End HydraWorker.

(** The reward records a session of [user_id] leaves in the log. *)
Definition session_rewards {num} `{!Arith num} (user_id : string)
    (new : list (transaction_row num)) : Prop :=
  Forall (λ tx, tx_user_id tx = user_id ∧ amount tx = tokens_per_task ∧
                tx_type tx = "reward") new.

(** What [work_rounds], started in [st] with [counted] on its counter and
    the account [u] for [user_id], leaves behind: one reward record per
    counted task and nothing else in the log, the balance raised once per
    counted task, the other accounts as they were, and a counter within
    [num_tasks] that has reached it if the loop stopped by itself. *)
Definition session_accounts {num} `{!Arith num} {local : Type}
    (user_id : string) (num_tasks : option nat) (counted : nat)
    (st : CoordinatorServer num) (u : user_row num)
    (res : nat * bool * local * CoordinatorServer num) : Prop :=
  ∃ new u',
    counted ≤ res.1.1.1 ∧
    transactions (db res.2) = (transactions (db st) ++ new)%list ∧
    length new = res.1.1.1 - counted ∧
    session_rewards user_id new ∧
    users (db res.2) !! user_id = Some u' ∧
    created_at u' = created_at u ∧
    total_tokens u'
    = Nat.iter (res.1.1.1 - counted) (λ b, num_add b tokens_per_task)
        (total_tokens u) ∧
    (∀ other, other ≠ user_id →
              users (db res.2) !! other = users (db st) !! other) ∧
    training_data res.2 = training_data st ∧
    match num_tasks with
    | Some n => counted ≤ n →
                res.1.1.1 ≤ n ∧ (res.1.1.2 = true → res.1.1.1 = n)
    | None => res.1.1.2 = false
    end.

(** The training returns, for whatever parameters it is handed that
    [torch.tensor] takes, a non-empty dictionary whose values make
    tensors of the shapes of the parameters of the same names. *)
Definition keeps_layout {num} `{!Arith num} {local : Type}
    (train_on_task : string → list string → gmap string (nested num) → local →
                     option (gmap string (nested num)) * local) : Prop :=
  ∀ tid batch params w,
    store_wf params → params ≠ ∅ →
    ∃ update, (train_on_task tid batch params w).1 = Some update ∧
              update ≠ ∅ ∧ well_shaped update params.

(** ** worker.py and query.py: the coordinator URL *)

Definition is_slash (c : Ascii.ascii) : bool := Ascii.nat_of_ascii c =? 47.

(** [url.endswith('/')] *)
Fixpoint endswith_slash (url : string) : bool :=
  match url with
  | EmptyString => false
  | String c EmptyString => is_slash c
  | String _ rest => endswith_slash rest
  end.

(** [url[:-1]] *)
Fixpoint without_last (url : string) : string :=
  match url with
  | EmptyString => EmptyString
  | String _ EmptyString => EmptyString
  | String c rest => String c (without_last rest)
  end.

(** [HydraWorker.__init__]: one trailing slash is removed. *)
Definition worker_coordinator_url (coordinator_url : string) : string :=
  if endswith_slash coordinator_url then without_last coordinator_url
  else coordinator_url.

(** [str.rstrip('/')] *)
Fixpoint rstrip_slash (url : string) : string :=
  match url with
  | EmptyString => EmptyString
  | String c rest =>
      match rstrip_slash rest with
      | EmptyString => if is_slash c then EmptyString else String c EmptyString
      | stripped => String c stripped
      end
  end.

(** [HydraQuery.__init__] *)
Definition query_coordinator_url (coordinator_url : string) : string :=
  rstrip_slash coordinator_url.

(** ** Concrete data for the worked examples of the later sections *)

(** The task of [two_workers] as [generate_tasks] created it. *)
Definition demo_task : task_row Q :=
  {| task_id := "task-3f9a2c00"; task_created_at := "2024-05-01T09:00:00";
     assigned_to := None; status := pending;
     data_batch := ["a"; "c"; "b"]; result := None;
     tokens_reward := 1%Q; completed_at := None |}.

(** The account of alice with [tokens] on it. *)
Definition alice_row (tokens : Q) : user_row Q :=
  {| created_at := "2024-05-01T09:01:00"; total_tokens := tokens;
     total_work_done := 0 |}.

(** A second random source, with other uuid digits. *)
Definition later_rnd (i : nat) : draw :=
  {| picks := [1; 3; 0]; hex8 := "7b1e4d0" ++ pretty i;
     drawn_at := "2024-05-01T10:00:00" |}.

(** Parameters in the layout of [small_model]. *)
Definition trained_model : gmap string (nested Q) :=
  {[ "output_layer.bias" := vec [4; 5; 6]%Q;
     "positional_encoding" := Node [Node [vec [1; 1]%Q]] ]}.

(** A training that learns nothing: the parameters go back as they came. *)
Definition echo_training (tid : string) (batch : list string)
    (params : gmap string (nested Q)) (w : unit)
  : option (gmap string (nested Q)) * unit :=
  (Some params, w).

Definition demo_clock (request : nat) : string * string :=
  ("2024-05-01T09:0" ++ pretty request ++ ":00",
   "2024-05-01T09:0" ++ pretty request ++ ":01").

(** * Properties *)

(** ** Arrays *)

Section TensorFacts.
Context {num : Type}.
Implicit Types (a b : nested num) (l la lb : list (nested num)) (s : list nat).

(** Induction over arrays with the hypothesis available for every row. *)
Lemma nested_ind_rows (P : nested num → Prop) :
  (∀ x, P (Leaf x)) →
  (∀ l, Forall P l → P (Node l)) →
  ∀ a, P a.
Proof.
  intros Hleaf Hnode. fix IH 1. intros [x|l].
  - apply Hleaf.
  - apply Hnode. induction l as [|y l IHl]; constructor.
    + apply IH.
    + exact IHl.
Qed.

Lemma forallb_shape l s :
  forallb (λ z, bool_decide (shape_of z = Some s)) l = true
  ↔ Forall (λ z, shape_of z = Some s) l.
Proof.
  induction l as [|y l IH]; simpl.
  - split; [constructor|done].
  - rewrite andb_true_iff, bool_decide_eq_true, IH, Forall_cons. done.
Qed.

Lemma shape_of_rows y l s :
  Forall (λ z, shape_of z = Some s) (y :: l) →
  shape_of (Node (y :: l)) = Some (length (y :: l) :: s).
Proof.
  intros H. inversion H as [|? ? Hy Hl]; subst. simpl. rewrite Hy.
  apply forallb_shape in Hl. by rewrite Hl.
Qed.

Lemma shape_of_Node_inv l sh :
  shape_of (Node l) = Some sh →
  (l = [] ∧ sh = [0]) ∨
  (l ≠ [] ∧ ∃ s, sh = length l :: s ∧ Forall (λ z, shape_of z = Some s) l).
Proof.
  destruct l as [|y l]; simpl.
  - intros [= <-]. by left.
  - destruct (shape_of y) as [s|] eqn:Hy; [|done].
    destruct (forallb _ l) eqn:E; [|done].
    intros [= <-]. right. split; [done|]. exists s. split; [done|].
    constructor; [done|]. by apply forallb_shape.
Qed.

Lemma shape_of_Leaf_inv a : shape_of a = Some [] → ∃ x, a = Leaf x.
Proof.
  destruct a as [x|l]; [eauto|].
  intros H. apply shape_of_Node_inv in H as [[_ [=]]|(_ & s & [=] & _)].
Qed.

Lemma shape_of_cons_inv a d s :
  shape_of a = Some (d :: s) →
  ∃ l, a = Node l ∧ length l = d ∧
       ((l = [] ∧ s = []) ∨ (l ≠ [] ∧ Forall (λ z, shape_of z = Some s) l)).
Proof.
  destruct a as [x|l]; [done|].
  intros H. exists l. split; [done|].
  apply shape_of_Node_inv in H as [[-> [= -> ->]]|(Hne & s' & [= -> ->] & Hall)].
  - split; [done|]. by left.
  - split; [done|]. by right.
Qed.

Lemma shape_of_map_nested f a : shape_of (map_nested f a) = shape_of a.
Proof.
  induction a as [x|l IH] using nested_ind_rows; [done|].
  destruct l as [|y l]; [done|].
  inversion IH as [|? ? Hy Hl]; subst.
  change (map_nested f (Node (y :: l)))
    with (Node (map_nested f y :: map (map_nested f) l)).
  simpl. rewrite Hy. destruct (shape_of y) as [s|]; [|done].
  assert (forallb (λ z, bool_decide (shape_of z = Some s)) (map (map_nested f) l)
          = forallb (λ z, bool_decide (shape_of z = Some s)) l) as ->.
  { clear Hy IH. induction Hl as [|z l Hz Hl IHl]; [done|].
    simpl. by rewrite Hz, IHl. }
  by rewrite length_map.
Qed.

Lemma flatten_map_nested f a : flatten (map_nested f a) = f <$> flatten a.
Proof.
  induction a as [x|l IH] using nested_ind_rows; [done|].
  simpl. induction IH as [|y l Hy Hl IHl]; [done|].
  simpl. by rewrite fmap_app, Hy, IHl.
Qed.

Lemma map2_nested_Node f la lb :
  map2_nested f (Node la) (Node lb) = Node (zip_with (map2_nested f) la lb).
Proof.
  simpl. f_equal.
Qed.

(** The number of elements is fixed by the shape. *)
Lemma length_flatten a s :
  shape_of a = Some s → length (flatten a) = foldr Nat.mul 1 s.
Proof.
  revert s. induction a as [x|l IH] using nested_ind_rows; intros s Hs.
  - by injection Hs as <-.
  - apply shape_of_Node_inv in Hs as [[-> ->]|(_ & s' & -> & Hall)]; [done|].
    simpl. clear -IH Hall.
    induction l as [|y l IHl]; [done|].
    inversion IH; inversion Hall; subst. simpl.
    rewrite length_app. f_equal; [by eauto|]. by apply IHl.
Qed.

(** On two arrays of one shape the element-wise combination keeps the
    shape and combines the elements position by position. *)
Lemma map2_nested_same_shape f a b s :
  shape_of a = Some s → shape_of b = Some s →
  shape_of (map2_nested f a b) = Some s ∧
  flatten (map2_nested f a b) = zip_with f (flatten a) (flatten b).
Proof.
  revert b s. induction a as [x|la IH] using nested_ind_rows; intros b s Ha Hb.
  - injection Ha as <-. apply shape_of_Leaf_inv in Hb as [y ->]. done.
  - apply shape_of_Node_inv in Ha as [[-> ->]|(Hne & s' & -> & Ha)].
    + apply shape_of_cons_inv in Hb as (lb & -> & Hlen & _).
      destruct lb; [done|discriminate].
    + apply shape_of_cons_inv in Hb as (lb & -> & Hlen & [[-> _]|[_ Hb]]).
      { destruct la; [done|discriminate]. }
      rewrite map2_nested_Node.
      assert (Forall (λ z, shape_of z = Some s') (zip_with (map2_nested f) la lb)
              ∧ concat (map flatten (zip_with (map2_nested f) la lb))
                = zip_with f (concat (map flatten la)) (concat (map flatten lb)))
        as [Hsh Hfl].
      { clear Hne. revert lb Hlen Hb.
        induction la as [|x la IHla]; intros [|y lb] Hlen Hb; try done.
        inversion IH as [|? ? Hx IH']; inversion Ha; inversion Hb; subst.
        destruct (Hx y s') as [Hx1 Hx2]; [done..|].
        destruct (IHla IH' ltac:(done) lb) as [H1 H2]; [by simplify_eq/=|done|].
        split; [by constructor|]. simpl.
        rewrite zip_with_app, Hx2, H2; [done|].
        rewrite !(length_flatten _ s'); done. }
      split; [|exact Hfl].
      destruct la as [|x la]; [done|]. destruct lb as [|y lb]; [done|].
      change (zip_with (map2_nested f) (x :: la) (y :: lb))
        with (map2_nested f x y :: zip_with (map2_nested f) la lb) in *.
      rewrite (shape_of_rows _ _ s'); [|exact Hsh].
      simpl in *. rewrite length_zip_with_l_eq; [done|]. by simplify_eq.
Qed.

Lemma broadcast_dim_same d : broadcast_dim d d = Some d.
Proof. unfold broadcast_dim. by rewrite Nat.eqb_refl. Qed.

Lemma broadcast_rev_same s : broadcast_rev s s = Some s.
Proof.
  induction s as [|d s IH]; [done|].
  simpl. by rewrite broadcast_dim_same, IH.
Qed.

Lemma broadcast_shapes_same s : broadcast_shapes s s = Some s.
Proof.
  unfold broadcast_shapes. rewrite broadcast_rev_same. simpl.
  by rewrite reverse_involutive.
Qed.

(** Stretching an array to its own shape changes nothing. *)
Lemma expand_same_shape a s : shape_of a = Some s → expand s a = a.
Proof.
  revert a. induction s as [|d s IH]; intros a Ha; [done|].
  apply shape_of_cons_inv in Ha as (l & -> & Hlen & [[-> ->]|[Hne Hall]]).
  - done.
  - assert (map (expand s) l = l) as Hmap.
    { clear Hlen Hne. induction Hall as [|y l Hy Hl IHl]; [done|].
      simpl. by rewrite IH, IHl. }
    simpl. destruct l as [|y [|z l]]; [done| |by rewrite Hmap].
    simpl in Hlen. subst d. simpl. inversion Hall; subst. by rewrite IH.
Qed.

Lemma tensor_binop_same_shape f a b s :
  shape_of a = Some s → shape_of b = Some s →
  tensor_binop f a b = Some (map2_nested f a b).
Proof.
  intros Ha Hb. unfold tensor_binop. rewrite Ha, Hb. simpl.
  rewrite broadcast_shapes_same. simpl.
  rewrite Nat.sub_diag. simpl. by rewrite !expand_same_shape.
Qed.

(** Shapes that do not broadcast, or ragged data, make the operation raise. *)
Lemma tensor_binop_raises f a b :
  match shape_of a, shape_of b with
  | Some s1, Some s2 => broadcast_shapes s1 s2 = None
  | _, _ => True
  end →
  tensor_binop f a b = None.
Proof.
  unfold tensor_binop.
  destruct (shape_of a) as [s1|]; [|done].
  destruct (shape_of b) as [s2|]; [|done].
  simpl. by intros ->.
Qed.

(** *** Elements by position *)

Lemma map_nested_ext f g a :
  (∀ x, f x = g x) → map_nested f a = map_nested g a.
Proof.
  intros Hfg. induction a as [x|l IH] using nested_ind_rows.
  - simpl. by rewrite Hfg.
  - simpl. f_equal. induction IH as [|y l Hy _ IHl]; [done|].
    simpl. by rewrite Hy, IHl.
Qed.

Lemma map_nested_compose f g a :
  map_nested f (map_nested g a) = map_nested (f ∘ g) a.
Proof.
  induction a as [x|l IH] using nested_ind_rows; [done|].
  simpl. f_equal. induction IH as [|y l Hy _ IHl]; [done|].
  simpl. by rewrite Hy, IHl.
Qed.

Lemma element_at_map_nested f position a :
  element_at position (map_nested f a) = f <$> element_at position a.
Proof.
  revert a. induction position as [|i rest IH]; intros [x|l]; try done.
  simpl. rewrite list_lookup_fmap. destruct (l !! i) as [y|]; [|done].
  simpl. apply IH.
Qed.

Lemma element_at_map2_nested f position a b x y :
  element_at position a = Some x → element_at position b = Some y →
  element_at position (map2_nested f a b) = Some (f x y).
Proof.
  revert a b. induction position as [|i rest IH]; intros [xa|la] [xb|lb];
    try done.
  - simpl. by intros [= ->] [= ->].
  - rewrite map2_nested_Node. simpl. rewrite lookup_zip_with.
    destruct (la !! i) as [a'|]; [|done].
    destruct (lb !! i) as [b'|]; [|done]. simpl. apply IH.
Qed.

(** The positions of an array are those within its shape. *)
Lemma element_at_valid position a s :
  shape_of a = Some s →
  is_Some (element_at position a) ↔ Forall2 lt position s.
Proof.
  revert position s. induction a as [x|l IH] using nested_ind_rows;
    intros position s Hs.
  - injection Hs as <-. destruct position as [|i rest]; simpl.
    + split; [constructor|by eexists].
    + split; [by intros [? [=]]|by inversion 1].
  - apply shape_of_Node_inv in Hs as [[-> ->]|(Hne & s' & -> & Hall)].
    + destruct position as [|i rest]; simpl.
      * split; [by intros [? [=]]|by inversion 1].
      * split; [by intros [? [=]]|].
        inversion 1 as [|? ? ? ? Hlt]; subst. lia.
    + destruct position as [|i rest]; simpl.
      * split; [by intros [? [=]]|by inversion 1].
      * destruct (l !! i) as [y|] eqn:Hy.
        -- rewrite Forall_lookup in IH, Hall.
           rewrite (IH i y Hy rest s' (Hall i y Hy)).
           apply lookup_lt_Some in Hy.
           split; [by constructor|by inversion 1].
        -- apply lookup_ge_None in Hy.
           split; [by intros [? [=]]|].
           inversion 1 as [|? ? ? ? Hlt]; subst. lia.
Qed.

Lemma shape_ok_nil : shape_ok [].
Proof. constructor. Qed.

Lemma shape_ok_cons d s :
  shape_ok (d :: s) ↔ (d = 0 → s = []) ∧ shape_ok s.
Proof.
  unfold shape_ok. rewrite reverse_cons.
  destruct (reverse s) as [|x r] eqn:Hr.
  - apply (f_equal reverse) in Hr. rewrite reverse_involutive in Hr.
    subst s. simpl. split; [by split|constructor].
  - simpl. rewrite Forall_app, Forall_singleton. split.
    + intros [Hr' Hd]. split; [done|done].
    + intros [Hd Hr']. split; [done|]. intros ->.
      rewrite Hd in Hr by done. by rewrite reverse_nil in Hr.
Qed.

Lemma shape_of_ok a s : shape_of a = Some s → shape_ok s.
Proof.
  revert s. induction a as [x|l IH] using nested_ind_rows; intros s Hs.
  - injection Hs as <-. apply shape_ok_nil.
  - apply shape_of_Node_inv in Hs as [[-> ->]|(Hne & s' & -> & Hall)].
    + apply shape_ok_cons. split; [done|apply shape_ok_nil].
    + apply shape_ok_cons. destruct l as [|y l]; [done|]. split; [done|].
      inversion IH; inversion Hall; subst. by eauto.
Qed.

Lemma shape_of_unsqueeze k a sa :
  shape_of a = Some sa →
  shape_of (unsqueeze k a) = Some (replicate k 1 ++ sa)%list.
Proof.
  intros Ha. induction k as [|k IH]; [done|].
  simpl unsqueeze. by rewrite (shape_of_rows _ [] (replicate k 1 ++ sa)%list)
    by (by constructor).
Qed.

Lemma element_at_unsqueeze k position a :
  element_at (replicate k 0 ++ position)%list (unsqueeze k a)
  = element_at position a.
Proof. induction k as [|k IH]; [done|]. simpl. exact IH. Qed.

Lemma shape_of_replicate d (e : nested num) s :
  shape_of e = Some s → (d = 0 → s = []) →
  shape_of (Node (replicate d e)) = Some (d :: s).
Proof.
  intros He Hd. destruct d as [|d]; [by rewrite Hd|].
  change (replicate (S d) e) with (e :: replicate d e).
  rewrite (shape_of_rows _ _ s).
  - simpl. by rewrite length_replicate.
  - constructor; [done|]. by apply Forall_replicate.
Qed.

(** Stretching an array to a shape its own shape stretches to. *)
Lemma shape_of_expand s : ∀ a sa,
  shape_of a = Some sa → Forall2 stretches sa s → shape_ok s →
  shape_of (expand s a) = Some s.
Proof.
  induction s as [|d s IH]; intros a sa Ha Hst Hok.
  - inversion Hst; subst. done.
  - inversion Hst as [|da ? sa' ? Hd Hst']; subst.
    apply shape_ok_cons in Hok as [Hzero Hok].
    apply shape_of_cons_inv in Ha as (l & -> & Hlen & [[-> ->]|[Hne Hall]]).
    + simpl in Hlen. subst da. inversion Hst'; subst.
      destruct Hd as [<-|[=]]. done.
    + assert (Forall (λ z, shape_of (expand s z) = Some s) l) as Hrows.
      { eapply Forall_impl; [exact Hall|]. intros z Hz. simpl in Hz.
        exact (IH z sa' Hz Hst' Hok). }
      destruct l as [|y [|z l]]; [done| |].
      * simpl. inversion Hrows; subst. by apply shape_of_replicate.
      * destruct Hd as [<-|Hone]; [|simpl in Hlen; lia].
        change (expand (da :: s) (Node (y :: z :: l)))
          with (Node (expand s y :: map (expand s) (z :: l))).
        rewrite (shape_of_rows _ _ s).
        -- simpl. rewrite length_map. simpl in Hlen. by rewrite Hlen.
        -- inversion Hrows as [|? ? Hy Hrest]; subst.
           constructor; [done|]. by apply Forall_fmap.
Qed.

Lemma element_at_expand s : ∀ a sa position,
  shape_of a = Some sa → Forall2 stretches sa s → Forall2 lt position s →
  element_at position (expand s a)
  = element_at (zip_with (λ d i, if d =? 1 then 0 else i) sa position) a.
Proof.
  induction s as [|d s IH]; intros a sa position Ha Hst Hpos.
  - inversion Hst; inversion Hpos; subst. done.
  - inversion Hst as [|da ? sa' ? Hd Hst']; subst.
    inversion Hpos as [|i ? rest ? Hi Hrest]; subst.
    apply shape_of_cons_inv in Ha as (l & -> & Hlen & [[-> ->]|[Hne Hall]]).
    + simpl in Hlen. subst da. destruct Hd as [<-|[=]]. lia.
    + rewrite Forall_lookup in Hall.
      destruct l as [|y [|z l]]; [done| |].
      * simpl in Hlen. subst da. simpl. rewrite lookup_replicate_2 by done.
        apply IH; [by apply (Hall 0)|done|done].
      * destruct Hd as [<-|Hone]; [|simpl in Hlen; lia].
        change (expand (da :: s) (Node (y :: z :: l)))
          with (Node (map (expand s) (y :: z :: l))).
        simpl in Hlen. subst da.
        cbn [zip_with length Nat.eqb].
        cbn [element_at]. rewrite list_lookup_fmap.
        destruct ((y :: z :: l) !! i) as [e|] eqn:He; [|done].
        simpl. apply IH; [by apply (Hall i)|done|done].
Qed.

Lemma broadcast_dim_Some d1 d2 d :
  broadcast_dim d1 d2 = Some d →
  stretches d1 d ∧ stretches d2 d ∧ (d1 ≠ 0 → d2 ≠ 0 → d ≠ 0).
Proof.
  unfold broadcast_dim, stretches.
  destruct (d1 =? d2) eqn:E12; [apply Nat.eqb_eq in E12|].
  { intros [= <-]. subst d2. by auto. }
  destruct (d1 =? 1) eqn:E1; [apply Nat.eqb_eq in E1|].
  { intros [= <-]. by auto. }
  destruct (d2 =? 1) eqn:E2; [apply Nat.eqb_eq in E2|done].
  intros [= <-]. by auto.
Qed.

Lemma broadcast_rev_nonzero r1 : ∀ r2 r,
  broadcast_rev r1 r2 = Some r →
  Forall (λ d, d ≠ 0) r1 → Forall (λ d, d ≠ 0) r2 → Forall (λ d, d ≠ 0) r.
Proof.
  induction r1 as [|d1 t1 IH]; intros [|d2 t2] r; simpl;
    try (by intros [= <-]).
  destruct (broadcast_dim d1 d2) as [d|] eqn:Hd; [|done].
  destruct (broadcast_rev t1 t2) as [t|] eqn:Ht; [|done].
  intros [= <-] H1 H2. inversion H1; inversion H2; subst.
  apply broadcast_dim_Some in Hd as (_ & _ & Hnz).
  constructor; [by apply Hnz|]. by eapply IH.
Qed.

Lemma stretches_ones n (r : list nat) :
  length r = n → Forall2 stretches (replicate n 1) r.
Proof.
  intros <-. induction r as [|d r IH]; constructor; [by right|done].
Qed.

Lemma stretches_refl (r : list nat) : Forall2 stretches r r.
Proof. induction r; constructor; [by left|done]. Qed.

Lemma broadcast_rev_spec r1 : ∀ r2 r,
  broadcast_rev r1 r2 = Some r →
  Forall2 stretches (r1 ++ replicate (length r - length r1) 1)%list r ∧
  Forall2 stretches (r2 ++ replicate (length r - length r2) 1)%list r ∧
  (Forall (λ d, d ≠ 0) (tail r1) → Forall (λ d, d ≠ 0) (tail r2) →
   Forall (λ d, d ≠ 0) (tail r)).
Proof.
  induction r1 as [|d1 t1 IH]; intros [|d2 t2] r; simpl.
  - intros [= <-]. repeat split; by try constructor.
  - intros [= <-]. simpl. rewrite Nat.sub_diag. simpl. rewrite app_nil_r.
    split; [|split; [apply stretches_refl|done]].
    constructor; [by right|]. by apply stretches_ones.
  - intros [= <-]. simpl. rewrite Nat.sub_diag. simpl. rewrite app_nil_r.
    split; [apply stretches_refl|split; [|done]].
    constructor; [by right|]. by apply stretches_ones.
  - destruct (broadcast_dim d1 d2) as [d|] eqn:Hd; [|done].
    destruct (broadcast_rev t1 t2) as [t|] eqn:Ht; [|done].
    intros [= <-]. simpl.
    destruct (IH _ _ Ht) as (H1 & H2 & _).
    apply broadcast_dim_Some in Hd as (Hd1 & Hd2 & _).
    split; [by constructor|]. split; [by constructor|].
    intros Ht1 Ht2. by eapply broadcast_rev_nonzero.
Qed.

Lemma broadcast_shapes_spec s1 s2 s :
  broadcast_shapes s1 s2 = Some s →
  Forall2 stretches (replicate (length s - length s1) 1 ++ s1)%list s ∧
  Forall2 stretches (replicate (length s - length s2) 1 ++ s2)%list s ∧
  (shape_ok s1 → shape_ok s2 → shape_ok s).
Proof.
  unfold broadcast_shapes, shape_ok.
  destruct (broadcast_rev (reverse s1) (reverse s2)) as [r|] eqn:Hr; [|done].
  simpl. intros [= <-].
  destruct (broadcast_rev_spec _ _ _ Hr) as (H1 & H2 & Hok).
  rewrite !length_reverse in *. rewrite reverse_involutive.
  split; [|split; [|done]].
  - apply Forall2_reverse in H1.
    by rewrite reverse_app, reverse_replicate, reverse_involutive in H1.
  - apply Forall2_reverse in H2.
    by rewrite reverse_app, reverse_replicate, reverse_involutive in H2.
Qed.

Lemma broadcast_position_padded k s1 position :
  length position = k + length s1 →
  zip_with (λ d i, if d =? 1 then 0 else i) (replicate k 1 ++ s1)%list position
  = (replicate k 0 ++ broadcast_position s1 position)%list.
Proof.
  intros Hlen. unfold broadcast_position.
  replace (length position - length s1) with k by lia.
  rewrite <- (take_drop k position) at 1.
  rewrite zip_with_app by (rewrite length_replicate, length_take; lia).
  f_equal.
  assert (length (take k position) = k) as Htake by (rewrite length_take; lia).
  revert Htake. generalize (take k position). clear.
  induction k as [|k IH]; intros [|i l]; simpl; try done.
  intros [= Hl]. by rewrite IH.
Qed.


(** A binary tensor operation, element by element: the operands must
    have shapes that broadcast, the result has the broadcast shape, and
    its element at a position combines the elements of the two operands
    at the positions broadcasting assigns to it. *)
Lemma tensor_binop_spec f a b t :
  tensor_binop f a b = Some t →
  ∃ s1 s2 s,
    shape_of a = Some s1 ∧ shape_of b = Some s2 ∧
    broadcast_shapes s1 s2 = Some s ∧ shape_of t = Some s ∧
    ∀ position, Forall2 lt position s →
      ∃ x y, element_at (broadcast_position s1 position) a = Some x ∧
             element_at (broadcast_position s2 position) b = Some y ∧
             element_at position t = Some (f x y).
Proof.
  unfold tensor_binop.
  destruct (shape_of a) as [s1|] eqn:Ha; [|done].
  destruct (shape_of b) as [s2|] eqn:Hb; [|done]. simpl.
  destruct (broadcast_shapes s1 s2) as [s|] eqn:Hs; [|done]. simpl.
  intros [= <-]. exists s1, s2, s.
  destruct (broadcast_shapes_spec _ _ _ Hs) as (H1 & H2 & Hok).
  specialize (Hok (shape_of_ok _ _ Ha) (shape_of_ok _ _ Hb)).
  pose proof (shape_of_unsqueeze (length s - length s1) a s1 Ha) as Hua.
  pose proof (shape_of_unsqueeze (length s - length s2) b s2 Hb) as Hub.
  pose proof (shape_of_expand s _ _ Hua H1 Hok) as HA.
  pose proof (shape_of_expand s _ _ Hub H2 Hok) as HB.
  split; [done|]. split; [done|]. split; [done|].
  split; [by apply map2_nested_same_shape|].
  intros position Hpos.
  pose proof (Forall2_length _ _ _ Hpos) as Hlen.
  pose proof (Forall2_length _ _ _ H1) as Hlen1.
  pose proof (Forall2_length _ _ _ H2) as Hlen2.
  rewrite length_app, length_replicate in Hlen1, Hlen2.
  destruct (proj2 (element_at_valid position _ s HA) Hpos) as [x Hx].
  destruct (proj2 (element_at_valid position _ s HB) Hpos) as [y Hy].
  exists x, y.
  split; [|split; [|by apply element_at_map2_nested]].
  - rewrite (element_at_expand s _ _ _ Hua H1 Hpos) in Hx.
    rewrite broadcast_position_padded in Hx by lia.
    by rewrite element_at_unsqueeze in Hx.
  - rewrite (element_at_expand s _ _ _ Hub H2 Hpos) in Hy.
    rewrite broadcast_position_padded in Hy by lia.
    by rewrite element_at_unsqueeze in Hy.
Qed.

Lemma tensor_binop_is_Some f a b s1 s2 s :
  shape_of a = Some s1 → shape_of b = Some s2 →
  broadcast_shapes s1 s2 = Some s → is_Some (tensor_binop f a b).
Proof.
  intros Ha Hb Hs. unfold tensor_binop. rewrite Ha, Hb. simpl.
  rewrite Hs. simpl. by eexists.
Qed.
End TensorFacts.

(** ** Blending *)

Section BlendFacts.
Context {num : Type} `{!Arith num}.
Implicit Types (model update cur : gmap string (nested num)) (w : num).

Lemma tensor_shape_Some (a : nested num) s :
  tensor_shape a = Some s ↔ num_fits (flatten a) = true ∧ shape_of a = Some s.
Proof. unfold tensor_shape. destruct (num_fits _); intuition congruence. Qed.

Lemma tensor_shape_shape (a : nested num) s :
  tensor_shape a = Some s → shape_of a = Some s.
Proof. by intros [_ ?]%tensor_shape_Some. Qed.

Lemma num_f32_f32 (x : num) : num_f32 (num_f32 x) = num_f32 x.
Proof.
  transitivity (num_f32 (num_tensor [] (num_f32 x)));
    [by rewrite num_tensor_f32|].
  by rewrite num_f32_tensor, num_tensor_f32.
Qed.

Lemma f32_values_fit (f : num → num) (l : list num) :
  (∀ x, num_f32 (f x) = f x) → num_fits (f <$> l) = true.
Proof.
  intros Hf. replace (f <$> l) with (num_f32 <$> (f <$> l));
    [apply num_fits_f32|].
  rewrite <- list_fmap_compose. apply list_fmap_ext. intros i x _. simpl.
  apply Hf.
Qed.

(** An array of float32 values is a tensor as it is: [torch.tensor]
    takes it and gives it back unchanged. *)
Lemma tensor_values_stable (f : num → num) (a : nested num) s :
  (∀ x, num_f32 (f x) = f x) → shape_of a = Some s →
  shape_of (map_nested f a) = Some s ∧
  tensor_shape (map_nested f a) = Some s ∧
  torch_tensor (map_nested f a) = Some (map_nested f a).
Proof.
  intros Hf Ha.
  assert (shape_of (map_nested f a) = Some s) as Hs
    by (by rewrite shape_of_map_nested).
  assert (tensor_shape (map_nested f a) = Some s) as Hts.
  { apply tensor_shape_Some. split; [|done].
    rewrite flatten_map_nested. by apply f32_values_fit. }
  split; [done|]. split; [done|].
  unfold torch_tensor. rewrite Hts. f_equal.
  rewrite map_nested_compose. apply map_nested_ext. intros x. simpl.
  rewrite <- (Hf x). apply num_tensor_f32.
Qed.

Lemma torch_tensor_Some (a t : nested num) :
  torch_tensor a = Some t →
  ∃ s, tensor_shape a = Some s ∧
       t = map_nested (num_tensor (flatten a)) a ∧
       shape_of t = Some s ∧ tensor_shape t = Some s ∧
       torch_tensor t = Some t.
Proof.
  unfold torch_tensor at 1.
  destruct (tensor_shape a) as [s|] eqn:Hs; [|done].
  intros [= <-]. exists s. split; [done|]. split; [done|].
  apply tensor_values_stable;
    [intros x; apply num_f32_tensor|by apply tensor_shape_shape].
Qed.

Lemma torch_tensor_is_Some (a : nested num) :
  is_Some (torch_tensor a) ↔ is_Some (tensor_shape a).
Proof.
  unfold torch_tensor. destruct (tensor_shape a) as [s|].
  - split; intros _; by eexists.
  - split; intros [? [=]].
Qed.

(** The blend of one parameter, element by element. *)
Lemma new_values_Some w (g u v : nested num) :
  new_values w g u = Some v →
  ∃ g' u' s su sb,
    torch_tensor g = Some g' ∧ torch_tensor u = Some u' ∧
    tensor_shape g = Some s ∧ tensor_shape u = Some su ∧
    broadcast_shapes s su = Some sb ∧
    shape_of v = Some sb ∧ tensor_shape v = Some sb ∧
    torch_tensor v = Some v ∧
    ∀ position, Forall2 lt position sb →
      ∃ x y, element_at (broadcast_position s position) g' = Some x ∧
             element_at (broadcast_position su position) u' = Some y ∧
             element_at position v = Some (blend_element w x y).
Proof.
  unfold new_values.
  destruct (torch_tensor g) as [g'|] eqn:Hg; [|done].
  destruct (torch_tensor u) as [u'|] eqn:Hu; [|done]. simpl.
  destruct (tensor_binop _ _ _) as [t|] eqn:Ht; [|done]. simpl.
  intros [= <-].
  destruct (torch_tensor_Some _ _ Hg) as (s & Hgs & _ & Hg's & _).
  destruct (torch_tensor_Some _ _ Hu) as (su & Hus & _ & Hu's & _).
  destruct (tensor_binop_spec _ _ _ _ Ht)
    as (s1 & s2 & sb & H1 & H2 & Hsb & Hts & Hel).
  rewrite shape_of_map_nested, Hg's in H1. injection H1 as <-.
  rewrite shape_of_map_nested, Hu's in H2. injection H2 as <-.
  destruct (tensor_values_stable num_f32 t sb num_f32_f32 Hts)
    as (Hv1 & Hv2 & Hv3).
  exists g', u', s, su, sb.
  split; [done|]. split; [done|]. split; [done|]. split; [done|].
  split; [done|]. split; [done|]. split; [done|]. split; [done|].
  intros position Hpos.
  destruct (Hel position Hpos) as (x & y & Hx & Hy & Hxy).
  rewrite element_at_map_nested in Hx, Hy.
  destruct (element_at _ g') as [x0|] eqn:Hx0; [|done].
  destruct (element_at _ u') as [y0|] eqn:Hy0; [|done].
  simpl in Hx, Hy. injection Hx as <-. injection Hy as <-.
  exists x0, y0. split; [done|]. split; [done|].
  by rewrite element_at_map_nested, Hxy.
Qed.

Lemma new_values_is_Some w (g u : nested num) s su sb :
  tensor_shape g = Some s → tensor_shape u = Some su →
  broadcast_shapes s su = Some sb → is_Some (new_values w g u).
Proof.
  intros Hg Hu Hsb. unfold new_values, torch_tensor. rewrite Hg, Hu. simpl.
  destruct (tensor_binop_is_Some num_add
              (map_nested (num_mul (num_sub num_one w))
                 (map_nested (num_tensor (flatten g)) g))
              (map_nested (num_mul w) (map_nested (num_tensor (flatten u)) u))
              s su sb) as [t Ht];
    [rewrite !shape_of_map_nested; by apply tensor_shape_shape..|done|].
  rewrite Ht. by eexists.
Qed.

Lemma new_values_raises w (g u : nested num) :
  broadcastable g u = false → new_values w g u = None.
Proof.
  intros Hbc. destruct (new_values w g u) as [v|] eqn:Hv; [|done].
  destruct (new_values_Some _ _ _ _ Hv)
    as (g' & u' & s & su & sb & _ & _ & Hg & Hu & Hsb & _).
  unfold broadcastable in Hbc.
  rewrite (tensor_shape_shape _ _ Hg), (tensor_shape_shape _ _ Hu) in Hbc.
  apply bool_decide_eq_false in Hbc. destruct Hbc. by eexists.
Qed.

Lemma blend_loop_spec w model update :
  (blend_fails w model update ∧
     map_fold (blend_item w) (Some model) update = None) ∨
  (¬ blend_fails w model update ∧
     ∃ cur, map_fold (blend_item w) (Some model) update = Some cur ∧
            ∀ k, cur !! k = blended w model update k).
Proof.
  apply (map_fold_weak_ind
           (λ acc m, (blend_fails w model m ∧ acc = None) ∨
                     (¬ blend_fails w model m ∧
                      ∃ cur, acc = Some cur ∧ ∀ k, cur !! k = blended w model m k))).
  - right. split.
    + intros (k & u & g & Hk & _). by rewrite lookup_empty in Hk.
    + exists model. split; [done|]. intros k. unfold blended.
      rewrite lookup_empty. by destruct (model !! k).
  - intros i x m r Hi [[Hfail ->]|[Hok (cur & -> & Hcur)]].
    + left. split; [|done].
      destruct Hfail as (k & u & g & Hk & Hg & Hnv).
      exists k, u, g. split; [|done].
      rewrite lookup_insert_ne; [done|]. intros ->. congruence.
    + simpl. pose proof (Hcur i) as Hcuri. unfold blended in Hcuri.
      rewrite Hi in Hcuri.
      destruct (model !! i) as [g|] eqn:Hg; simpl in Hcuri; rewrite Hcuri.
      * destruct (new_values w g x) as [v|] eqn:Hnv; simpl.
        -- right. split.
           ++ intros (k & u & g' & Hk & Hg' & Hnv').
              destruct (decide (k = i)) as [->|Hne].
              ** rewrite lookup_insert_eq in Hk. simplify_eq.
              ** rewrite lookup_insert_ne in Hk by done.
                 apply Hok. by exists k, u, g'.
           ++ exists (<[i:=v]> cur). split; [done|]. intros k.
              unfold blended. destruct (decide (k = i)) as [->|Hne].
              ** rewrite !lookup_insert_eq, Hg. done.
              ** rewrite !lookup_insert_ne by done. apply Hcur.
        -- left. split; [|done]. exists i, x, g.
           by rewrite lookup_insert_eq.
      * right. split.
        -- intros (k & u & g' & Hk & Hg' & Hnv').
           destruct (decide (k = i)) as [->|Hne]; [congruence|].
           rewrite lookup_insert_ne in Hk by done.
           apply Hok. by exists k, u, g'.
        -- exists cur. split; [done|]. intros k. unfold blended.
           destruct (decide (k = i)) as [->|Hne].
           ++ by rewrite Hcuri, Hg.
           ++ rewrite lookup_insert_ne by done. apply Hcur.
Qed.

(** The dictionary of tensors [set_parameters] builds holds the tensor of
    every entry, unless [torch.tensor] raises on one of them. *)
Lemma state_dict_spec (parameters : gmap string (nested num)) :
  let acc := map_fold (λ name param_data acc,
                         state_dict ← acc;
                         t ← torch_tensor param_data;
                         Some (<[name := t]> state_dict))
                      (Some ∅) parameters in
  (acc = None ∧ ¬ store_wf parameters) ∨
  (acc = Some (omap torch_tensor parameters) ∧ store_wf parameters).
Proof.
  apply (map_fold_weak_ind
           (λ acc m, (acc = None ∧ ¬ store_wf m) ∨
                     (acc = Some (omap torch_tensor m) ∧ store_wf m))).
  - right. split; [by rewrite omap_empty|]. apply map_Forall_empty.
  - intros i x m r Hi [[-> Hbad]|[-> Hwf]].
    + left. split; [done|]. intros Hwf. apply Hbad.
      by apply map_Forall_insert in Hwf as [_ ?].
    + simpl. destruct (torch_tensor x) as [t|] eqn:Hx; simpl.
      * right. split; [by rewrite (omap_insert_Some _ _ _ _ t)|].
        apply map_Forall_insert; [done|]. split; [|done].
        apply torch_tensor_is_Some. by eexists.
      * left. split; [done|]. intros Hwf'.
        apply map_Forall_insert in Hwf' as [Hx' _]; [|done].
        apply torch_tensor_is_Some in Hx' as [? ?]. congruence.
Qed.

Lemma load_state_dict_lookup (state_dict model : gmap string (nested num)) k :
  (load_state_dict state_dict model).2 !! k
  = model !! k ≫= load_param state_dict k.
Proof.
  unfold load_state_dict. case_bool_decide; simpl; apply map_lookup_imap.
Qed.

Lemma load_state_dict_Ok (state_dict model : gmap string (nested num)) :
  (load_state_dict state_dict model).1 = Ok
  ↔ map_Forall (λ name param, size_mismatch state_dict name param = false) model.
Proof.
  unfold load_state_dict. case_bool_decide; simpl; split; done.
Qed.

(** The three ways [aggregate_parameters] can end. *)
Lemma aggregate_parameters_cases update w model :
  (aggregate_parameters update w model = (Raised, model) ∧
     blend_fails w model update) ∨
  (∃ cur, (∀ k, cur !! k = blended w model update k) ∧
          ¬ blend_fails w model update ∧
          ((aggregate_parameters update w model = (Raised, model) ∧ ¬ store_wf cur) ∨
           (aggregate_parameters update w model
            = load_state_dict (omap torch_tensor cur) model
            ∧ store_wf cur))).
Proof.
  unfold aggregate_parameters, get_trainable_parameters.
  destruct (blend_loop_spec w model update)
    as [[Hfail ->]|[Hok (cur & -> & Hcur)]]; [by left|].
  right. exists cur. split; [done|]. split; [done|].
  unfold set_parameters.
  destruct (state_dict_spec cur) as [[-> Hbad]|[-> Hwf]]; [by left|by right].
Qed.
End BlendFacts.

Section BlendTheorems.
Context {num : Type} `{!Arith num}.
Implicit Types (model update cur : gmap string (nested num)) (w : num).

Lemma blended_absent w model update k :
  update !! k = None → blended w model update k = model !! k.
Proof. intros Hk. unfold blended. rewrite Hk. by destruct (model !! k). Qed.

(** What the loop leaves under a stored name when no blend fails: the
    stored value, or its blend with the submitted one. *)
Lemma blended_Some w model update k g :
  ¬ blend_fails w model update → model !! k = Some g →
  ∃ c, blended w model update k = Some c ∧
       ((update !! k = None ∧ c = g) ∨
        (∃ u, update !! k = Some u ∧ new_values w g u = Some c)).
Proof.
  intros Hok Hg. unfold blended. rewrite Hg. simpl.
  destruct (update !! k) as [u|] eqn:Hu.
  - destruct (new_values w g u) as [c|] eqn:Hc.
    + exists c. split; [done|]. right. by exists u.
    + exfalso. apply Hok. by exists k, u, g.
  - exists g. split; [done|]. by left.
Qed.

Lemma fits_stored_Some (g u : nested num) :
  fits_stored g u = true ↔
  ∃ s su, tensor_shape g = Some s ∧ tensor_shape u = Some su ∧
          broadcast_shapes s su = Some s.
Proof.
  unfold fits_stored.
  destruct (tensor_shape g) as [s|]; [|by split; [|intros (? & ? & [=] & _)]].
  destruct (tensor_shape u) as [su|];
    [|by split; [|intros (? & ? & _ & [=] & _)]].
  rewrite bool_decide_eq_true. split.
  - intros Hs. by exists s, su.
  - by intros (? & ? & [= <-] & [= <-] & ?).
Qed.

Lemma blends_in_place_shapes update model k (g u : nested num) :
  blends_in_place update model → model !! k = Some g → update !! k = Some u →
  ∃ s su, tensor_shape g = Some s ∧ tensor_shape u = Some su ∧
          broadcast_shapes s su = Some s.
Proof. intros Hfit Hg Hu. apply fits_stored_Some. by apply (Hfit k). Qed.

(** The set of parameter names is the same after the call. *)
Lemma aggregate_parameters_dom update w model :
  dom (aggregate_parameters update w model).2 = dom model.
Proof.
  destruct (aggregate_parameters_cases update w model)
    as [[-> _]|(cur & Hcur & _ & [[-> _]|[-> _]])]; [done..|].
  apply set_eq. intros k. rewrite !elem_of_dom, load_state_dict_lookup.
  destruct (model !! k) as [g|]; simpl; [|done].
  unfold load_param.
  destruct (omap torch_tensor cur !! k); [destruct (size_mismatch _ _ _)|]; done.
Qed.

(** When the call returns normally, torch takes every stored parameter
    and every submitted value for a stored name blends into the stored
    shape; and the other way round. *)
Lemma aggregate_parameters_Ok_iff update w model :
  (aggregate_parameters update w model).1 = Ok
  ↔ store_wf model ∧ blends_in_place update model.
Proof.
  assert (store_wf model → blends_in_place update model →
          ¬ blend_fails w model update) as Hnofail.
  { intros Hwf Hfit (k & u & g & Hu & Hg & Hnv).
    destruct (blends_in_place_shapes _ _ _ _ _ Hfit Hg Hu)
      as (s & su & Hs & Hsu & Hb).
    destruct (new_values_is_Some w g u s su s) as [v Hv]; [done..|].
    congruence. }
  destruct (aggregate_parameters_cases update w model)
    as [[E Hfail]|(cur & Hcur & Hok & [[E Hbad]|[E Hwfc]])]; rewrite E.
  - split; [done|]. intros [Hwf Hfit]. by destruct (Hnofail Hwf Hfit).
  - split; [done|]. intros [Hwf Hfit]. exfalso. apply Hbad.
    intros k c Hc. rewrite Hcur in Hc.
    destruct (model !! k) as [g|] eqn:Hg;
      [|by unfold blended in Hc; rewrite Hg in Hc].
    destruct (blended_Some w model update k g Hok Hg)
      as (c' & Hc' & [[_ ->]|(u & Hu & Hnv)]); rewrite Hc' in Hc;
      injection Hc as <-.
    + by apply (Hwf k).
    + destruct (new_values_Some _ _ _ _ Hnv)
        as (_ & _ & _ & _ & sb & _ & _ & _ & _ & _ & _ & Hts & _).
      by eexists.
  - rewrite load_state_dict_Ok. split.
    + intros Hload. split.
      * intros k g Hg.
        destruct (blended_Some w model update k g Hok Hg)
          as (c & Hc & [[_ ->]|(u & Hu & Hnv)]).
        -- apply (Hwfc k). by rewrite Hcur.
        -- destruct (new_values_Some _ _ _ _ Hnv)
             as (_ & _ & s & _ & _ & _ & _ & Hgs & _). by eexists.
      * intros k g u Hg Hu.
        destruct (blended_Some w model update k g Hok Hg)
          as (c & Hc & [[Hnone _]|(u' & Hu' & Hnv)]); [congruence|].
        assert (u' = u) as -> by congruence.
        destruct (new_values_Some _ _ _ _ Hnv)
          as (g' & u'' & s & su & sb & _ & _ & Hgs & Hus & Hsb & Hvs & _
              & Hstable & _).
        apply fits_stored_Some. exists s, su. split; [done|]. split; [done|].
        pose proof (Hload k g Hg) as Hfit. unfold size_mismatch in Hfit.
        rewrite lookup_omap, Hcur, Hc in Hfit. simpl in Hfit.
        rewrite Hstable in Hfit. apply bool_decide_eq_false in Hfit.
        apply dec_stable in Hfit.
        rewrite Hvs, (tensor_shape_shape _ _ Hgs) in Hfit. congruence.
    + intros [Hwf Hfit] k g Hg. unfold size_mismatch.
      rewrite lookup_omap, Hcur.
      destruct (blended_Some w model update k g Hok Hg)
        as (c & Hc & [[_ ->]|(u & Hu & Hnv)]); rewrite Hc; simpl.
      * destruct (Hwf k g Hg) as [s Hs].
        destruct (proj2 (torch_tensor_is_Some g)) as [t Ht]; [by eexists|].
        rewrite Ht. destruct (torch_tensor_Some _ _ Ht) as (s' & Hs' & _ & Hts & _).
        apply bool_decide_eq_false_2. intros Hne. apply Hne.
        by rewrite Hts, (tensor_shape_shape _ _ Hs').
      * destruct (new_values_Some _ _ _ _ Hnv)
          as (g' & u' & s & su & sb & _ & _ & Hgs & Hus & Hsb & Hvs & _
              & Hstable & _).
        rewrite Hstable.
        destruct (blends_in_place_shapes _ _ _ _ _ Hfit Hg Hu)
          as (s0 & su0 & Hs0 & Hsu0 & Hb).
        apply bool_decide_eq_false_2. intros Hne. apply Hne.
        rewrite Hvs, (tensor_shape_shape _ _ Hgs). congruence.
Qed.

Lemma well_shaped_blends_in_place update model :
  store_wf model → well_shaped update model → blends_in_place update model.
Proof.
  intros Hwf Hws k g u Hg Hu. apply fits_stored_Some.
  destruct (Hwf k g Hg) as [s Hs].
  pose proof (Hws k u Hu) as Hsame. unfold same_shape_as in Hsame.
  rewrite Hg in Hsame. apply bool_decide_eq_true in Hsame.
  exists s, s. split; [done|]. split; [congruence|].
  apply broadcast_shapes_same.
Qed.

Lemma aggregate_parameters_Ok update rate (model : gmap string (nested num)) :
  store_wf model → well_shaped update model →
  (aggregate_parameters update rate model).1 = Ok.
Proof.
  intros Hwf Hws. apply aggregate_parameters_Ok_iff.
  split; [done|]. by apply well_shaped_blends_in_place.
Qed.

(** What a call leaves under a stored name: the stored value, or the
    tensor read from what the loop left there. *)
Lemma aggregate_parameters_lookup update w model k g :
  model !! k = Some g →
  (aggregate_parameters update w model).2 !! k = Some g ∨
  ∃ c t, (update !! k = None → c = g) ∧ torch_tensor c = Some t ∧
         (aggregate_parameters update w model).2 !! k = Some t ∧
         shape_of t = shape_of g.
Proof.
  intros Hg.
  destruct (aggregate_parameters_cases update w model)
    as [[-> _]|(cur & Hcur & Hok & [[-> _]|[-> Hwfc]])]; [by left..|].
  rewrite load_state_dict_lookup, Hg. simpl.
  unfold load_param, size_mismatch. rewrite lookup_omap, Hcur.
  destruct (blended_Some w model update k g Hok Hg) as (c & Hc & Hcase).
  rewrite Hc. simpl.
  destruct (torch_tensor c) as [t|] eqn:Ht; [|by left].
  case_bool_decide as Hshape; [by left|].
  right. exists c, t. split.
  - intros Hnone. destruct Hcase as [[_ ->]|(u & Hu & _)]; [done|congruence].
  - done.
Qed.

(** A model of tensors stays one, and the names the update does not
    mention keep their value, whatever the outcome of the call. *)
Lemma aggregate_parameters_tensor_store update w model :
  tensor_store model →
  tensor_store (aggregate_parameters update w model).2 ∧
  ∀ k, update !! k = None →
       (aggregate_parameters update w model).2 !! k = model !! k.
Proof.
  intros Hts. split.
  - intros k v Hv.
    destruct (model !! k) as [g|] eqn:Hg.
    + destruct (aggregate_parameters_lookup update w model k g Hg)
        as [Hsame|(c & t & _ & Ht & Hk & _)].
      * rewrite Hsame in Hv. injection Hv as <-. by apply (Hts k).
      * rewrite Hk in Hv. injection Hv as <-.
        by destruct (torch_tensor_Some _ _ Ht) as (_ & _ & _ & _ & _ & ?).
    + apply not_elem_of_dom in Hg.
      rewrite <- (aggregate_parameters_dom update w model) in Hg.
      apply not_elem_of_dom in Hg. congruence.
  - intros k Hk. destruct (model !! k) as [g|] eqn:Hg.
    + destruct (aggregate_parameters_lookup update w model k g Hg)
        as [Hsame|(c & t & Hc & Ht & Hk' & _)]; [done|].
      rewrite Hk'. rewrite (Hc Hk) in Ht. by rewrite (Hts k g Hg) in Ht.
    + apply not_elem_of_dom. rewrite aggregate_parameters_dom.
      by apply not_elem_of_dom.
Qed.




(** C5, amended. When the value submitted for a stored parameter is
    ragged or has a shape that does not broadcast against the stored
    shape, the blend raises before anything is written: the model is
    exactly what it was. *)
Theorem aggregate_parameters_incompatible_shape update w model k g u :
  model !! k = Some g → update !! k = Some u →
  broadcastable g u = false →
  aggregate_parameters update w model = (Raised, model).
Proof.
  intros Hg Hu Hbc.
  assert (blend_fails w model update) as Hfail.
  { exists k, u, g. split; [done|]. split; [done|]. by apply new_values_raises. }
  destruct (aggregate_parameters_cases update w model)
    as [[E _]|(cur & _ & Hok & _)]; [done|]. by destruct Hok.
Qed.
End BlendTheorems.

(** ** Worked blends *)

Lemma small_model_wf : store_wf small_model.
Proof. apply (bool_decide_unpack _). vm_compute. exact I. Defined.





Lemma aggregate_parameters_incompatible_shape_witness :
  small_model !! "output_layer.bias" = Some (vec [1; 2; 3]%Q) ∧
  wrong_update !! "output_layer.bias" = Some (vec [5; 6]%Q) ∧
  broadcastable (vec [1; 2; 3]%Q) (vec [5; 6]%Q) = false ∧
  aggregate_parameters wrong_update num_tenth small_model = (Raised, small_model).
Proof.
  split; [reflexivity|]. split; [reflexivity|]. split; [reflexivity|].
  apply (aggregate_parameters_incompatible_shape wrong_update num_tenth
           small_model "output_layer.bias" (vec [1; 2; 3]%Q) (vec [5; 6]%Q));
    reflexivity.
Defined.

(** C5 as stated fails: a bias of shape [1] differs in shape from the
    stored bias of shape [3], yet the blend returns normally and the stored
    bias has moved, the single value being used for every element. *)
Lemma aggregate_parameters_broadcasts_other_shape :
  small_model !! "output_layer.bias" = Some (vec [1; 2; 3]%Q) ∧
  short_update !! "output_layer.bias" = Some (vec [5]%Q) ∧
  shape_of (vec [1; 2; 3]%Q) = Some [3] ∧
  shape_of (vec [5]%Q) = Some [1] ∧
  aggregate_parameters short_update num_tenth small_model
  = (Ok, <["output_layer.bias" := vec [(7 # 5)%Q; (23 # 10)%Q; (16 # 5)%Q]]>
           small_model).
Proof. repeat split; vm_compute; reflexivity. Qed.

(** ** The ledger *)

Section LedgerFacts.
Context {num : Type} `{!Arith num}.
Implicit Types (d : HydraDatabase num) (st : CoordinatorServer num).

Lemma truthy_str_Some (s : string) : truthy_str (Some s) = true ↔ s ≠ EmptyString.
Proof.
  simpl. rewrite negb_true_iff. split.
  - intros H ->. by rewrite String.eqb_refl in H.
  - intros H. by apply String.eqb_neq.
Qed.

Lemma truthy_str_default (v : option string) :
  truthy_str v = true → v = Some (default EmptyString v) ∧ default EmptyString v ≠ EmptyString.
Proof.
  destruct v as [s|]; [|done]. intros H. split; [done|].
  by apply truthy_str_Some.
Qed.

Lemma with_db_id st : with_db (db st) st = st.
Proof. by destruct st. Qed.

Lemma apply_log_app uid start (l1 l2 : list (transaction_row num)) :
  apply_log uid start (l1 ++ l2) = apply_log uid (apply_log uid start l1) l2.
Proof. unfold apply_log. by rewrite foldl_app. Qed.

Lemma apply_log_foreign uid start (l : list (transaction_row num)) :
  Forall (λ t, tx_user_id t ≠ uid) l → apply_log uid start l = start.
Proof.
  intros H. revert start. induction H as [|t l Ht _ IH]; intros start; [done|].
  unfold apply_log in *. simpl. rewrite bool_decide_eq_false_2 by done.
  apply IH.
Qed.

(** A request that leaves accounts and log alone. *)
Lemma ledger_step_same d d' :
  users d' = users d → transactions d' = transactions d → ledger_step d d'.
Proof.
  intros Hu Ht. exists []. rewrite Hu, Ht, app_nil_r.
  split; [done|]. split; [simpl; lia|].
  split; [intros t Hin; by apply elem_of_nil in Hin|].
  split; [intros uid u Hl; by exists u|].
  intros uid u' H1 H2. congruence.
Qed.

Lemma ledger_step_create_user uid now d :
  uid ≠ EmptyString → ledger_step d (create_user uid now d).2.
Proof.
  intros Hne. unfold create_user.
  destruct (users d !! uid) as [u0|] eqn:Hu; [by apply ledger_step_same|].
  exists []. simpl. rewrite app_nil_r.
  split; [done|]. split; [lia|].
  split; [intros t Hin; by apply elem_of_nil in Hin|].
  split.
  - intros uid' u Hl. exists u. rewrite lookup_insert_ne by congruence. done.
  - intros uid' u' Hnone Hsome.
    destruct (decide (uid = uid')) as [<-|Hneq].
    + rewrite lookup_insert_eq in Hsome. by injection Hsome as <-.
    + rewrite lookup_insert_ne in Hsome by done. congruence.
Qed.

Lemma ledger_step_add_tokens uid amt ty descr now d :
  is_Some (users d !! uid) →
  ledger_step d (add_tokens uid amt ty descr now d).
Proof.
  intros Hreg. eexists [_]. simpl. split; [done|]. split; [lia|].
  split; [intros t Hin%list_elem_of_singleton; by subst|].
  split.
  - intros uid' u Hl. unfold apply_log. simpl. case_bool_decide as Hc.
    + subst uid'. exists (credit amt u). rewrite lookup_alter_eq, Hl. done.
    + exists u. rewrite lookup_alter_ne by done. done.
  - intros uid' u' Hnone Hsome.
    destruct (decide (uid = uid')) as [<-|Hneq].
    + rewrite lookup_alter_eq, Hnone in Hsome. done.
    + rewrite lookup_alter_ne in Hsome by done. congruence.
Qed.

Lemma ledger_step_trans_same d d1 d2 :
  users d1 = users d → transactions d1 = transactions d →
  ledger_step d1 d2 → ledger_step d d2.
Proof. unfold ledger_step. intros -> ->. done. Qed.

Lemma generate_loop_ledger rnd rounds st :
  users (db (generate_loop rnd rounds st).2) = users (db st) ∧
  transactions (db (generate_loop rnd rounds st).2) = transactions (db st).
Proof.
  revert st. induction rounds as [|i rounds IH]; intros st; [done|].
  simpl. unfold create_task. case_bool_decide; [done|].
  destruct (IH (with_db
    {| users := users (db st);
       tasks := tasks (db st) ++
         [ {| task_id := "task-" ++ hex8 (rnd i);
              task_created_at := drawn_at (rnd i);
              assigned_to := None; status := pending;
              data_batch := random_sample (training_data st)
                (min 3 (length (training_data st))) (picks (rnd i));
              result := None; tokens_reward := tokens_per_task;
              completed_at := None |} ];
       transactions := transactions (db st) |} st)) as [H1 H2].
  split; [exact H1|exact H2].
Qed.

(** Every request moves the ledger by [ledger_step]. *)
Lemma step_ledger e st : ledger_step (db st) (db (step e st)).
Proof.
  destruct e as [u now|u|u t p n1 n2|u|u q now|n rnd|rnd]; simpl.
  - unfold register_worker.
    destruct (truthy_str u) eqn:Hu; simpl; [|by apply ledger_step_same].
    apply truthy_str_default in Hu as [_ Hne].
    pose proof (ledger_step_create_user (default EmptyString u) now (db st) Hne) as Hs.
    destruct (create_user (default EmptyString u) now (db st)) as [[] d'] eqn:Hc;
      simpl in *; [done|].
    by destruct (get_user (default EmptyString u) d').
  - unfold get_task.
    destruct (truthy_str u); simpl; [|by apply ledger_step_same].
    destruct (get_user _ _); [|by apply ledger_step_same].
    destruct (get_pending_task _); by apply ledger_step_same.
  - unfold submit_result.
    destruct (truthy_str u && truthy_str t && truthy_dict p); simpl;
      [|by apply ledger_step_same].
    destruct (get_user (default EmptyString u) (db st)) as [usr|] eqn:Hu;
      [|by apply ledger_step_same].
    destruct (aggregate_parameters _ _ _) as [[] m]; simpl.
    + eapply (ledger_step_trans_same _ (complete_task _ _ _ (db st)));
        [done..|].
      match goal with
      | |- context [get_user ?a (add_tokens ?a ?b ?c ?d ?e ?f)] =>
          pose proof (ledger_step_add_tokens a b c d e f) as Hs;
          destruct (get_user a (add_tokens a b c d e f))
      end; simpl; apply Hs; unfold get_user in Hu; simpl; by rewrite Hu.
    + by apply ledger_step_same.
  - unfold get_balance.
    destruct (truthy_str u); simpl; [|by apply ledger_step_same].
    destruct (get_user_stats _ _); by apply ledger_step_same.
  - unfold query_model.
    destruct (truthy_str u && truthy_str q); simpl;
      [|by apply ledger_step_same].
    destruct (get_user (default EmptyString u) (db st)) as [usr|] eqn:Hu;
      [|by apply ledger_step_same].
    destruct (num_ltb _ _); [by apply ledger_step_same|].
    match goal with
    | |- context [get_user ?a (add_tokens ?a ?b ?c ?d ?e ?f)] =>
        pose proof (ledger_step_add_tokens a b c d e f) as Hs;
        destruct (get_user a (add_tokens a b c d e f))
    end; simpl; apply Hs; unfold get_user in Hu; by rewrite Hu.
  - apply ledger_step_same; apply generate_loop_ledger.
  - unfold background_task_generator.
    destruct (get_pending_task _); [by apply ledger_step_same|].
    apply ledger_step_same; apply generate_loop_ledger.
Qed.

Lemma ledger_inv_step d d' : ledger_inv d → ledger_step d d' → ledger_inv d'.
Proof.
  intros (Hid & Horphan & Hbal) (new & Hlog & _ & Hnew & Hold & Hfresh).
  assert (∀ uid, is_Some (users d !! uid) → is_Some (users d' !! uid)) as Hkeep.
  { intros uid [u Hu]. destruct (Hold uid u Hu) as (u' & -> & _). done. }
  split; [|split].
  - intros uid [u' Hu'].
    destruct (users d !! uid) as [u|] eqn:Hu; [by apply Hid|].
    by destruct (Hfresh uid u' Hu Hu').
  - intros t Hin. rewrite Hlog in Hin.
    apply elem_of_app in Hin as [Hin|Hin]; apply Hkeep; auto.
  - intros uid u' Hu'. unfold balance_of_log. rewrite Hlog, apply_log_app.
    destruct (users d !! uid) as [u|] eqn:Hu.
    + destruct (Hold uid u Hu) as (u'' & Hu'' & _ & Htok).
      rewrite Hu' in Hu''. injection Hu'' as <-.
      rewrite Htok. f_equal. by apply Hbal.
    + destruct (Hfresh uid u' Hu Hu') as [_ ->].
      rewrite !apply_log_foreign; [done| |].
      * apply Forall_forall. intros t Hin Heq.
        destruct (Horphan t Hin) as [? Hx]. rewrite Heq in Hx. congruence.
      * apply Forall_forall. intros t Hin Heq.
        destruct (Hnew t Hin) as [? Hx]. rewrite Heq in Hx. congruence.
Qed.

Lemma reachable_ledger_inv st : reachable st → ledger_inv (db st).
Proof.
  induction 1 as [st Hinit|e st _ IH].
  - unfold initial in Hinit. rewrite Hinit. split; [|split]; simpl.
    + intros uid [u Hu]. by rewrite lookup_empty in Hu.
    + intros t Hin. by apply elem_of_nil in Hin.
    + intros uid u Hu. by rewrite lookup_empty in Hu.
  - eapply ledger_inv_step; [exact IH|apply step_ledger].
Qed.

Lemma reachable_run events st : reachable st → reachable (run events st).
Proof.
  revert st. induction events as [|e events IH]; intros st Hst; [done|].
  simpl. apply IH. by constructor.
Qed.
End LedgerFacts.

Section LedgerTheorems.
Context {num : Type} `{!Arith num}.
Implicit Types (d : HydraDatabase num) (st : CoordinatorServer num).

(** C6. In every state the server reaches through its requests, the
    balance stored with an account is the sum, in log order and from 0,
    of the amounts of the account's transaction records. A request never
    rewrites the log: it either leaves log and balances alone, or appends
    one record and moves the balance of that record's account by that
    record's amount, and no other balance. A new account starts at 0. *)
Theorem balance_matches_transaction_log st :
  reachable st →
  (∀ uid u, users (db st) !! uid = Some u →
     total_tokens u = balance_of_log uid (transactions (db st))) ∧
  (∀ e,
     ((transactions (db (step e st)) = transactions (db st) ∧
       ∀ uid u, users (db st) !! uid = Some u →
         ∃ u', users (db (step e st)) !! uid = Some u' ∧
               total_tokens u' = total_tokens u)
      ∨
      (∃ t, transactions (db (step e st)) = (transactions (db st) ++ [t])%list ∧
         ∀ uid u, users (db st) !! uid = Some u →
           ∃ u', users (db (step e st)) !! uid = Some u' ∧
                 total_tokens u' =
                   if bool_decide (tx_user_id t = uid)
                   then num_add (total_tokens u) (amount t)
                   else total_tokens u)) ∧
     (∀ uid u', users (db st) !! uid = None →
        users (db (step e st)) !! uid = Some u' → total_tokens u' = num_zero)).
Proof.
  intros Hreach. split.
  - by destruct (reachable_ledger_inv st Hreach) as (_ & _ & Hbal).
  - intros e.
    destruct (step_ledger e st) as (new & Hlog & Hlen & _ & Hold & Hfresh).
    split.
    + destruct new as [|t [|t' new]]; simpl in Hlen; [| |lia].
      * left. rewrite app_nil_r in Hlog. split; [done|].
        intros uid u Hu. destruct (Hold uid u Hu) as (u' & Hu' & _ & Htok).
        by exists u'.
      * right. exists t. split; [done|].
        intros uid u Hu. destruct (Hold uid u Hu) as (u' & Hu' & _ & Htok).
        by exists u'.
    + intros uid u' Hnone Hsome. by destruct (Hfresh uid u' Hnone Hsome).
Qed.

(** C8. Registering an id that already has an account succeeds, answers
    with the account's current balance and changes nothing: the balance
    is not reset and the creation time stays. *)
Theorem register_worker_again st uid u now :
  reachable st → users (db st) !! uid = Some u →
  register_worker (Some uid) now st
  = (AlreadyRegistered uid (total_tokens u), st).
Proof.
  intros Hreach Hu.
  destruct (reachable_ledger_inv st Hreach) as (Hid & _ & _).
  assert (truthy_str (Some uid) = true) as Htruthy.
  { apply truthy_str_Some, Hid. by rewrite Hu. }
  unfold register_worker, create_user. rewrite Htruthy. simpl.
  rewrite Hu. unfold get_user. rewrite Hu. by rewrite with_db_id.
Qed.

(** C10. A [submit_result] request whose [updated_parameters] is absent
    or an empty mapping is answered with "Missing required fields" and
    the state is untouched: no task is completed, nothing is blended and
    no token is paid. *)
Theorem submit_result_empty_update st user_id task_id updated_parameters
    now_completed now_credited :
  truthy_dict updated_parameters = false →
  submit_result user_id task_id updated_parameters
    now_completed now_credited st
  = (Error 400 "Missing required fields", st).
Proof.
  intros Hfalsy. unfold submit_result. rewrite Hfalsy.
  by rewrite andb_false_r.
Qed.

(** C7, amended. A query by a registered worker whose balance is below
    the cost never changes the state. With a non-empty worker id and
    prompt the answer is "Insufficient tokens" with the cost and the
    balance; with an empty or absent prompt the request is turned down
    for its missing field before the balance is looked at. *)
Theorem query_model_insufficient_tokens st uid prompt u now :
  get_user uid (db st) = Some u →
  num_ltb (total_tokens u) tokens_cost = true →
  (query_model (Some uid) prompt now st).2 = st ∧
  (truthy_str (Some uid) && truthy_str prompt = true →
   query_model (Some uid) prompt now st
   = (InsufficientTokens tokens_cost (total_tokens u), st)) ∧
  (truthy_str prompt = false →
   query_model (Some uid) prompt now st
   = (Error 400 "user_id and prompt are required", st)).
Proof.
  intros Hu Hlt. unfold query_model.
  destruct (truthy_str (Some uid) && truthy_str prompt) eqn:Hfields; simpl.
  - cbn [default from_option]. rewrite Hu, Hlt.
    split; [done|]. split; [done|].
    intros Hp. rewrite Hp, andb_false_r in Hfields. done.
  - split; [done|]. split; [done|]. done.
Qed.

(** C3 fails on the code. [submit_result] never reads the task row, so
    a submission for a task assigned to somebody else is not rejected and
    the state does change. For a registered caller and non-empty fields
    the row of that task is marked completed with the submitted result
    whatever happens next, its [assigned_to] staying as it was, and the
    blend is run. The answer is what the assignee would get: when the
    blend returns normally the caller is paid [tokens_per_task] and told
    the new balance; when it raises, the answer is the internal server
    error, with accounts and log as they were and the row completed all
    the same. *)
Theorem submit_result_ignores_assignee st uid tid update n1 n2 u t :
  truthy_str (Some uid) && truthy_str (Some tid)
    && truthy_dict (Some update) = true →
  get_user uid (db st) = Some u →
  t ∈ tasks (db st) → task_id t = tid → assigned_to t ≠ Some uid →
  let r := submit_result (Some uid) (Some tid) (Some update) n1 n2 st in
  let blend := aggregate_parameters update num_tenth (model st) in
  set_completed update n1 t ∈ tasks (db r.2) ∧
  assigned_to (set_completed update n1 t) = assigned_to t ∧
  status (set_completed update n1 t) = completed ∧
  result (set_completed update n1 t) = Some update ∧
  model r.2 = blend.2 ∧
  (blend.1 = Raised →
   r.1 = InternalServerError ∧
   users (db r.2) = users (db st) ∧
   transactions (db r.2) = transactions (db st)) ∧
  (blend.1 = Ok →
   r.1 = TaskCompleted tokens_per_task
           (num_add (total_tokens u) tokens_per_task) ∧
   (total_tokens <$> users (db r.2) !! uid)
     = Some (num_add (total_tokens u) tokens_per_task) ∧
   transactions (db r.2)
     = (transactions (db st) ++
         [ {| tx_user_id := uid; amount := tokens_per_task;
              tx_type := "reward";
              description := "Completed training task " ++ tid;
              timestamp := n2 |} ])%list).
Proof.
  intros Hfields Hu Ht Htid _ r blend. subst r blend.
  assert (set_completed update n1 t
            ∈ tasks (complete_task tid update n1 (db st))) as Hrow.
  { apply list_elem_of_fmap. exists t. split; [|done].
    by rewrite bool_decide_eq_true_2. }
  unfold submit_result. rewrite Hfields. cbn [negb default from_option id].
  rewrite Hu.
  destruct (aggregate_parameters update num_tenth (model st)) as [[] m].
  - unfold get_user in *. cbn [add_tokens users].
    rewrite lookup_alter_eq. cbn [complete_task update_task users].
    rewrite Hu. simpl.
    split; [exact Hrow|]. split; [done|]. split; [done|]. split; [done|].
    split; [done|]. split; [done|]. intros _.
    split; [done|]. split; [|done].
    by rewrite lookup_alter_eq, Hu.
  - cbn [fst snd db model].
    split; [exact Hrow|]. split; [done|]. split; [done|]. split; [done|].
    split; [done|]. split; [|done]. intros _. done.
Qed.
End LedgerTheorems.

(** ** Task generation *)

Section GenerationTheorems.
Context {num : Type} `{!Arith num}.
Implicit Types (st : CoordinatorServer num).

Lemma with_db_same_tables st :
  with_db {| users := users (db st); tasks := tasks (db st);
             transactions := transactions (db st) |} st = st.
Proof. destruct st as [[] ? ?]. done. Qed.

(** With task ids that are new and distinct the loop creates one pending
    task per round, whatever the corpus. *)
Lemma generate_loop_fresh rnd rounds st :
  NoDup ((task_id <$> tasks (db st))
           ++ ((λ i, ("task-" ++ hex8 (rnd i))%string) <$> rounds))%list →
  generate_loop rnd rounds st
  = (Ok,
     with_db
       {| users := users (db st);
          tasks := (tasks (db st) ++
            ((λ i, new_task ("task-" ++ hex8 (rnd i))%string
                     (random_sample (training_data st)
                        (min 3 (length (training_data st))) (picks (rnd i)))
                     (drawn_at (rnd i))) <$> rounds))%list;
          transactions := transactions (db st) |} st).
Proof.
  revert st. induction rounds as [|i rounds IH]; intros st Hfresh.
  - simpl. by rewrite app_nil_r, with_db_same_tables.
  - simpl in *. unfold create_task.
    rewrite bool_decide_eq_false_2.
    + rewrite IH.
      * simpl. unfold with_db, new_task. simpl.
        by rewrite <- app_assoc.
      * simpl. rewrite fmap_app, <- app_assoc. exact Hfresh.
    + apply NoDup_app in Hfresh as (_ & Hdisj & _).
      intros Hin. apply (Hdisj _ Hin). by left.
Qed.

(** C9, amended. An empty corpus is not an error: when the drawn task
    ids are new, [generate_tasks] returns normally and has appended
    [num_tasks] pending tasks, each with an empty data batch and the
    fixed reward. *)
Theorem generate_tasks_empty_corpus num_tasks rnd st :
  training_data st = [] →
  NoDup ((task_id <$> tasks (db st))
           ++ ((λ i, ("task-" ++ hex8 (rnd i))%string) <$> seq 0 num_tasks))%list →
  generate_tasks num_tasks rnd st
  = (Ok,
     with_db
       {| users := users (db st);
          tasks := (tasks (db st) ++
            ((λ i, new_task ("task-" ++ hex8 (rnd i))%string [] (drawn_at (rnd i)))
               <$> seq 0 num_tasks))%list;
          transactions := transactions (db st) |} st).
Proof.
  intros Hcorpus Hfresh. unfold generate_tasks.
  rewrite generate_loop_fresh by exact Hfresh.
  rewrite Hcorpus. done.
Qed.
End GenerationTheorems.

(** ** Handing out tasks *)

Section AcquisitionTheorems.
Context {num : Type} `{!Arith num}.
Implicit Types (st : CoordinatorServer num).

(** Run without interruption, the four calls are the handler. *)
Lemma get_task_steps user_id (other : get_task_pc num) st :
  interleave [true; true; true; true] (AtEntry user_id) other st
  = (Returned (get_task user_id st).1, other, (get_task user_id st).2).
Proof.
  unfold get_task. simpl.
  destruct (truthy_str user_id); simpl; [|done].
  destruct (get_user _ _); simpl; [|done].
  destruct (get_pending_task _); simpl; done.
Qed.

(** C1 fails on the code. Selecting a pending task and marking it
    assigned are two database calls with nothing to keep another handler
    out in between: under [race_schedule] two registered workers are both
    handed the first pending task, and the row ends up assigned to the
    one that wrote last. *)
Theorem get_task_race st a b ua ub task :
  a ≠ EmptyString → b ≠ EmptyString →
  get_user a (db st) = Some ua → get_user b (db st) = Some ub →
  get_pending_task (db st) = Some task →
  let r := interleave race_schedule (AtEntry (Some a)) (AtEntry (Some b)) st in
  issued_task r.1.1 = Some (task_id task) ∧
  issued_task r.1.2 = Some (task_id task) ∧
  db r.2 = assign_task (task_id task) b (assign_task (task_id task) a (db st)).
Proof.
  intros Ha Hb Hua Hub Htask r. subst r.
  apply truthy_str_Some in Ha, Hb.
  unfold race_schedule.
  cbn [interleave get_task_step]. rewrite Ha. cbn [negb default from_option id].
  rewrite Hua. cbn [interleave get_task_step]. rewrite Htask.
  cbn [interleave get_task_step]. rewrite Hb. cbn [negb default from_option id].
  rewrite Hub. cbn [interleave get_task_step]. rewrite Htask.
  cbn [interleave get_task_step]. done.
Qed.
End AcquisitionTheorems.

(** ** Worked runs of the server *)

Lemma two_workers_reachable : reachable two_workers.
Proof. apply reachable_run. by constructor. Qed.

Lemma alice_done_reachable : reachable alice_done.
Proof. do 2 constructor 2. exact two_workers_reachable. Qed.

Lemma balance_matches_transaction_log_witness :
  reachable alice_done ∧
  (∃ u, users (db alice_done) !! "alice" = Some u ∧
        total_tokens u = 1%Q ∧
        balance_of_log "alice" (transactions (db alice_done)) = 1%Q) ∧
  (∀ u', users (db (step (Register (Some "carol") "2024-05-02T08:00:00")
                      alice_done)) !! "carol" = Some u' →
         total_tokens u' = 0%Q).
Proof.
  split; [exact alice_done_reachable|].
  destruct (balance_matches_transaction_log alice_done alice_done_reachable)
    as [Hbal Hstep].
  split.
  - exists {| created_at := "2024-05-01T09:01:00"; total_tokens := 1%Q;
              total_work_done := 0 |}.
    split; [reflexivity|]. split; [reflexivity|].
    symmetry. apply (Hbal "alice" {| created_at := "2024-05-01T09:01:00";
                                     total_tokens := 1%Q;
                                     total_work_done := 0 |}).
    reflexivity.
  - intros u' Hu'.
    destruct (Hstep (Register (Some "carol") "2024-05-02T08:00:00"))
      as [_ Hnew].
    apply (Hnew "carol" u'); [reflexivity|exact Hu'].
Defined.

Lemma register_worker_again_witness :
  reachable alice_done ∧
  register_worker (Some "alice") "2024-05-02T10:00:00" alice_done
  = (AlreadyRegistered "alice" 1%Q, alice_done).
Proof.
  split; [exact alice_done_reachable|].
  apply (register_worker_again alice_done "alice"
           {| created_at := "2024-05-01T09:01:00"; total_tokens := 1%Q;
              total_work_done := 0 |}).
  - exact alice_done_reachable.
  - reflexivity.
Defined.

Lemma submit_result_empty_update_witness :
  truthy_dict (Some (∅ : gmap string (nested Q))) = false ∧
  submit_result (Some "alice") (Some "task-3f9a2c00") (Some ∅)
    "2024-05-01T09:05:00" "2024-05-01T09:05:01" alice_holds_task
  = (Error 400 "Missing required fields", alice_holds_task) ∧
  submit_result (Some "alice") (Some "task-3f9a2c00") None
    "2024-05-01T09:05:00" "2024-05-01T09:05:01" alice_holds_task
  = (Error 400 "Missing required fields", alice_holds_task).
Proof.
  split; [reflexivity|].
  split; apply submit_result_empty_update; reflexivity.
Defined.

Lemma query_model_insufficient_tokens_witness :
  num_ltb (3 # 10)%Q tokens_cost = true ∧
  query_model (Some "carol") (Some "What is machine learning?")
    "2024-05-01T10:00:00" carol_has_03
  = (InsufficientTokens (1 # 2)%Q (3 # 10)%Q, carol_has_03) ∧
  query_model (Some "carol") None "2024-05-01T10:00:00" carol_has_03
  = (Error 400 "user_id and prompt are required", carol_has_03).
Proof.
  split; [reflexivity|].
  split.
  - destruct (query_model_insufficient_tokens carol_has_03 "carol"
                (Some "What is machine learning?")
                {| created_at := "2024-05-01T08:00:00";
                   total_tokens := (3 # 10)%Q; total_work_done := 0 |}
                "2024-05-01T10:00:00")
      as (_ & Hanswer & _); [reflexivity..|].
    apply Hanswer. reflexivity.
  - destruct (query_model_insufficient_tokens carol_has_03 "carol" None
                {| created_at := "2024-05-01T08:00:00";
                   total_tokens := (3 # 10)%Q; total_work_done := 0 |}
                "2024-05-01T10:00:00")
      as (_ & _ & Hmissing); [reflexivity..|].
    apply Hmissing. reflexivity.
Defined.

(** C7 as stated fails: carol is registered and holds 0.3 < 0.5, yet a
    query with an empty prompt is answered with the missing-field error,
    not with "Insufficient tokens". *)
Lemma query_model_empty_prompt :
  (total_tokens <$> get_user "carol" (db carol_has_03)) = Some (3 # 10)%Q ∧
  num_ltb (3 # 10)%Q tokens_cost = true ∧
  query_model (Some "carol") (Some EmptyString) "2024-05-01T10:00:00" carol_has_03
  = (Error 400 "user_id and prompt are required", carol_has_03).
Proof. repeat split; vm_compute; reflexivity. Qed.

(** The run behind C3: the task is assigned to alice, bob submits a
    result for it, and the request is accepted: the task is completed, the
    model is blended and bob is paid. *)
Lemma submit_result_by_other_worker :
  let r := submit_result (Some "bob") (Some "task-3f9a2c00") (Some bias_update)
             "2024-05-01T09:05:00" "2024-05-01T09:05:01" alice_holds_task in
  ((λ t, (task_id t, assigned_to t, status t)) <$> tasks (db alice_holds_task))
    = [("task-3f9a2c00", Some "alice", assigned)] ∧
  (total_tokens <$> get_user "bob" (db alice_holds_task)) = Some 0%Q ∧
  r.1 = TaskCompleted 1%Q 1%Q ∧
  ((λ t, (task_id t, assigned_to t, status t)) <$> tasks (db r.2))
    = [("task-3f9a2c00", Some "alice", completed)] ∧
  (total_tokens <$> get_user "bob" (db r.2)) = Some 1%Q ∧
  model r.2 !! "output_layer.bias"
    = Some (vec [(7 # 5)%Q; (12 # 5)%Q; (17 # 5)%Q]).
Proof. repeat split; vm_compute; reflexivity. Qed.

Lemma submit_result_ignores_assignee_witness :
  let r := submit_result (Some "bob") (Some "task-3f9a2c00") (Some bias_update)
             "2024-05-01T09:05:00" "2024-05-01T09:05:01" alice_holds_task in
  let raised := submit_result (Some "bob") (Some "task-3f9a2c00")
                  (Some wrong_update)
                  "2024-05-01T09:05:00" "2024-05-01T09:05:01"
                  alice_holds_task in
  r.1 = TaskCompleted 1%Q 1%Q ∧
  (total_tokens <$> users (db r.2) !! "bob") = Some 1%Q ∧
  ((λ t, (task_id t, assigned_to t, status t)) <$> tasks (db r.2))
    = [("task-3f9a2c00", Some "alice", completed)] ∧
  (tasks_completed <$> get_user_stats "bob" (db r.2)) = Some 0 ∧
  (tasks_completed <$> get_user_stats "alice" (db r.2)) = Some 1 ∧
  (stats_total_tokens <$> get_user_stats "alice" (db r.2)) = Some 0%Q ∧
  raised.1 = InternalServerError ∧
  ((λ t, (task_id t, assigned_to t, status t)) <$> tasks (db raised.2))
    = [("task-3f9a2c00", Some "alice", completed)] ∧
  model raised.2 = small_model.
Proof.
  assert (aggregate_parameters bias_update num_tenth (model alice_holds_task)
          = (Ok, (aggregate_parameters bias_update num_tenth small_model).2))
    as Hblend by (vm_compute; reflexivity).
  assert (aggregate_parameters wrong_update num_tenth (model alice_holds_task)
          = (Raised, small_model))
    as Hraise by (vm_compute; reflexivity).
  destruct (submit_result_ignores_assignee alice_holds_task "bob"
              "task-3f9a2c00" bias_update
              "2024-05-01T09:05:00" "2024-05-01T09:05:01"
              {| created_at := "2024-05-01T09:02:00"; total_tokens := 0%Q;
                 total_work_done := 0 |}
              {| task_id := "task-3f9a2c00";
                 task_created_at := "2024-05-01T09:00:00";
                 assigned_to := Some "alice"; status := assigned;
                 data_batch := ["a"; "c"; "b"]; result := None;
                 tokens_reward := 1%Q; completed_at := None |})
    as (_ & _ & _ & _ & _ & _ & Hpaid).
  - reflexivity.
  - reflexivity.
  - apply list_elem_of_singleton. reflexivity.
  - reflexivity.
  - discriminate.
  - destruct (submit_result_ignores_assignee alice_holds_task "bob"
                "task-3f9a2c00" wrong_update
                "2024-05-01T09:05:00" "2024-05-01T09:05:01"
                {| created_at := "2024-05-01T09:02:00"; total_tokens := 0%Q;
                   total_work_done := 0 |}
                {| task_id := "task-3f9a2c00";
                   task_created_at := "2024-05-01T09:00:00";
                   assigned_to := Some "alice"; status := assigned;
                   data_batch := ["a"; "c"; "b"]; result := None;
                   tokens_reward := 1%Q; completed_at := None |})
      as (_ & _ & _ & _ & Hmodel & Hfailed & _).
    + reflexivity.
    + reflexivity.
    + apply list_elem_of_singleton. reflexivity.
    + reflexivity.
    + discriminate.
    + rewrite Hblend in Hpaid. rewrite Hraise in Hfailed, Hmodel.
      destruct (Hpaid eq_refl) as (Hresp & Hbal & _).
      destruct (Hfailed eq_refl) as (Hresp' & _).
      cbv zeta.
      split; [exact Hresp|]. split; [exact Hbal|].
      split; [vm_compute; reflexivity|]. split; [vm_compute; reflexivity|].
      split; [vm_compute; reflexivity|]. split; [vm_compute; reflexivity|].
      split; [exact Hresp'|]. split; [vm_compute; reflexivity|exact Hmodel].
Defined.

(** C2 fails on the code. The task is completed and alice holds the one
    token it paid. Submitting the same task again succeeds, overwrites the
    completion time and pays a second token; submitting for a task id that
    does not exist succeeds and pays as well. *)
Theorem submit_result_pays_again :
  ((λ t, (task_id t, status t, completed_at t)) <$> tasks (db alice_done))
    = [("task-3f9a2c00", completed, Some "2024-05-01T09:05:00")] ∧
  (total_tokens <$> get_user "alice" (db alice_done)) = Some 1%Q ∧
  (let r := submit_result (Some "alice") (Some "task-3f9a2c00")
              (Some bias_update) "2024-05-01T09:07:00" "2024-05-01T09:07:01"
              alice_done in
   r.1 = TaskCompleted 1%Q 2%Q ∧
   ((λ t, (task_id t, status t, completed_at t)) <$> tasks (db r.2))
     = [("task-3f9a2c00", completed, Some "2024-05-01T09:07:00")] ∧
   (total_tokens <$> get_user "alice" (db r.2)) = Some 2%Q ∧
   length (transactions (db r.2)) = 2) ∧
  (let r := submit_result (Some "alice") (Some "task-ffffffff")
              (Some bias_update) "2024-05-01T09:07:00" "2024-05-01T09:07:01"
              alice_done in
   r.1 = TaskCompleted 1%Q 2%Q ∧
   tasks (db r.2) = tasks (db alice_done) ∧
   (total_tokens <$> get_user "alice" (db r.2)) = Some 2%Q).
Proof. repeat split; vm_compute; reflexivity. Qed.

Lemma get_task_race_witness :
  length (pending_tasks two_workers) = 1 ∧
  let r := interleave race_schedule (AtEntry (Some "alice"))
             (AtEntry (Some "bob")) two_workers in
  issued_task r.1.1 = Some "task-3f9a2c00" ∧
  issued_task r.1.2 = Some "task-3f9a2c00" ∧
  (assigned_to <$> tasks (db r.2)) = [Some "bob"].
Proof.
  split; [reflexivity|].
  destruct (get_task_race two_workers "alice" "bob"
              {| created_at := "2024-05-01T09:01:00"; total_tokens := 0%Q;
                 total_work_done := 0 |}
              {| created_at := "2024-05-01T09:02:00"; total_tokens := 0%Q;
                 total_work_done := 0 |}
              {| task_id := "task-3f9a2c00";
                 task_created_at := "2024-05-01T09:00:00";
                 assigned_to := None; status := pending;
                 data_batch := ["a"; "c"; "b"]; result := None;
                 tokens_reward := 1%Q; completed_at := None |})
    as (Ha & Hb & Hdb); [discriminate|discriminate|reflexivity..|].
  split; [exact Ha|]. split; [exact Hb|].
  cbv zeta. rewrite Hdb. reflexivity.
Defined.

(** One handler after the other: the second finds no pending task. *)
Lemma get_task_serial :
  let r := interleave serial_schedule (AtEntry (Some "alice"))
             (AtEntry (Some "bob")) two_workers in
  issued_task r.1.1 = Some "task-3f9a2c00" ∧
  r.1.2 = Returned NoTasksAvailable.
Proof. split; vm_compute; reflexivity. Qed.

(** C9 as stated fails: with an empty corpus two tasks are asked for, no
    error is raised and two task records are created. *)
Lemma generate_tasks_empty_corpus_creates :
  training_data empty_corpus_server = [] ∧
  (generate_tasks 2 demo_rnd empty_corpus_server).1 = Ok ∧
  ((λ t, (task_id t, status t, data_batch t))
     <$> tasks (db (generate_tasks 2 demo_rnd empty_corpus_server).2))
  = [("task-3f9a2c00", pending, []); ("task-3f9a2c01", pending, [])].
Proof. repeat split; vm_compute; reflexivity. Qed.

Lemma generate_tasks_empty_corpus_witness :
  (generate_tasks 2 demo_rnd empty_corpus_server).1 = Ok ∧
  length (tasks (db (generate_tasks 2 demo_rnd empty_corpus_server).2)) = 2.
Proof.
  rewrite (generate_tasks_empty_corpus 2 demo_rnd empty_corpus_server).
  - split; reflexivity.
  - reflexivity.
  - apply (bool_decide_unpack _). vm_compute. exact I.
Defined.


(** ** Moves of the database *)

Section MoveFacts.
Context {num : Type} `{!Arith num}.
Implicit Types (d : HydraDatabase num) (st : CoordinatorServer num).

Lemma generate_loop_creates rnd rounds st :
  creates (training_data st) (db st) (db (generate_loop rnd rounds st).2) ∧
  training_data (generate_loop rnd rounds st).2 = training_data st ∧
  model (generate_loop rnd rounds st).2 = model st.
Proof.
  revert st. induction rounds as [|i rounds IH]; intros st.
  - split; [constructor|done].
  - simpl.
    destruct (create_task _ _ _ _ (db st)) as [d1|] eqn:Hc;
      [|split; [constructor|done]].
    destruct (IH (with_db d1 st)) as (Hcr & Htd & Hm).
    split; [|by split].
    econstructor; [exact Hc|exact Hcr].
Qed.

(** Every request is one of the moves, and leaves the corpus alone. *)
Lemma step_db_move e st :
  db_move st (db (step e st)) ∧ training_data (step e st) = training_data st.
Proof.
  destruct e as [u now|u|u t p n1 n2|u|u q now|n rnd|rnd]; simpl.
  - unfold register_worker.
    destruct (truthy_str u) eqn:Hu; simpl; [|split; [constructor|done]].
    apply truthy_str_default in Hu as [_ Hne].
    pose proof (move_register st (default EmptyString u) now Hne) as Hm.
    destruct (create_user (default EmptyString u) now (db st)) as [[] d'];
      simpl in *; [done|].
    by destruct (get_user (default EmptyString u) d').
  - unfold get_task.
    destruct (truthy_str u) eqn:Hu; simpl; [|split; [constructor|done]].
    apply truthy_str_default in Hu as [_ Hne].
    destruct (get_user _ _) eqn:Hg; [|split; [constructor|done]].
    destruct (get_pending_task _) eqn:Hp; [|split; [constructor|done]].
    split; [|done]. simpl. eapply move_assign; [done| |done]. by rewrite Hg.
  - unfold submit_result.
    destruct (truthy_str u && truthy_str t && truthy_dict p) eqn:Hf; simpl;
      [|split; [constructor|done]].
    apply andb_true_iff in Hf as [Hf _]. apply andb_true_iff in Hf as [Hu _].
    apply truthy_str_default in Hu as [_ Hne].
    destruct (get_user (default EmptyString u) (db st)) as [usr|] eqn:Hg;
      [|split; [constructor|done]].
    destruct (aggregate_parameters _ _ _) as [[] m]; simpl.
    + match goal with
      | |- context [get_user ?a (add_tokens ?a ?b ?c ?d ?e ?f)] =>
          destruct (get_user a (add_tokens a b c d e f))
      end; simpl; (split; [|done]);
        (eapply move_reward; [done|by rewrite Hg]).
    + split; [|done]. eapply move_complete. by rewrite Hg.
  - unfold get_balance.
    destruct (truthy_str u); simpl; [|split; [constructor|done]].
    destruct (get_user_stats _ _); split; try done; constructor.
  - unfold query_model.
    destruct (truthy_str u && truthy_str q); simpl; [|split; [constructor|done]].
    destruct (get_user (default EmptyString u) (db st)) as [usr|] eqn:Hg;
      [|split; [constructor|done]].
    destruct (num_ltb _ _) eqn:Hlt; [split; [constructor|done]|].
    match goal with
    | |- context [get_user ?a (add_tokens ?a ?b ?c ?d ?e ?f)] =>
        destruct (get_user a (add_tokens a b c d e f))
    end; simpl; (split; [|done]); by eapply move_query.
  - unfold generate_tasks.
    destruct (generate_loop_creates rnd (seq 0 n) st) as (Hc & Ht & _).
    split; [by apply move_generate|done].
  - unfold background_task_generator.
    destruct (get_pending_task _); [split; [constructor|done]|].
    unfold generate_tasks.
    destruct (generate_loop_creates rnd (seq 0 10) st) as (Hc & Ht & _).
    split; [by apply move_generate|done].
Qed.
End MoveFacts.


(** ** The task table *)

Section TaskFacts.
Context {num : Type} `{!Arith num}.
Implicit Types (d : HydraDatabase num) (st : CoordinatorServer num)
  (t : task_row num).

Lemma NoDup_fmap_elem_eq {A B} (f : A → B) (xs : list A) x y :
  NoDup (f <$> xs) → x ∈ xs → y ∈ xs → f x = f y → x = y.
Proof.
  induction xs as [|z xs IH]; intros Hnd Hx Hy Hf; [by apply elem_of_nil in Hx|].
  rewrite fmap_cons in Hnd. apply NoDup_cons in Hnd as [Hz Hnd].
  apply elem_of_cons in Hx as [->|Hx]; apply elem_of_cons in Hy as [->|Hy].
  - done.
  - exfalso. apply Hz. rewrite Hf. by apply list_elem_of_fmap_2.
  - exfalso. apply Hz. rewrite <- Hf. by apply list_elem_of_fmap_2.
  - by apply IH.
Qed.

(** [find] returns the first element that passes the test. *)
Lemma find_first {A} (f : A → bool) (xs : list A) x :
  List.find f xs = Some x →
  ∃ l1 l2, xs = (l1 ++ x :: l2)%list ∧ f x = true
           ∧ Forall (λ y, f y = false) l1.
Proof.
  induction xs as [|z xs IH]; [done|]. simpl.
  destruct (f z) eqn:Hz.
  - intros [= ->]. by exists [], xs.
  - intros Hfind. destruct (IH Hfind) as (l1 & l2 & -> & Hx & Hl1).
    exists (z :: l1), l2. split; [done|]. split; [done|]. by constructor.
Qed.

Lemma find_none_all {A} (f : A → bool) (xs : list A) :
  List.find f xs = None ↔ Forall (λ y, f y = false) xs.
Proof.
  induction xs as [|z xs IH]; simpl; [by split; [constructor|]|].
  destruct (f z) eqn:Hz; rewrite Forall_cons.
  - split; [done|]. intros [? _]. congruence.
  - rewrite IH. split; [by intros ?; split|by intros [_ ?]].
Qed.

Lemma get_pending_task_Some d task :
  get_pending_task d = Some task →
  ∃ l1 l2, tasks d = (l1 ++ task :: l2)%list ∧ status task = pending
           ∧ Forall (λ t, status t ≠ pending) l1.
Proof.
  intros Hfind. apply find_first in Hfind as (l1 & l2 & Hl & Hp & Hl1).
  exists l1, l2. split; [done|]. split; [by apply bool_decide_eq_true in Hp|].
  eapply Forall_impl; [exact Hl1|]. intros t Ht. simpl in Ht.
  by apply bool_decide_eq_false in Ht.
Qed.

Lemma row_evolves_refl t : row_evolves t t.
Proof. by repeat split. Qed.

Lemma row_evolves_trans t1 t2 t3 :
  row_evolves t1 t2 → row_evolves t2 t3 → row_evolves t1 t3.
Proof.
  intros (Hc1 & Hp1 & Hd1 & Hf1) (Hc2 & Hp2 & Hd2 & Hf2).
  split; [congruence|]. split; [|split; [auto|auto]].
  intros Hne. destruct (Hp1 Hne) as [Hne2 Ha]. destruct (Hp2 Hne2) as [? ?].
  split; [done|congruence].
Qed.

Lemma tasks_evolve_refl (l : list (task_row num)) : tasks_evolve l l.
Proof.
  exists l, []. split; [by rewrite app_nil_r|].
  induction l; constructor; [apply row_evolves_refl|done].
Qed.

Lemma tasks_evolve_app (l created : list (task_row num)) :
  tasks_evolve l (l ++ created).
Proof.
  exists l, created. split; [done|].
  induction l; constructor; [apply row_evolves_refl|done].
Qed.

Lemma tasks_evolve_trans (l1 l2 l3 : list (task_row num)) :
  tasks_evolve l1 l2 → tasks_evolve l2 l3 → tasks_evolve l1 l3.
Proof.
  intros (k1 & c1 & -> & H1) (k2 & c2 & -> & H2).
  apply Forall2_app_inv_l in H2 as (k2a & k2b & Ha & Hb & ->).
  exists k2a, (k2b ++ c2)%list. split; [by rewrite app_assoc|].
  clear Hb. revert k2a Ha.
  induction H1 as [|x y l k Hxy _ IH]; intros k2a Ha.
  - inversion Ha. constructor.
  - inversion Ha as [|? z ? k' Hyz Hrest]; subst. constructor.
    + by eapply row_evolves_trans.
    + by apply IH.
Qed.

Lemma tasks_evolve_fmap (g : task_row num → task_row num)
    (l : list (task_row num)) :
  Forall (λ t, row_evolves t (g t)) l → tasks_evolve l (g <$> l).
Proof.
  intros H. exists (g <$> l), []. split; [by rewrite app_nil_r|].
  induction H; constructor; done.
Qed.

Lemma task_row_ok_accounts corpus d d' t :
  (∀ uid, is_Some (users d !! uid) → is_Some (users d' !! uid)) →
  task_row_ok corpus d t → task_row_ok corpus d' t.
Proof.
  intros Hmono (H1 & H2 & H3 & H4 & H5 & H6 & H7 & H8 & H9).
  split; [done|]. split; [done|]. split; [done|]. split; [done|].
  split; [done|]. split; [|done].
  intros uid Hu. apply Hmono. by apply H6.
Qed.

Lemma random_sample_bounds {A} (population : list A) k picked :
  length (random_sample population k picked) ≤ k ∧
  ∀ x, x ∈ random_sample population k picked → x ∈ population.
Proof.
  unfold random_sample. split.
  - rewrite length_take. lia.
  - intros x Hx. apply (subseteq_take k) in Hx.
    apply list_elem_of_omap in Hx as (i & _ & Hi).
    by eapply list_elem_of_lookup_2.
Qed.

(** What [generate_tasks] leaves behind: accounts and log as they were,
    the old rows untouched, new pending rows at the end. *)
Lemma creates_spec corpus d d' :
  creates corpus d d' →
  users d' = users d ∧ transactions d' = transactions d ∧
  ∃ created,
    tasks d' = (tasks d ++ created)%list ∧
    (NoDup (task_id <$> tasks d) → NoDup (task_id <$> tasks d')) ∧
    Forall (λ t, status t = pending ∧ task_row_ok corpus d t) created.
Proof.
  induction 1 as [d|d d1 d2 hex picked now Hc _ IH].
  - split; [done|]. split; [done|]. exists []. rewrite app_nil_r.
    split; [done|]. split; [done|constructor].
  - unfold create_task in Hc. case_bool_decide as Hin; [done|].
    injection Hc as <-. simpl in IH.
    destruct IH as (Hu & Ht & created & Hl & Hnd & Hall).
    split; [done|]. split; [done|].
    eexists (_ :: created). split; [by rewrite Hl, <- app_assoc|].
    split.
    + intros Hnd0. apply Hnd. rewrite fmap_app. apply NoDup_app.
      split; [done|]. split; [|apply NoDup_singleton].
      intros x Hx Hx'. apply list_elem_of_singleton in Hx'. by subst.
    + constructor.
      * split; [done|].
        destruct (random_sample_bounds corpus (min 3 (length corpus)) picked)
          as [Hlen Hsub].
        unfold task_row_ok.
        cbn [tokens_reward status assigned_to result completed_at data_batch].
        split; [done|]. split; [done|]. split; [done|]. split; [done|].
        split; [done|]. split; [done|]. split; [|split; [exact Hsub|by eexists]].
        etrans; [exact Hlen|]. apply Nat.le_min_l.
      * eapply Forall_impl; [exact Hall|]. intros t [Hp Hok].
        split; [done|]. by eapply task_row_ok_accounts; [|exact Hok].
Qed.

Lemma update_task_ids f tid d :
  (∀ t, task_id (f t) = task_id t) →
  task_id <$> tasks (update_task f tid d) = task_id <$> tasks d.
Proof.
  intros Hf. simpl. rewrite <- list_fmap_compose. apply list_fmap_ext.
  intros i t _. simpl. by case_bool_decide.
Qed.

(** The moves keep the invariant of the task table. *)
Lemma task_inv_move st d' :
  task_inv (training_data st) (db st) → db_move st d' →
  task_inv (training_data st) d'.
Proof.
  intros [Hnd Hrows] Hmove.
  assert (∀ f tid (us : gmap string (user_row num)),
            (∀ t, task_id (f t) = task_id t) →
            (∀ uid, is_Some (users (db st) !! uid) → is_Some (us !! uid)) →
            (∀ t, t ∈ tasks (db st) → task_id t = tid →
                  task_row_ok (training_data st) (db st) t →
                  task_row_ok (training_data st)
                    {| users := us; tasks := []; transactions := [] |} (f t)) →
            ∀ log,
            task_inv (training_data st)
              {| users := us;
                 tasks := tasks (update_task f tid (db st));
                 transactions := log |}) as Hupd.
  { intros f tid us Hid Hmono Hf log. split.
    - simpl. rewrite <- list_fmap_compose.
      erewrite list_fmap_ext; [exact Hnd|]. intros i t _. simpl.
      case_bool_decide; [by rewrite Hid|done].
    - simpl. apply Forall_fmap. apply Forall_forall. intros t Ht. simpl.
      pose proof (proj1 (Forall_forall _ _) Hrows t Ht) as Hok.
      case_bool_decide as Heq.
      + eapply task_row_ok_accounts; [|by apply Hf]. done.
      + eapply task_row_ok_accounts; [|exact Hok]. done. }
  inversion Hmove as [|uid now Hne|uid task Hne Hreg Hpend|uid tid res now Hreg
                     |uid tid res n1 n2 Hne Hreg|uid u now Hu Hlt|d Hcr]; subst.
  - by split.
  - unfold create_user. destruct (users (db st) !! uid) eqn:Hu; [by split|].
    split; [done|]. simpl.
    eapply Forall_impl; [exact Hrows|]. intros t Hok.
    eapply task_row_ok_accounts; [|exact Hok]. simpl. intros k Hk.
    destruct (decide (uid = k)) as [->|]; [by rewrite Hu in Hk; destruct Hk|].
    by rewrite lookup_insert_ne.
  - apply (Hupd (set_assigned uid) (task_id task) (users (db st)));
      [done|done|].
    intros t Ht Hid (H1 & H2 & H3 & H4 & H5 & H6 & H7 & H8 & H9).
    unfold task_row_ok. simpl.
    split; [done|]. split; [done|]. split; [done|]. split; [done|].
    split; [done|]. split; [|done].
    intros k [= <-]. exact Hreg.
  - apply (Hupd (set_completed res now) tid (users (db st))); [done|done|].
    intros t Ht Hid (H1 & H2 & H3 & H4 & H5 & H6 & H7 & H8 & H9).
    unfold task_row_ok. simpl.
    split; [done|]. split; [done|]. split; [done|]. split; [done|].
    split; [done|]. done.
  - apply (Hupd (set_completed res n1) tid
             (alter (credit tokens_per_task) uid (users (db st)))); [done| |].
    + intros k Hk. destruct (decide (uid = k)) as [->|].
      * rewrite lookup_alter_eq. by apply fmap_is_Some.
      * by rewrite lookup_alter_ne.
    + intros t Ht Hid (H1 & H2 & H3 & H4 & H5 & H6 & H7 & H8 & H9).
      unfold task_row_ok. simpl.
      split; [done|]. split; [done|]. split; [done|]. split; [done|].
      split; [done|]. split; [|done].
      intros k Hk. destruct (decide (uid = k)) as [->|].
      * rewrite lookup_alter_eq. apply fmap_is_Some. by apply H6.
      * rewrite lookup_alter_ne by done. by apply H6.
  - split; [done|]. simpl.
    eapply Forall_impl; [exact Hrows|]. intros t Hok.
    eapply task_row_ok_accounts; [|exact Hok]. simpl. intros k Hk.
    destruct (decide (uid = k)) as [->|].
    + rewrite lookup_alter_eq. by apply fmap_is_Some.
    + by rewrite lookup_alter_ne.
  - destruct (creates_spec _ _ _ Hcr) as (Hus & _ & created & Hl & Hnd' & Hall).
    split; [by apply Hnd'|]. rewrite Hl. apply Forall_app. split.
    + eapply Forall_impl; [exact Hrows|]. intros t Hok.
      eapply task_row_ok_accounts; [|exact Hok]. by rewrite Hus.
    + eapply Forall_impl; [exact Hall|]. intros t [_ Hok].
      eapply task_row_ok_accounts; [|exact Hok]. by rewrite Hus.
Qed.

(** The moves continue the task table. *)
Lemma tasks_evolve_move st d' :
  NoDup (task_id <$> tasks (db st)) → db_move st d' →
  tasks_evolve (tasks (db st)) (tasks d').
Proof.
  intros Hnd Hmove.
  inversion Hmove as [|uid now Hne|uid task Hne Hreg Hpend|uid tid res now Hreg
                     |uid tid res n1 n2 Hne Hreg|uid u now Hu Hlt|d Hcr]; subst.
  - apply tasks_evolve_refl.
  - unfold create_user. destruct (users (db st) !! uid); apply tasks_evolve_refl.
  - apply tasks_evolve_fmap. apply Forall_forall. intros t Ht.
    case_bool_decide as Hid; [|apply row_evolves_refl].
    apply get_pending_task_Some in Hpend as (l1 & l2 & Hl & Hp & _).
    assert (t = task) as ->.
    { eapply (NoDup_fmap_elem_eq task_id); [exact Hnd|done| |done].
      rewrite Hl. apply elem_of_app. right. by left. }
    unfold row_evolves. simpl. rewrite Hp. by repeat split.
  - apply tasks_evolve_fmap. apply Forall_forall. intros t Ht.
    case_bool_decide as Hid; [|apply row_evolves_refl].
    unfold row_evolves. simpl. by repeat split.
  - apply tasks_evolve_fmap. apply Forall_forall. intros t Ht.
    case_bool_decide as Hid; [|apply row_evolves_refl].
    unfold row_evolves. simpl. by repeat split.
  - apply tasks_evolve_refl.
  - destruct (creates_spec _ _ _ Hcr) as (_ & _ & created & -> & _).
    apply tasks_evolve_app.
Qed.

Lemma reachable_training_data_run events st :
  training_data (run events st) = training_data st.
Proof.
  revert st. induction events as [|e events IH]; intros st; [done|].
  simpl. rewrite IH. apply step_db_move.
Qed.

Lemma reachable_task_inv st : reachable st → task_inv (training_data st) (db st).
Proof.
  induction 1 as [st Hinit|e st _ IH].
  - unfold initial in Hinit. rewrite Hinit. split; simpl; constructor.
  - destruct (step_db_move e st) as [Hm Ht]. rewrite Ht.
    by apply task_inv_move.
Qed.

Lemma reachable_tasks_evolve events st :
  reachable st → tasks_evolve (tasks (db st)) (tasks (db (run events st))).
Proof.
  revert st. induction events as [|e events IH]; intros st Hst.
  - apply tasks_evolve_refl.
  - simpl. eapply tasks_evolve_trans; [|apply IH; by constructor].
    apply tasks_evolve_move; [|apply step_db_move].
    by destruct (reachable_task_inv st Hst).
Qed.
End TaskFacts.

Section TaskTheorems.
Context {num : Type} `{!Arith num}.
Implicit Types (d : HydraDatabase num) (st : CoordinatorServer num)
  (t : task_row num).

(** With distinct ids an UPDATE by task id rewrites one row. *)
Lemma update_task_split f d (l1 l2 : list (task_row num)) task :
  NoDup (task_id <$> tasks d) → tasks d = (l1 ++ task :: l2)%list →
  tasks (update_task f (task_id task) d) = (l1 ++ f task :: l2)%list.
Proof.
  intros Hnd Hl. simpl. rewrite Hl in *.
  rewrite fmap_app, fmap_cons in Hnd.
  apply NoDup_app in Hnd as (_ & Hdisj & Hnd).
  apply NoDup_cons in Hnd as [Hnotin _].
  rewrite fmap_app, fmap_cons, bool_decide_eq_true_2 by done.
  f_equal; [|f_equal].
  - rewrite <- (list_fmap_id l1) at 2. apply list_fmap_ext.
    intros i t Ht. simpl. rewrite bool_decide_eq_false_2; [done|].
    intros Heq. apply (Hdisj (task_id t)).
    + apply list_elem_of_fmap_2. by eapply list_elem_of_lookup_2.
    + rewrite Heq. by left.
  - rewrite <- (list_fmap_id l2) at 2. apply list_fmap_ext.
    intros i t Ht. simpl. rewrite bool_decide_eq_false_2; [done|].
    intros Heq. apply Hnotin. rewrite <- Heq.
    apply list_elem_of_fmap_2. by eapply list_elem_of_lookup_2.
Qed.

(** What a handed-out task tells about the state it came from. *)
Lemma get_task_issued user_id st tid batch params reward st' :
  get_task user_id st = (TaskIssued tid batch params reward, st') →
  ∃ uid task,
    user_id = Some uid ∧ uid ≠ EmptyString ∧
    is_Some (get_user uid (db st)) ∧
    get_pending_task (db st) = Some task ∧
    tid = task_id task ∧ batch = data_batch task ∧
    reward = tokens_reward task ∧ params = model st ∧
    st' = with_db (assign_task (task_id task) uid (db st)) st.
Proof.
  unfold get_task. destruct (truthy_str user_id) eqn:Hu; simpl; [|done].
  apply truthy_str_default in Hu as [Hu Hne].
  destruct (get_user _ (db st)) eqn:Hg; [|done].
  destruct (get_pending_task (db st)) as [task|] eqn:Hp; [|done].
  intros [= <- <- <- <- <-].
  exists (default EmptyString user_id), task.
  split; [done|]. split; [done|]. split; [by rewrite Hg|]. done.
Qed.

(** X1. In every state the server reaches, the task ids are pairwise
    distinct, no task is marked failed, a pending task has no assignee, no
    result and no completion time, an assigned task has an assignee, a
    completed task has a result and a completion time, and every assignee
    is a registered account. *)
Theorem task_table_invariant st :
  reachable st →
  NoDup (task_id <$> tasks (db st)) ∧
  ∀ t, t ∈ tasks (db st) →
    status t ≠ failed ∧
    (status t = pending →
       assigned_to t = None ∧ result t = None ∧ completed_at t = None) ∧
    (status t = assigned → is_Some (assigned_to t)) ∧
    (status t = completed → is_Some (result t) ∧ is_Some (completed_at t)) ∧
    (∀ uid, assigned_to t = Some uid → is_Some (get_user uid (db st))).
Proof.
  intros Hreach. destruct (reachable_task_inv st Hreach) as [Hnd Hrows].
  split; [done|]. intros t Ht.
  destruct (proj1 (Forall_forall _ _) Hrows t Ht)
    as (_ & H2 & H3 & H4 & H5 & H6 & _).
  done.
Qed.

(** X2. Every task of a reachable state carries the fixed reward
    [tokens_per_task], which is what [submit_result] pays, an id of the
    form task-..., and a data batch of at most three examples, each of
    them taken from the corpus. *)
Theorem task_reward_and_batch st t :
  reachable st → t ∈ tasks (db st) →
  tokens_reward t = tokens_per_task ∧
  (∃ hex, task_id t = "task-" ++ hex) ∧
  length (data_batch t) ≤ 3 ∧
  ∀ x, x ∈ data_batch t → x ∈ training_data st.
Proof.
  intros Hreach Ht. destruct (reachable_task_inv st Hreach) as [_ Hrows].
  destruct (proj1 (Forall_forall _ _) Hrows t Ht)
    as (H1 & _ & _ & _ & _ & _ & H7 & H8 & H9).
  done.
Qed.

(** X3. Served one after the other, requests do not delete or reorder
    task rows and do not rewrite the columns fixed at creation: whatever
    requests follow a reachable state, each handled to its end before the
    next begins, the row at each position keeps its id, creation time,
    data batch and reward; a row that has left [pending] does not return
    to it and keeps its assignee; a completed row stays completed.
    Handlers that overlap are not covered: two [get_task] handlers that
    interleave rewrite the assignee. *)
Theorem task_rows_persist st events i t :
  reachable st → tasks (db st) !! i = Some t →
  ∃ t', tasks (db (run events st)) !! i = Some t' ∧
        task_id t' = task_id t ∧
        task_created_at t' = task_created_at t ∧
        data_batch t' = data_batch t ∧
        tokens_reward t' = tokens_reward t ∧
        (status t ≠ pending →
           status t' ≠ pending ∧ assigned_to t' = assigned_to t) ∧
        (status t = completed → status t' = completed).
Proof.
  intros Hreach Hi.
  destruct (reachable_tasks_evolve events st Hreach)
    as (kept & created & -> & Hrows).
  destruct (Forall2_lookup_l _ _ _ _ _ Hrows Hi)
    as (t' & Hi' & Hcore & Hp & Hc & _).
  exists t'. split; [by apply lookup_app_l_Some|].
  unfold task_core in Hcore. injection Hcore as -> -> -> ->. done.
Qed.

(** X4. Served one after the other, [get_task] hands a task out once:
    after a task id has been issued from a reachable state, no later
    [get_task], whoever asks and whatever requests come in between, issues
    that id again. *)
Theorem get_task_never_reissues st user_id tid batch params reward st1
    events user_id' batch' params' reward' :
  reachable st →
  get_task user_id st = (TaskIssued tid batch params reward, st1) →
  (get_task user_id' (run events st1)).1
    ≠ TaskIssued tid batch' params' reward'.
Proof.
  intros Hreach Hget Hagain.
  assert (reachable st1) as Hreach1.
  { replace st1 with (step (GetTask user_id) st) by (simpl; by rewrite Hget).
    by constructor. }
  destruct (get_task_issued _ _ _ _ _ _ _ Hget)
    as (uid & task & _ & _ & _ & Hpend & -> & _ & _ & _ & ->).
  destruct (reachable_task_inv st Hreach) as [Hnd _].
  destruct (get_pending_task_Some _ _ Hpend) as (l1 & l2 & Hl & _ & _).
  pose proof (update_task_split (set_assigned uid) (db st) l1 l2 task Hnd Hl)
    as Hl1.
  assert (tasks (db (with_db (assign_task (task_id task) uid (db st)) st))
            !! length l1 = Some (set_assigned uid task)) as Hrow.
  { simpl in *. rewrite Hl1. by apply list_lookup_middle. }
  destruct (reachable_tasks_evolve events _ Hreach1)
    as (kept & created & Hlater & Hrows).
  destruct (Forall2_lookup_l _ _ _ _ _ Hrows Hrow)
    as (t' & Hi' & Hcore & Hp & _).
  destruct Hp as [Hnp _]; [done|].
  destruct (get_task user_id' (run events
              (with_db (assign_task (task_id task) uid (db st)) st)))
    as [resp st2] eqn:Hget2.
  simpl in Hagain. subst resp.
  destruct (get_task_issued _ _ _ _ _ _ _ Hget2)
    as (uid' & task' & _ & _ & _ & Hpend' & Hid & _).
  destruct (get_pending_task_Some _ _ Hpend') as (k1 & k2 & Hk & Hp' & _).
  assert (task' = t') as ->.
  { eapply (NoDup_fmap_elem_eq task_id).
    - exact (proj1 (reachable_task_inv _ (reachable_run events _ Hreach1))).
    - rewrite Hk. apply elem_of_app. right. by left.
    - rewrite Hlater. apply elem_of_app. left.
      by eapply list_elem_of_lookup_2.
    - unfold task_core in Hcore. injection Hcore as Hc _ _ _.
      simpl in Hc. congruence. }
  done.
Qed.

(** X5. In a reachable state [get_task] serves tasks in creation order:
    for a registered worker it answers "No tasks available" exactly when no
    row is pending, and otherwise it issues the first pending row of the
    table, with that row's batch and reward and the current model, and the
    only change to the state is that this row is now assigned to the
    caller. *)
Theorem get_task_first_pending st uid :
  reachable st → uid ≠ EmptyString → is_Some (get_user uid (db st)) →
  (Forall (λ t, status t ≠ pending) (tasks (db st)) →
   get_task (Some uid) st = (NoTasksAvailable, st)) ∧
  (∀ l1 task l2,
     tasks (db st) = (l1 ++ task :: l2)%list →
     Forall (λ t, status t ≠ pending) l1 → status task = pending →
     get_task (Some uid) st
     = (TaskIssued (task_id task) (data_batch task) (model st)
          (tokens_reward task),
        with_db {| users := users (db st);
                   tasks := (l1 ++ set_assigned uid task :: l2)%list;
                   transactions := transactions (db st) |} st)).
Proof.
  intros Hreach Hne [u Hu].
  apply truthy_str_Some in Hne.
  unfold get_task. rewrite Hne. cbn [negb default from_option id]. rewrite Hu.
  split.
  - intros Hall.
    assert (get_pending_task (db st) = None) as ->; [|done].
    apply find_none_all. eapply Forall_impl; [exact Hall|].
    intros t Ht. simpl. by apply bool_decide_eq_false.
  - intros l1 task l2 Hl Hl1 Hp.
    assert (get_pending_task (db st) = Some task) as ->.
    { unfold get_pending_task. rewrite Hl. clear Hl.
      induction Hl1 as [|t l1 Ht _ IH]; simpl.
      - by rewrite bool_decide_eq_true_2.
      - by rewrite bool_decide_eq_false_2. }
    f_equal. unfold with_db, get_trainable_parameters. f_equal.
    unfold assign_task.
    pose proof (update_task_split (set_assigned uid) (db st) l1 l2 task
                  (proj1 (reachable_task_inv st Hreach)) Hl) as Hsplit.
    unfold update_task in *. simpl in *. by rewrite Hsplit.
Qed.
End TaskTheorems.

(** ** Accounts, log and task generation *)

Section AccountFacts.
Context {num : Type} `{!Arith num}.
Implicit Types (d : HydraDatabase num) (st : CoordinatorServer num)
  (t : task_row num).

(** What a move can do to one account. *)
Lemma db_move_accounts st d' uid u' :
  db_move st d' → users d' !! uid = Some u' →
  users (db st) !! uid = Some u' ∨
  (users (db st) !! uid = None ∧ uid ≠ EmptyString ∧
   total_tokens u' = num_zero ∧ total_work_done u' = 0%Z) ∨
  (∃ u, users (db st) !! uid = Some u ∧ u' = credit tokens_per_task u) ∨
  (∃ u, users (db st) !! uid = Some u ∧
        num_ltb (total_tokens u) tokens_cost = false ∧
        u' = credit (num_neg tokens_cost) u).
Proof.
  intros Hmove Hu'.
  inversion Hmove as [|uid0 now Hne|uid0 task Hne Hreg Hpend|uid0 tid res now Hreg
                     |uid0 tid res n1 n2 Hne Hreg|uid0 u now Hu Hlt|d Hcr]; subst;
    simpl in Hu'.
  - by left.
  - unfold create_user in Hu'.
    destruct (users (db st) !! uid0) eqn:Hu0; simpl in Hu'; [by left|].
    destruct (decide (uid0 = uid)) as [->|Hneq].
    + rewrite lookup_insert_eq in Hu'. injection Hu' as <-.
      right. left. done.
    + rewrite lookup_insert_ne in Hu' by done. by left.
  - by left.
  - by left.
  - destruct (decide (uid0 = uid)) as [->|Hneq].
    + rewrite lookup_alter_eq in Hu'.
      destruct (users (db st) !! uid) as [u|] eqn:Hu; [|done].
      injection Hu' as <-. right. right. left. by exists u.
    + rewrite lookup_alter_ne in Hu' by done. by left.
  - destruct (decide (uid0 = uid)) as [->|Hneq].
    + rewrite lookup_alter_eq in Hu'. unfold get_user in Hu. rewrite Hu in Hu'.
      injection Hu' as <-. right. right. right. by exists u.
    + rewrite lookup_alter_ne in Hu' by done. by left.
  - destruct (creates_spec _ _ _ Hcr) as (Hus & _). rewrite Hus in Hu'. by left.
Qed.

(** What a move can do to the log. *)
Lemma db_move_log st d' :
  db_move st d' →
  transactions d' = transactions (db st) ∨
  ∃ uid descr now amt ty,
    transactions d'
    = (transactions (db st) ++
         [ {| tx_user_id := uid; amount := amt; tx_type := ty;
              description := descr; timestamp := now |} ])%list ∧
    is_Some (users (db st) !! uid) ∧
    ((ty = "reward" ∧ amt = tokens_per_task ∧
      ∃ tid, descr = "Completed training task " ++ tid) ∨
     (ty = "query" ∧ amt = num_neg tokens_cost ∧ descr = "Model query")).
Proof.
  intros Hmove.
  inversion Hmove as [|uid0 now Hne|uid0 task Hne Hreg Hpend|uid0 tid res now Hreg
                     |uid0 tid res n1 n2 Hne Hreg|uid0 u now Hu Hlt|d Hcr]; subst.
  - by left.
  - left. unfold create_user. by destruct (users (db st) !! uid0).
  - by left.
  - by left.
  - right. eexists _, _, _, _, _. split; [done|]. split; [done|].
    left. split; [done|]. split; [done|]. by eexists.
  - right. eexists _, _, _, _, _. split; [done|].
    split; [unfold get_user in Hu; by rewrite Hu|]. by right.
  - left. by destruct (creates_spec _ _ _ Hcr) as (_ & -> & _).
Qed.

(** Where the loop of [generate_tasks] stops. *)
Lemma generate_loop_stops rnd rounds st :
  ∃ done rest,
    rounds = (done ++ rest)%list ∧
    users (db (generate_loop rnd rounds st).2) = users (db st) ∧
    transactions (db (generate_loop rnd rounds st).2) = transactions (db st) ∧
    tasks (db (generate_loop rnd rounds st).2)
    = (tasks (db st)
         ++ ((λ i, drawn_task (training_data st) (rnd i)) <$> done))%list ∧
    match (generate_loop rnd rounds st).1 with
    | Ok => rest = []
    | Raised =>
        ∃ i rest', rest = i :: rest' ∧
          task_id (drawn_task (training_data st) (rnd i))
            ∈ task_id <$> (tasks (db st)
              ++ ((λ i, drawn_task (training_data st) (rnd i)) <$> done))%list
    end.
Proof.
  revert st. induction rounds as [|i rounds IH]; intros st.
  - exists [], []. simpl. by rewrite app_nil_r.
  - simpl. unfold create_task. case_bool_decide as Hin.
    + exists [], (i :: rounds). simpl. rewrite app_nil_r.
      repeat split; try done. by exists i, rounds.
    + match goal with
      | |- context [generate_loop rnd rounds ?s] =>
          destruct (IH s) as (done & rest & -> & Hu & Ht & Hl & Hout)
      end.
      exists (i :: done), rest.
      split; [done|]. split; [exact Hu|]. split; [exact Ht|].
      split.
      * rewrite Hl. simpl. by rewrite <- app_assoc.
      * destruct (generate_loop _ _ _).1; [done|].
        destruct Hout as (j & rest' & -> & Hj). exists j, rest'.
        split; [done|]. simpl in Hj. by rewrite <- app_assoc in Hj.
Qed.
End AccountFacts.

Section AccountTheorems.
Context {num : Type} `{!Arith num}.
Implicit Types (d : HydraDatabase num) (st : CoordinatorServer num)
  (t : task_row num).

Lemma completed_by_split uid d (l1 l2 : list (task_row num)) t :
  tasks d = (l1 ++ t :: l2)%list →
  completed_by uid d
  = length (List.filter
              (λ t, bool_decide (assigned_to t = Some uid)
                    && bool_decide (status t = completed)) l1)
    + (if bool_decide (assigned_to t = Some uid)
          && bool_decide (status t = completed) then 1 else 0)
    + length (List.filter
                (λ t, bool_decide (assigned_to t = Some uid)
                      && bool_decide (status t = completed)) l2).
Proof.
  intros Hl. unfold completed_by. rewrite Hl, List.filter_app, length_app.
  simpl. destruct (_ && _); simpl; lia.
Qed.

Lemma reachable_accounts st uid u :
  reachable st → users (db st) !! uid = Some u →
  uid ≠ EmptyString ∧ total_work_done u = 0%Z.
Proof.
  intros Hreach. revert uid u.
  induction Hreach as [st Hinit|e st _ IH]; intros uid u Hu.
  - unfold initial in Hinit. rewrite Hinit in Hu. simpl in Hu.
    by rewrite lookup_empty in Hu.
  - destruct (step_db_move e st) as [Hm _].
    destruct (db_move_accounts _ _ _ _ Hm Hu)
      as [Hsame|[(_ & ? & _ & ?)|[(u0 & Hu0 & ->)|(u0 & Hu0 & _ & ->)]]];
      eauto.
    + destruct (IH _ _ Hu0). done.
    + destruct (IH _ _ Hu0). done.
Qed.

(** X6. A full round of one worker. When [get_task] hands a task to a
    worker in a reachable state and the worker then submits a non-empty
    update for it that blends without error, the answer reports the fixed
    reward and a balance raised by it, [get_balance] then shows that
    balance with one more completed task, the task row is completed with
    the worker as assignee and the update as result, and the model is the
    blended one. *)
Theorem worker_round st uid tid batch params reward st1 update m n1 n2 :
  reachable st →
  get_task (Some uid) st = (TaskIssued tid batch params reward, st1) →
  truthy_dict (Some update) = true →
  aggregate_parameters update num_tenth (model st) = (Ok, m) →
  let r := submit_result (Some uid) (Some tid) (Some update) n1 n2 st1 in
  ∃ u task,
    get_user uid (db st) = Some u ∧
    task ∈ tasks (db st) ∧ task_id task = tid ∧ status task = pending ∧
    reward = tokens_per_task ∧
    r.1 = TaskCompleted tokens_per_task
            (num_add (total_tokens u) tokens_per_task) ∧
    get_balance (Some uid) r.2
    = (Stats {| stats_user_id := uid;
                stats_total_tokens := num_add (total_tokens u) tokens_per_task;
                tasks_completed := S (completed_by uid (db st));
                member_since := created_at u |}, r.2) ∧
    set_completed update n1 (set_assigned uid task) ∈ tasks (db r.2) ∧
    model r.2 = m.
Proof.
  intros Hreach Hget Hnonempty Hagg r. subst r.
  destruct (get_task_issued _ _ _ _ _ _ _ Hget)
    as (uid' & task & [= <-] & Hne & [u Hu] & Hpend & -> & -> & -> & -> & ->).
  destruct (reachable_task_inv st Hreach) as [Hnd Hrows].
  destruct (get_pending_task_Some _ _ Hpend) as (l1 & l2 & Hl & Hp & _).
  assert (task ∈ tasks (db st)) as Hin.
  { rewrite Hl. apply elem_of_app. right. by left. }
  destruct (proj1 (Forall_forall _ _) Hrows task Hin)
    as (Hrew & _ & Hpnone & _ & _ & _ & _ & _ & [hex Hhex]).
  destruct (Hpnone Hp) as (Hanone & _ & _).
  exists u, task. split; [done|]. split; [done|]. split; [done|].
  split; [done|]. split; [done|].
  pose proof (update_task_split (set_assigned uid) (db st) l1 l2 task Hnd Hl)
    as Hl1.
  assert (NoDup (task_id <$> tasks (assign_task (task_id task) uid (db st))))
    as Hnd1.
  { unfold assign_task. by rewrite update_task_ids. }
  pose proof (update_task_split (set_completed update n1)
                (assign_task (task_id task) uid (db st)) l1 l2
                (set_assigned uid task) Hnd1 Hl1) as Hl2.
  simpl task_id in Hl2.
  unfold submit_result.
  apply truthy_str_Some in Hne.
  assert (truthy_str (Some (task_id task)) = true) as Htid.
  { rewrite Hhex. reflexivity. }
  rewrite Hne, Htid, Hnonempty. cbn [andb negb default from_option id].
  unfold get_user in *. cbn [with_db db model assign_task update_task users].
  rewrite Hu, Hagg.
  cbn [add_tokens users complete_task assign_task update_task].
  rewrite lookup_alter_eq, Hu. cbn [fmap option_fmap option_map fst snd].
  split; [done|]. split.
  - unfold get_balance, get_user_stats, get_user. rewrite Hne.
    cbn [negb default from_option id db users add_tokens complete_task
         assign_task update_task].
    rewrite lookup_alter_eq, Hu. cbn [fmap option_fmap option_map].
    do 3 f_equal.
    change (length (List.filter _ ?l)) with
      (completed_by uid {| users := ∅; tasks := l; transactions := [] |}).
    rewrite (completed_by_split uid _ l1 l2
               (set_completed update n1 (set_assigned uid task)));
      [|exact Hl2].
    rewrite (completed_by_split uid (db st) l1 l2 task Hl).
    cbn [assigned_to status set_completed set_assigned].
    rewrite Hanone.
    rewrite (bool_decide_eq_true_2 (Some uid = Some uid)) by done.
    rewrite (bool_decide_eq_true_2 (completed = completed)) by done.
    rewrite (bool_decide_eq_false_2 (None = Some uid)) by done.
    cbn [andb]. lia.
  - split; [|done]. cbn [db tasks add_tokens]. unfold complete_task.
    rewrite Hl2. apply elem_of_app. right. by left.
Qed.

(** X7. Where [generate_tasks] stops. It creates the tasks of the rounds
    in order, pending, with the fixed reward, and touches neither accounts
    nor log. It returns normally when all rounds are done; it raises at the
    first round whose task id is already in the table, and the tasks of the
    rounds before that one stay created. *)
Theorem generate_tasks_outcome num_tasks rnd st :
  ∃ k, k ≤ num_tasks ∧
    users (db (generate_tasks num_tasks rnd st).2) = users (db st) ∧
    transactions (db (generate_tasks num_tasks rnd st).2)
      = transactions (db st) ∧
    tasks (db (generate_tasks num_tasks rnd st).2)
    = (tasks (db st)
         ++ ((λ i, drawn_task (training_data st) (rnd i)) <$> seq 0 k))%list ∧
    ((generate_tasks num_tasks rnd st).1 = Ok → k = num_tasks) ∧
    ((generate_tasks num_tasks rnd st).1 = Raised →
       k < num_tasks ∧
       task_id (drawn_task (training_data st) (rnd k))
         ∈ task_id <$> tasks (db (generate_tasks num_tasks rnd st).2)).
Proof.
  unfold generate_tasks.
  destruct (generate_loop_stops rnd (seq 0 num_tasks) st)
    as (made & rest & Hsplit & Hu & Ht & Hl & Hout).
  assert (made = seq 0 (length made) ∧ rest = seq (length made) (length rest)
          ∧ num_tasks = length made + length rest) as (Hmade & Hrest & Hn).
  { assert (length (seq 0 num_tasks) = length made + length rest) as Hlen.
    { rewrite Hsplit. apply length_app. }
    rewrite length_seq in Hlen. subst num_tasks.
    rewrite seq_app in Hsplit. simpl in Hsplit.
    apply app_inj_1 in Hsplit as [Ha Hb]; [|by rewrite length_seq].
    rewrite <- Ha, <- Hb, !length_seq. done. }
  exists (length made). split; [lia|]. split; [done|]. split; [done|].
  split; [by rewrite Hl, <- Hmade|].
  destruct (generate_loop _ _ _).1.
  - split; [|done]. intros _. subst rest. simpl in Hn. lia.
  - split; [done|]. intros _.
    destruct Hout as (i & rest' & Hr & Hi).
    subst rest. simpl in Hrest, Hn. injection Hrest as -> _.
    split; [lia|]. by rewrite Hl.
Qed.

(** X8. A wake-up of the background generator that returns normally
    leaves at least one pending task: it keeps the pool as it is when a
    task is pending and creates ten tasks when none is. *)
Theorem background_task_generator_replenishes rnd st :
  (background_task_generator rnd st).1 = Ok →
  is_Some (get_pending_task (db (background_task_generator rnd st).2)) ∧
  (is_Some (get_pending_task (db st)) →
   (background_task_generator rnd st).2 = st) ∧
  (get_pending_task (db st) = None →
   length (tasks (db (background_task_generator rnd st).2))
   = length (tasks (db st)) + 10).
Proof.
  unfold background_task_generator.
  destruct (get_pending_task (db st)) as [task|] eqn:Hp.
  - intros _. simpl. rewrite Hp. split; [done|]. split; [done|]. done.
  - intros Hok. unfold generate_tasks in *.
    destruct (generate_loop_stops rnd (seq 0 10) st)
      as (made & rest & Hsplit & _ & _ & Hl & Hout).
    rewrite Hok in Hout. subst rest. rewrite app_nil_r in Hsplit. subst made.
    split; [|split; [by intros []|]].
    + unfold get_pending_task. rewrite Hl. clear Hl Hok.
      apply find_none_all in Hp. revert Hp.
      generalize (tasks (db st)). intros l Hp.
      induction Hp as [|t l Ht _ IH]; simpl; [done|].
      simpl in Ht. by rewrite Ht.
    + intros _. by rewrite Hl, length_app, length_fmap, length_seq.
Qed.

(** X9. First registration. In a reachable state, registering a non-empty
    id that has no account answers "registered" with 0 tokens, and
    [get_balance] then reports a balance of 0, no completed task and the
    registration time. *)
Theorem register_then_get_balance st uid now :
  reachable st → uid ≠ EmptyString → get_user uid (db st) = None →
  let r := register_worker (Some uid) now st in
  r.1 = Registered uid num_zero ∧
  get_balance (Some uid) r.2
  = (Stats {| stats_user_id := uid; stats_total_tokens := num_zero;
              tasks_completed := 0; member_since := now |}, r.2) ∧
  tasks (db r.2) = tasks (db st) ∧
  transactions (db r.2) = transactions (db st).
Proof.
  intros Hreach Hne Hnone r. subst r.
  apply truthy_str_Some in Hne. unfold get_user in Hnone.
  unfold register_worker, create_user. rewrite Hne.
  cbn [negb default from_option id]. rewrite Hnone. simpl.
  split; [done|]. split; [|done].
  unfold get_balance, get_user_stats, get_user. rewrite Hne.
  cbn [negb default from_option id with_db db users tasks].
  rewrite lookup_insert_eq. do 3 f_equal.
  destruct (reachable_task_inv st Hreach) as [_ Hrows].
  induction Hrows as [|t l Ht _ IH]; [done|]. simpl.
  destruct Ht as (_ & _ & _ & _ & _ & Hassignee & _).
  rewrite bool_decide_eq_false_2; [exact IH|].
  intros Ha. destruct (Hassignee uid Ha) as [? ?]. congruence.
Qed.

(** X10. What a request can do to a balance. After any request an
    existing account is still there with its creation time, and its balance
    is the old one, or the old one plus [tokens_per_task], or, only when
    the old balance was not below [tokens_cost], the old one minus
    [tokens_cost]; an account that was not there before has a non-empty id
    and a balance of 0. *)
Theorem balance_moves e st uid u' :
  users (db (step e st)) !! uid = Some u' →
  (∃ u, users (db st) !! uid = Some u ∧
        created_at u' = created_at u ∧
        (total_tokens u' = total_tokens u ∨
         total_tokens u' = num_add (total_tokens u) tokens_per_task ∨
         (num_ltb (total_tokens u) tokens_cost = false ∧
          total_tokens u' = num_add (total_tokens u) (num_neg tokens_cost))))
  ∨ (users (db st) !! uid = None ∧ uid ≠ EmptyString ∧
     total_tokens u' = num_zero).
Proof.
  intros Hu'. destruct (step_db_move e st) as [Hm _].
  destruct (db_move_accounts _ _ _ _ Hm Hu')
    as [Hsame|[(Hnone & ? & ? & _)|[(u & Hu & ->)|(u & Hu & Hlt & ->)]]].
  - left. exists u'. split; [done|]. split; [done|]. by left.
  - by right.
  - left. exists u. split; [done|]. split; [done|]. right. by left.
  - left. exists u. split; [done|]. split; [done|]. right. by right.
Qed.

(** X11. In every reachable state each record of the transaction log
    names a registered account and is either a reward of exactly
    [tokens_per_task], described as a completed training task, or a query
    charge of exactly minus [tokens_cost]; no account has an empty id, and
    the stored counter [total_work_done] is still 0 for every account: no
    request ever updates it. *)
Theorem transaction_log_records st :
  reachable st →
  (∀ tx, tx ∈ transactions (db st) →
     is_Some (get_user (tx_user_id tx) (db st)) ∧
     ((tx_type tx = "reward" ∧ amount tx = tokens_per_task ∧
       ∃ tid, description tx = "Completed training task " ++ tid) ∨
      (tx_type tx = "query" ∧ amount tx = num_neg tokens_cost ∧
       description tx = "Model query"))) ∧
  (∀ uid u, get_user uid (db st) = Some u →
     uid ≠ EmptyString ∧ total_work_done u = 0%Z).
Proof.
  intros Hreach. split; [|intros uid u; by apply reachable_accounts].
  induction Hreach as [st Hinit|e st Hreach IH].
  - unfold initial in Hinit. rewrite Hinit. intros tx Ht.
    by apply elem_of_nil in Ht.
  - destruct (step_db_move e st) as [Hm _].
    destruct (step_ledger e st) as (new & _ & _ & _ & Hkeep & _).
    assert (∀ uid, is_Some (users (db st) !! uid) →
                   is_Some (users (db (step e st)) !! uid)) as Hmono.
    { intros uid [u Hu]. destruct (Hkeep uid u Hu) as (u' & -> & _). done. }
    intros tx Ht.
    destruct (db_move_log _ _ Hm)
      as [Hsame|(uid & descr & now & amt & ty & Hlog & Hreg & Hkind)].
    + rewrite Hsame in Ht. destruct (IH tx Ht) as [Hr Hk].
      split; [by apply Hmono|done].
    + rewrite Hlog in Ht. apply elem_of_app in Ht as [Ht|Ht].
      * destruct (IH tx Ht) as [Hr Hk]. split; [by apply Hmono|done].
      * apply list_elem_of_singleton in Ht. subst tx. simpl.
        split; [by apply Hmono|done].
Qed.
End AccountTheorems.

(** X12. Served one after the other and with exact arithmetic, requests
    leave no balance negative: in a state reached by requests each handled
    to its end before the next begins, every balance is at least 0, a
    query being charged only to a balance of at least the cost. Queries
    whose handlers overlap are not covered: the balance is read and
    debited in separate database calls. *)
Theorem balance_never_negative (st : CoordinatorServer Q) uid u :
  reachable st → get_user uid (db st) = Some u → (0 <= total_tokens u)%Q.
Proof.
  intros Hreach. revert uid u. unfold get_user.
  induction Hreach as [st Hinit|e st _ IH]; intros uid u Hu.
  - unfold initial in Hinit. rewrite Hinit in Hu. simpl in Hu.
    by rewrite lookup_empty in Hu.
  - destruct (step_db_move e st) as [Hm _].
    destruct (db_move_accounts _ _ _ _ Hm Hu)
      as [Hsame|[(_ & _ & -> & _)|[(u0 & Hu0 & ->)|(u0 & Hu0 & Hlt & ->)]]].
    + by eapply IH.
    + simpl. apply Qle_refl.
    + simpl. rewrite Qred_correct. specialize (IH _ _ Hu0).
      apply (Qle_trans _ (total_tokens u0 + 0)%Q).
      * by rewrite Qplus_0_r.
      * apply Qplus_le_r. discriminate.
    + simpl in *. rewrite !Qred_correct.
      apply negb_false_iff, Qle_bool_iff in Hlt.
      by apply Qle_minus_iff in Hlt.
Qed.

(** ** Loading parameters *)

Section ModelTheorems.
Context {num : Type} `{!Arith num}.
Implicit Types (model update cur parameters : gmap string (nested num)).

Lemma set_parameters_cases parameters model :
  (¬ store_wf parameters ∧ set_parameters parameters model = (Raised, model)) ∨
  (store_wf parameters ∧
   set_parameters parameters model
   = load_state_dict (omap torch_tensor parameters) model).
Proof.
  unfold set_parameters.
  destruct (state_dict_spec parameters) as [[-> Hbad]|[-> Hwf]];
    [by left|by right].
Qed.

Lemma load_param_shape (state_dict : gmap string (nested num)) name param v :
  load_param state_dict name param = Some v → shape_of v = shape_of param.
Proof.
  unfold load_param, size_mismatch.
  destruct (state_dict !! name) as [input|]; [|by intros [= <-]].
  case_bool_decide as Hs; [by intros [= <-]|].
  intros [= <-]. by destruct (decide (shape_of input = shape_of param)).
Qed.

(** Whatever is loaded, names and shapes of the model stay. *)
Lemma set_parameters_shapes parameters model k :
  match model !! k with
  | Some g => ∃ g', (set_parameters parameters model).2 !! k = Some g'
                    ∧ shape_of g' = shape_of g
  | None => (set_parameters parameters model).2 !! k = None
  end.
Proof.
  destruct (set_parameters_cases parameters model) as [[_ ->]|[_ ->]].
  - simpl. destruct (model !! k); [by eexists|done].
  - rewrite load_state_dict_lookup.
    destruct (model !! k) as [g|]; [|done]. simpl.
    destruct (load_param (omap torch_tensor parameters) k g) as [v|] eqn:Hv.
    + exists v. split; [done|]. by eapply load_param_shape.
    + unfold load_param in Hv.
      destruct (omap torch_tensor parameters !! k); [|done].
      by destruct (size_mismatch _ _ _).
Qed.

Lemma aggregate_parameters_shapes update w model k :
  match model !! k with
  | Some g => ∃ g', (aggregate_parameters update w model).2 !! k = Some g'
                    ∧ shape_of g' = shape_of g
  | None => (aggregate_parameters update w model).2 !! k = None
  end.
Proof.
  unfold aggregate_parameters.
  destruct (map_fold _ _ _) as [cur|]; [apply set_parameters_shapes|].
  simpl. destruct (model !! k); [by eexists|done].
Qed.

Lemma tensor_store_wf (m : gmap string (nested num)) :
  tensor_store m → store_wf m.
Proof.
  intros Hts k g Hg. apply torch_tensor_is_Some. exists g. by apply (Hts k).
Qed.

Lemma tensor_store_omap (m : gmap string (nested num)) :
  tensor_store (omap torch_tensor m) ∧
  (tensor_store m → omap torch_tensor m = m).
Proof.
  split.
  - intros k t Ht. rewrite lookup_omap in Ht.
    destruct (m !! k) as [v|]; [|done]. simpl in Ht.
    by destruct (torch_tensor_Some _ _ Ht) as (_ & _ & _ & _ & _ & ?).
  - intros Hts. apply map_eq. intros k. rewrite lookup_omap.
    destruct (m !! k) as [v|] eqn:Hv; [|done]. simpl. by apply (Hts k).
Qed.

(** X13. Loading parameters. [set_parameters] with a dictionary that has
    exactly the model's parameter names, each a value [torch.tensor]
    takes and of the stored shape, returns normally and leaves the model
    holding, for every name, the tensor made of the value given for it.
    The model is then a store of tensors; it is the dictionary itself when
    that holds tensor values already; and loading the model's own
    [get_trainable_parameters] into it changes nothing. *)
Theorem set_parameters_same_layout parameters model :
  store_wf parameters →
  (∀ k, shape_of <$> parameters !! k = shape_of <$> model !! k) →
  ∃ loaded,
    set_parameters parameters model = (Ok, loaded) ∧
    (∀ k, loaded !! k = parameters !! k ≫= torch_tensor) ∧
    tensor_store loaded ∧
    (tensor_store parameters → loaded = parameters) ∧
    set_parameters (get_trainable_parameters loaded) loaded = (Ok, loaded).
Proof.
  assert (∀ p m : gmap string (nested num),
            store_wf p → (∀ k, shape_of <$> p !! k = shape_of <$> m !! k) →
            set_parameters p m = (Ok, omap torch_tensor p)) as Hload.
  { intros p m Hwf Hlayout.
    destruct (set_parameters_cases p m) as [[Hbad _]|[_ ->]]; [done|].
    assert (∀ k g, m !! k = Some g →
              ∃ v t, p !! k = Some v ∧ torch_tensor v = Some t ∧
                     shape_of t = shape_of g) as Hshape.
    { intros k g Hg. pose proof (Hlayout k) as Hk. rewrite Hg in Hk.
      destruct (p !! k) as [v|] eqn:Hv; [|done]. simpl in Hk.
      injection Hk as Hk.
      destruct (proj2 (torch_tensor_is_Some v) (Hwf k v Hv)) as [t Ht].
      destruct (torch_tensor_Some _ _ Ht) as (s & Hs & _ & Hts & _).
      exists v, t. split; [done|]. split; [done|].
      by rewrite Hts, <- Hk, (tensor_shape_shape _ _ Hs). }
    assert (map_Forall (λ name param,
              size_mismatch (omap torch_tensor p) name param = false) m)
      as Hfit.
    { intros k g Hg. unfold size_mismatch. rewrite lookup_omap.
      destruct (Hshape k g Hg) as (v & t & -> & Ht & Hs). simpl. rewrite Ht.
      by apply bool_decide_eq_false_2; intros Hne. }
    unfold load_state_dict. rewrite bool_decide_eq_true_2 by done.
    f_equal. apply map_eq. intros k. rewrite map_lookup_imap.
    pose proof (Hlayout k) as Hk.
    destruct (m !! k) as [g|] eqn:Hg; simpl.
    - unfold load_param. rewrite (Hfit k g Hg).
      destruct (Hshape k g Hg) as (v & t & Hv & Ht & _).
      by rewrite lookup_omap, Hv; simpl; rewrite Ht.
    - rewrite lookup_omap. destruct (p !! k); [done|]. done. }
  intros Hwf Hlayout. exists (omap torch_tensor parameters).
  destruct (tensor_store_omap parameters) as [Hts Hsame].
  split; [by apply Hload|].
  split; [intros k; apply lookup_omap|].
  split; [done|]. split; [done|].
  unfold get_trainable_parameters.
  rewrite (Hload (omap torch_tensor parameters) (omap torch_tensor parameters));
    [|by apply tensor_store_wf|done].
  f_equal. by apply tensor_store_omap.
Qed.

(** X14. [set_parameters] is lenient about names and strict about data:
    a name the model does not have is ignored, a model parameter the
    dictionary does not name keeps its value, and a ragged entry anywhere
    in the dictionary makes the call raise with the model untouched. *)
Theorem set_parameters_lenient parameters model :
  dom (set_parameters parameters model).2 = dom model ∧
  (∀ k, parameters !! k = None →
        (set_parameters parameters model).2 !! k = model !! k) ∧
  (∀ k v, parameters !! k = Some v → shape_of v = None →
          set_parameters parameters model = (Raised, model)).
Proof.
  split; [|split].
  - apply set_eq. intros k. rewrite !elem_of_dom.
    pose proof (set_parameters_shapes parameters model k) as Hk.
    destruct (model !! k) as [g|].
    + destruct Hk as (g' & -> & _). done.
    + rewrite Hk. done.
  - intros k Hk.
    destruct (set_parameters_cases parameters model) as [[_ ->]|[_ ->]];
      [done|].
    rewrite load_state_dict_lookup. destruct (model !! k) as [g|]; [|done].
    simpl. unfold load_param. by rewrite lookup_omap, Hk.
  - intros k v Hk Hv.
    destruct (set_parameters_cases parameters model) as [[_ ->]|[Hwf _]];
      [done|].
    destruct (Hwf k v Hk) as [s Hs]. apply tensor_shape_shape in Hs.
    congruence.
Qed.

(** X15. The layout of the global model is fixed. Whatever requests the
    server handles, the model keeps its set of parameter names and every
    parameter keeps its shape. *)
Theorem model_layout_fixed events (st : CoordinatorServer num) :
  dom (model (run events st)) = dom (model st) ∧
  ∀ k g, model st !! k = Some g →
    ∃ g', model (run events st) !! k = Some g' ∧ shape_of g' = shape_of g.
Proof.
  assert (∀ e (s : CoordinatorServer num) k,
            match model s !! k with
            | Some g => ∃ g', model (step e s) !! k = Some g'
                              ∧ shape_of g' = shape_of g
            | None => model (step e s) !! k = None
            end) as Hstep.
  { intros e s k.
    assert (match model s !! k with
            | Some g => ∃ g', model s !! k = Some g' ∧ shape_of g' = shape_of g
            | None => model s !! k = None
            end) as Hsame by (destruct (model s !! k); [by eexists|done]).
    destruct e as [u now|u|u t p n1 n2|u|u q now|n rnd|rnd]; simpl.
    - unfold register_worker. destruct (truthy_str u); simpl; [|done].
      destruct (create_user _ _ _) as [[] d']; simpl; [done|].
      by destruct (get_user _ d').
    - unfold get_task. destruct (truthy_str u); simpl; [|done].
      destruct (get_user _ _); [|done]. by destruct (get_pending_task _).
    - unfold submit_result.
      destruct (truthy_str u && truthy_str t && truthy_dict p); simpl; [|done].
      destruct (get_user _ (db s)); [|done].
      pose proof (aggregate_parameters_shapes (default ∅ p) num_tenth
                    (model s) k) as Hagg.
      destruct (aggregate_parameters _ _ _) as [[] m]; simpl in *; [|done].
      match goal with
      | |- context [get_user ?a (add_tokens ?a ?b ?c ?d ?e ?f)] =>
          destruct (get_user a (add_tokens a b c d e f))
      end; done.
    - unfold get_balance. destruct (truthy_str u); simpl; [|done].
      by destruct (get_user_stats _ _).
    - unfold query_model. destruct (truthy_str u && truthy_str q); simpl;
        [|done].
      destruct (get_user _ (db s)); [|done].
      destruct (num_ltb _ _); [done|].
      match goal with
      | |- context [get_user ?a (add_tokens ?a ?b ?c ?d ?e ?f)] =>
          destruct (get_user a (add_tokens a b c d e f))
      end; done.
    - unfold generate_tasks.
      destruct (generate_loop_creates rnd (seq 0 n) s) as (_ & _ & ->). done.
    - unfold background_task_generator.
      destruct (get_pending_task _); [done|]. unfold generate_tasks.
      destruct (generate_loop_creates rnd (seq 0 10) s) as (_ & _ & ->). done. }
  assert (∀ k, match model st !! k with
               | Some g => ∃ g', model (run events st) !! k = Some g'
                                 ∧ shape_of g' = shape_of g
               | None => model (run events st) !! k = None
               end) as Hrun.
  { revert st. induction events as [|e events IH]; intros st k.
    - simpl. destruct (model st !! k); [by eexists|done].
    - simpl. pose proof (Hstep e st k) as Hs. pose proof (IH (step e st) k) as Hr.
      destruct (model st !! k) as [g|].
      + destruct Hs as (g1 & Hg1 & Hs1). rewrite Hg1 in Hr.
        destruct Hr as (g2 & Hg2 & Hs2). exists g2. split; [done|congruence].
      + by rewrite Hs in Hr. }
  split.
  - apply set_eq. intros k. rewrite !elem_of_dom. pose proof (Hrun k) as Hk.
    destruct (model st !! k) as [g|].
    + destruct Hk as (g' & -> & _). done.
    + by rewrite Hk.
  - intros k g Hg. pose proof (Hrun k) as Hk. by rewrite Hg in Hk.
Qed.

(** A model of tensor values, which is what a server starts with, stays
    one whatever requests the server handles. *)
Lemma model_tensor_store events (st : CoordinatorServer num) :
  tensor_store (model st) → tensor_store (model (run events st)).
Proof.
  assert (∀ e (s : CoordinatorServer num),
            tensor_store (model s) → tensor_store (model (step e s))) as Hstep.
  { intros e s Hts.
    destruct e as [u now|u|u t p n1 n2|u|u q now|n rnd|rnd]; simpl.
    - unfold register_worker. destruct (truthy_str u); simpl; [|done].
      destruct (create_user _ _ _) as [[] d']; simpl; [done|].
      by destruct (get_user _ d').
    - unfold get_task. destruct (truthy_str u); simpl; [|done].
      destruct (get_user _ _); [|done]. by destruct (get_pending_task _).
    - unfold submit_result.
      destruct (truthy_str u && truthy_str t && truthy_dict p); simpl; [|done].
      destruct (get_user _ (db s)); [|done].
      destruct (aggregate_parameters_tensor_store (default ∅ p) num_tenth
                  (model s) Hts) as [Hagg _].
      destruct (aggregate_parameters _ _ _) as [[] m]; simpl in *; [|done].
      match goal with
      | |- context [get_user ?a (add_tokens ?a ?b ?c ?d ?e ?f)] =>
          destruct (get_user a (add_tokens a b c d e f))
      end; done.
    - unfold get_balance. destruct (truthy_str u); simpl; [|done].
      by destruct (get_user_stats _ _).
    - unfold query_model. destruct (truthy_str u && truthy_str q); simpl;
        [|done].
      destruct (get_user _ (db s)); [|done].
      destruct (num_ltb _ _); [done|].
      match goal with
      | |- context [get_user ?a (add_tokens ?a ?b ?c ?d ?e ?f)] =>
          destruct (get_user a (add_tokens a b c d e f))
      end; done.
    - unfold generate_tasks.
      destruct (generate_loop_creates rnd (seq 0 n) s) as (_ & _ & ->). done.
    - unfold background_task_generator.
      destruct (get_pending_task _); [done|]. unfold generate_tasks.
      destruct (generate_loop_creates rnd (seq 0 10) s) as (_ & _ & ->). done. }
  revert st. induction events as [|e events IH]; intros st Hts; [done|].
  simpl. by apply IH, Hstep.
Qed.
End ModelTheorems.

(** ** The tokenizer *)

Section TokenizerFacts.
Implicit Types (tk s : SimpleTokenizer) (tokens : list string) (ids : list Z).

#[local] Open Scope Z_scope.

Lemma new_tokenizer_wf size :
  4 ≤ size → tokenizer_wf (new_tokenizer size) ∧
             next_id (new_tokenizer size) ≤ vocab_size (new_tokenizer size).
Proof.
  intros Hsize. split; [|done]. unfold tokenizer_wf. simpl.
  split; [|split; [|done]].
  - intros t i. rewrite !lookup_insert_Some, !lookup_singleton_Some.
    split.
    + intros [[<- <-]|[? [[<- <-]|[? [[<- <-]|[? [<- <-]]]]]]].
      * by left.
      * right. split; [done|]. by left.
      * right. split; [done|]. right. split; [done|]. by left.
      * right. split; [done|]. right. split; [done|]. right. by split.
    + intros [[<- <-]|[? [[<- <-]|[? [[<- <-]|[? [<- <-]]]]]]].
      * by left.
      * right. split; [done|]. by left.
      * right. split; [done|]. right. split; [done|]. by left.
      * right. split; [done|]. right. split; [done|]. right. by split.
  - intros i t. rewrite !lookup_insert_Some, lookup_singleton_Some.
    intros [[<- <-]|[? [[<- <-]|[? [[<- <-]|[? [<- <-]]]]]]]; lia.
Qed.

(** One round of the loop. *)
Lemma encode_token_answers s ids token s1 ids1 :
  encode_token (s, ids) token = (s1, ids1) →
  ∃ i, ids1 = (ids ++ [i])%list ∧
       answers s1 token i ∧
       vocab_size s1 = vocab_size s ∧
       next_id s ≤ next_id s1 ≤ next_id s + 1 ∧
       (∀ t0 i0, answers s t0 i0 → answers s1 t0 i0) ∧
       (∀ t0 i0, token_to_id s !! t0 = Some i0 →
                 token_to_id s1 !! t0 = Some i0) ∧
       (next_id s < vocab_size s → token_to_id s1 !! token = Some i).
Proof.
  unfold encode_token, answers.
  destruct (token_to_id s !! token) as [i|] eqn:Ht.
  - intros [= <- <-]. exists i. split; [done|]. split; [by left|].
    split; [done|]. split; [lia|]. split; [done|done].
  - destruct (next_id s <? vocab_size s) eqn:Hroom.
    + apply Z.ltb_lt in Hroom. intros [= <- <-]. exists (next_id s). simpl.
      assert (∀ t0 i0, token_to_id s !! t0 = Some i0 →
                <[token:=next_id s]> (token_to_id s) !! t0 = Some i0) as Hmono.
      { intros t0 i0 H0. rewrite lookup_insert_ne; [done|].
        intros ->. congruence. }
      split; [done|]. split; [left; by rewrite lookup_insert_eq|].
      split; [done|]. split; [lia|].
      split; [|split; [done|intros _; by rewrite lookup_insert_eq]].
      intros t0 i0 [H0|(H0 & Hfull & ->)]; [|lia]. left. by apply Hmono.
    + apply Z.ltb_ge in Hroom. intros [= <- <-]. exists 1.
      split; [done|]. split; [right; done|]. split; [done|].
      split; [lia|]. split; [done|]. split; [done|]. lia.
Qed.

Lemma encode_token_answered s ids token i :
  answers s token i → encode_token (s, ids) token = (s, (ids ++ [i])%list).
Proof.
  unfold encode_token, answers. intros [->|(-> & Hfull & ->)]; [done|].
  apply Z.ltb_ge in Hfull. by rewrite Hfull.
Qed.

Lemma encode_token_wf s ids token s1 ids1 :
  encode_token (s, ids) token = (s1, ids1) →
  tokenizer_wf s → tokenizer_wf s1.
Proof.
  intros Hstep (Hmirror & Hbound & H0 & H1 & H2 & H3).
  unfold encode_token in Hstep.
  destruct (token_to_id s !! token) as [i|] eqn:Ht.
  { by injection Hstep as <- <-. }
  destruct (next_id s <? vocab_size s) eqn:Hroom.
  2:{ by injection Hstep as <- <-. }
  apply Z.ltb_lt in Hroom. injection Hstep as <- <-.
  assert (id_to_token s !! next_id s = None) as Hfree.
  { destruct (id_to_token s !! next_id s) as [t|] eqn:Hn; [|done].
    apply Hbound in Hn. lia. }
  assert (∀ j t, id_to_token s !! j = Some t → j ≠ next_id s) as Hold.
  { intros j t Hj ->. congruence. }
  unfold tokenizer_wf. simpl.
  split; [|split;
    [|by rewrite !lookup_insert_ne by (symmetry; by eapply Hold)]].
  - intros t i. rewrite !lookup_insert_Some. split.
    + intros [[<- <-]|[Hne Hti]]; [by left|].
      right. apply Hmirror in Hti. split; [|done]. symmetry. by eapply Hold.
    + intros [[<- <-]|[Hne Hit]]; [by left|].
      right. apply Hmirror in Hit. split; [|done]. intros ->. congruence.
  - intros i t. rewrite lookup_insert_Some. pose proof (Hbound _ _ H3) as Hpos.
    intros [[<- <-]|[Hne Hit]]; [|apply Hbound in Hit]; lia.
Qed.

(** The loop over the kept tokens. *)
Lemma encode_loop_spec s tokens s1 ids :
  foldl encode_token (s, []) tokens = (s1, ids) →
  Forall2 (answers s1) tokens ids ∧
  vocab_size s1 = vocab_size s ∧
  next_id s ≤ next_id s1 ≤ next_id s + Z.of_nat (length tokens) ∧
  (∀ t0 i0, answers s t0 i0 → answers s1 t0 i0) ∧
  (tokenizer_wf s → tokenizer_wf s1) ∧
  (next_id s + Z.of_nat (length tokens) ≤ vocab_size s →
   Forall2 (λ t i, token_to_id s1 !! t = Some i) tokens ids) ∧
  (∀ t0 i0, token_to_id s !! t0 = Some i0 → token_to_id s1 !! t0 = Some i0) ∧
  (next_id s ≤ vocab_size s → next_id s1 ≤ vocab_size s).
Proof.
  revert s1 ids. induction tokens as [|t tokens IH] using rev_ind;
    intros s1 ids Hrun.
  - simpl in Hrun. injection Hrun as <- <-.
    split; [constructor|]. split; [done|]. split; [simpl; lia|].
    split; [done|]. split; [done|]. split; [intros _; constructor|done].
  - rewrite foldl_app in Hrun. simpl in Hrun.
    destruct (foldl encode_token (s, []) tokens) as [s0 ids0].
    destruct (IH s0 ids0 eq_refl)
      as (Hans & Hv & Hnext & Hkeep & Hwf & Hall & Hmono0 & Hcap).
    destruct (encode_token_answers _ _ _ _ _ Hrun)
      as (i & -> & Hi & Hv' & Hnext' & Hkeep' & Hmono & Hroom).
    rewrite length_app, Nat2Z.inj_add. change (Z.of_nat (length [t])) with 1.
    assert (next_id s ≤ next_id s1
            ≤ next_id s + (Z.of_nat (length tokens) + 1)) as Hn by lia.
    split; [|split; [congruence|split; [exact Hn|split; [by auto|
      split; [|split; [|split; [by auto|]]]]]]].
    + apply Forall2_app; [|by constructor].
      eapply Forall2_impl; [exact Hans|]. by auto.
    + intros Hs. eapply encode_token_wf; [exact Hrun|]. by apply Hwf.
    + intros Hfits. apply Forall2_app.
      * eapply Forall2_impl; [apply Hall; lia|]. intros t0 i0 H0.
        by apply Hmono.
      * constructor; [|constructor]. apply Hroom. rewrite Hv. lia.
    + intros Hle. specialize (Hcap Hle).
      unfold encode_token in Hrun.
      destruct (token_to_id s0 !! t); [injection Hrun as <- _; lia|].
      destruct (next_id s0 <? vocab_size s0) eqn:Hroom';
        [|injection Hrun as <- _; lia].
      apply Z.ltb_lt in Hroom'. injection Hrun as <- _. simpl. lia.
Qed.

Lemma encode_loop_again s ids0 tokens ids :
  Forall2 (answers s) tokens ids →
  foldl encode_token (s, ids0) tokens = (s, (ids0 ++ ids)%list).
Proof.
  intros H. revert ids0.
  induction H as [|t i tokens ids Hti _ IH]; intros ids0.
  - by rewrite app_nil_r.
  - cbn [foldl]. rewrite (encode_token_answered _ _ _ _ Hti), IH.
    by rewrite <- app_assoc.
Qed.

Lemma is_upper_lower_char c : is_upper (lower_char c) = false.
Proof. destruct c as [[] [] [] [] [] [] [] []]; reflexivity. Qed.

Lemma no_upper_lower text : no_upper (lower text) = true.
Proof.
  induction text as [|c text IH]; [done|].
  simpl. by rewrite is_upper_lower_char, IH.
Qed.

Lemma no_upper_app (a b : string) :
  no_upper (a ++ b) = no_upper a && no_upper b.
Proof.
  induction a as [|c a IH]; [done|]. simpl. rewrite IH. by rewrite andb_assoc.
Qed.

Lemma split_go_no_upper word text :
  no_upper word = true → no_upper text = true →
  Forall (λ t, no_upper t = true) (split_go word text).
Proof.
  revert word. induction text as [|c text IH]; intros word Hw Ht; simpl.
  - destruct (String.eqb word EmptyString); repeat constructor. done.
  - simpl in Ht. apply andb_true_iff in Ht as [Hc Ht].
    destruct (is_whitespace c).
    + destruct (String.eqb word EmptyString); [by apply IH|].
      constructor; [done|]. by apply IH.
    + apply IH; [|done]. rewrite no_upper_app, Hw. simpl. by rewrite Hc.
Qed.

Lemma split_lower_no_upper text :
  Forall (λ t, no_upper t = true) (split (lower text)).
Proof. apply split_go_no_upper; [done|apply no_upper_lower]. Qed.

Lemma py_slice_to_sublist {A} (P : A → Prop) stop (l : list A) :
  Forall P l → Forall P (py_slice_to stop l).
Proof. intros H. unfold py_slice_to. destruct (0 <=? stop); by apply Forall_take. Qed.

Lemma py_slice_to_take {A} stop (l : list A) :
  0 ≤ stop → py_slice_to stop l = take (Z.to_nat stop) l.
Proof. intros H. unfold py_slice_to. apply Z.leb_le in H. by rewrite H. Qed.
End TokenizerFacts.


Ltac list_len :=
  repeat (rewrite ?length_take, ?length_app, ?length_replicate; simpl); lia.

Ltac forall_parts :=
  repeat match goal with
  | |- Forall _ (_ :: _) => constructor
  | |- Forall _ (_ ++ _) => apply Forall_app; split
  | |- Forall _ [] => constructor
  | |- Forall _ (replicate _ _) => apply Forall_replicate
  end.

Lemma decode_words (tk : SimpleTokenizer) (tokens : list string) (ids : list Z) :
  (∀ t i, token_to_id tk !! t = Some i ↔ id_to_token tk !! i = Some t) →
  Forall (λ t, no_upper t = true) tokens →
  Forall2 (λ t i, token_to_id tk !! t = Some i) tokens ids →
  omap (decode_id tk) ids = tokens.
Proof.
  intros Hmirror Hlow Hall. induction Hall as [|t i ts js Hti _ IH]; [done|].
  inversion Hlow as [|? ? Ht Hts]; subst.
  change (omap (decode_id tk) (i :: js))
    with (match decode_id tk i with
          | Some y => y :: omap (decode_id tk) js
          | None => omap (decode_id tk) js
          end).
  rewrite (IH Hts). unfold decode_id. apply Hmirror in Hti. rewrite Hti.
  rewrite bool_decide_eq_false_2; [done|].
  intros Hin. repeat (apply elem_of_cons in Hin as [->|Hin]; [done|]).
  by apply elem_of_nil in Hin.
Qed.

Section TokenizerTheorems.
Implicit Types (tk : SimpleTokenizer) (tokens : list string) (ids : list Z).

#[local] Open Scope Z_scope.

(** X16. The layout of an encoding. For a [max_length] that is not
    negative, [input_ids] and [attention_mask] have exactly [max_length]
    entries. From [max_length] 2 on, [input_ids] is START (2), one id
    for each of the first [max_length - 2] words of the lower-cased text,
    END (3), then padding 0, and the mask is 1 up to and including END
    and 0 on the padding. *)
Theorem encode_layout text max_length tk :
  0 ≤ max_length →
  let enc := (encode text max_length tk).1 in
  Z.of_nat (length (input_ids enc)) = max_length ∧
  Z.of_nat (length (attention_mask enc)) = max_length ∧
  (2 ≤ max_length →
   ∃ ids,
     length ids = (length (split (lower text))
                     `min` Z.to_nat (max_length - 2))%nat ∧
     input_ids enc
     = (2 :: ids ++ 3 ::
          replicate (Z.to_nat (max_length - 2) - length ids)%nat 0)%list ∧
     attention_mask enc
     = (replicate (length ids + 2)%nat 1 ++
          replicate (Z.to_nat (max_length - 2) - length ids)%nat 0)%list).
Proof.
  intros Hm enc. subst enc. unfold encode, encode_tokens.
  destruct (foldl encode_token _ _) as [tk' ids] eqn:Hrun.
  destruct (encode_loop_spec _ _ _ _ Hrun) as (Hans & _).
  apply Forall2_length in Hans. simpl.
  rewrite !py_slice_to_take by done.
  split; [|split].
  - list_len.
  - list_len.
  - intros Hm2. rewrite py_slice_to_take in Hans by lia.
    rewrite length_take in Hans.
    exists ids. split; [lia|].
    assert (Z.to_nat (max_length - Z.of_nat (S (length (ids ++ [3]))))
            = (Z.to_nat (max_length - 2) - length ids)%nat) as Hpad.
    { list_len. }
    rewrite Hpad. split.
    + rewrite take_ge; [|list_len].
      simpl. by rewrite <- app_assoc.
    + rewrite take_ge; [|list_len].
      rewrite length_app. simpl length.
      by replace (length ids + 2)%nat with (S (length ids + 1)) by lia.
Qed.

(** X17. The tokenizer stays consistent and within its vocabulary. If
    the two dictionaries mirror each other with the special tokens at 0
    to 3 and [next_id] is at most [vocab_size], as in a new tokenizer of
    size 4 or more, then after [encode] the same holds, no entry of the
    vocabulary has been changed or dropped, and every id of [input_ids] is
    at least 0 and below [vocab_size]. *)
Theorem encode_within_vocabulary text max_length tk :
  tokenizer_wf tk → next_id tk ≤ vocab_size tk →
  let r := encode text max_length tk in
  tokenizer_wf r.2 ∧
  vocab_size r.2 = vocab_size tk ∧
  next_id tk ≤ next_id r.2 ≤ vocab_size tk ∧
  (∀ t i, token_to_id tk !! t = Some i → token_to_id r.2 !! t = Some i) ∧
  Forall (λ i, 0 ≤ i < vocab_size tk) (input_ids r.1) ∧
  Forall (λ b, b = 0 ∨ b = 1) (attention_mask r.1).
Proof.
  intros Hwf Hcap r. subst r. unfold encode, encode_tokens.
  destruct (foldl encode_token _ _) as [tk' ids] eqn:Hrun.
  destruct (encode_loop_spec _ _ _ _ Hrun)
    as (Hans & Hv & Hnext & _ & Hwf' & _ & Hmono & Hcap').
  specialize (Hwf' Hwf). specialize (Hcap' Hcap). simpl.
  split; [done|]. split; [done|]. split; [lia|]. split; [done|].
  destruct Hwf' as (Hmirror & Hbound & H0 & H1 & H2 & H3).
  pose proof (Hbound _ _ H0). pose proof (Hbound _ _ H2).
  pose proof (Hbound _ _ H3). pose proof (Hbound _ _ H1).
  split.
  - assert (Forall (λ i, 0 ≤ i < vocab_size tk) ids) as Hids.
    { clear Hrun Hnext.
      induction Hans as [|t i ts js Hti _ IH]; constructor; [|done].
      destruct Hti as [Hti|(_ & _ & ->)]; [|lia].
      apply Hmirror, Hbound in Hti. lia. }
    apply py_slice_to_sublist. forall_parts; first [exact Hids|lia].
  - apply py_slice_to_sublist. forall_parts; by auto.
Qed.

(** X18. Decoding an encoding gives the text back, lower-cased and with
    single spaces between the words, when the text fits ([max_length] at
    least its number of words plus 2) and the vocabulary has room for that
    many new words. *)
Theorem decode_encode text max_length tk :
  tokenizer_wf tk →
  Z.of_nat (length (split (lower text))) + 2 ≤ max_length →
  next_id tk + Z.of_nat (length (split (lower text))) ≤ vocab_size tk →
  let r := encode text max_length tk in
  decode (input_ids r.1) r.2 = String.concat " " (split (lower text)).
Proof.
  intros Hwf Hfit Hroom r. subst r. unfold encode, encode_tokens.
  rewrite (py_slice_to_take (max_length - 2)) by lia.
  rewrite take_ge by lia.
  destruct (foldl encode_token _ _) as [tk' ids] eqn:Hrun.
  destruct (encode_loop_spec _ _ _ _ Hrun)
    as (Hans & _ & _ & _ & Hwf' & Hall & _).
  specialize (Hwf' Hwf). specialize (Hall Hroom).
  destruct Hwf' as (Hmirror & _ & H0 & _ & H2 & H3). simpl.
  rewrite py_slice_to_take by lia. unfold decode. f_equal.
  pose proof (decode_words tk' _ ids Hmirror (split_lower_no_upper text) Hall)
    as Hids.
  assert (∀ n, omap (decode_id tk') (replicate n 0) = []) as Hpad.
  { intros n. induction n as [|n IH]; [done|]. simpl.
    unfold decode_id at 1. by rewrite H0. }
  rewrite firstn_all2.
  - simpl. unfold decode_id at 1. rewrite H2. simpl.
    rewrite !omap_app, Hids. simpl. unfold decode_id at 1. rewrite H3. simpl.
    by rewrite Hpad, !app_nil_r.
  - apply Forall2_length in Hall. list_len.
Qed.

(** X19. Encoding is repeatable: encoding the same text again, right
    after, returns the same ids and mask and leaves the tokenizer as the
    first call left it, whatever the state of the vocabulary. *)
Theorem encode_repeatable text max_length tk :
  let r := encode text max_length tk in
  encode text max_length r.2 = r.
Proof.
  intros r. subst r. unfold encode, encode_tokens.
  destruct (foldl encode_token (tk, []) _) as [tk' ids] eqn:Hrun.
  destruct (encode_loop_spec _ _ _ _ Hrun) as (Hans & _). simpl.
  by rewrite (encode_loop_again tk' [] _ ids Hans).
Qed.

(** X20. A full vocabulary. Once [next_id] has reached [vocab_size],
    [encode] no longer changes the tokenizer, and every id it returns is
    the id a known word already had, or 1 (UNK) for a word not in the
    vocabulary, or one of 2, 3 and 0. *)
Theorem encode_full_vocabulary text max_length tk :
  vocab_size tk ≤ next_id tk →
  let r := encode text max_length tk in
  r.2 = tk ∧
  Forall (λ i, i ∈ [0; 1; 2; 3] ∨ ∃ t, token_to_id tk !! t = Some i)
    (input_ids r.1).
Proof.
  intros Hfull r. subst r. unfold encode, encode_tokens.
  set (kept := py_slice_to (max_length - 2) (split (lower text))).
  assert (Forall2 (answers tk) kept
            ((λ t, default 1 (token_to_id tk !! t)) <$> kept)) as Hans.
  { apply Forall2_fmap_r. apply Forall_Forall2_diag.
    apply Forall_forall. intros t _. unfold answers, compose.
    destruct (token_to_id tk !! t); [by left|by right]. }
  rewrite (encode_loop_again tk [] _ _ Hans). simpl.
  split; [done|].
  apply py_slice_to_sublist. forall_parts; try (left; set_solver).
  apply Forall_fmap. apply Forall_forall. intros t _. simpl.
  destruct (token_to_id tk !! t) eqn:Ht; [right; by exists t|].
  left. set_solver.
Qed.
End TokenizerTheorems.

(** ** The worker's loop *)

Section WorkerFacts.
Context {num : Type} `{!Arith num}.
Implicit Types (st : CoordinatorServer num) (uid tid : string).

Lemma get_task_ledger user_id st :
  users (db (get_task user_id st).2) = users (db st) ∧
  transactions (db (get_task user_id st).2) = transactions (db st) ∧
  training_data (get_task user_id st).2 = training_data st ∧
  model (get_task user_id st).2 = model st.
Proof.
  unfold get_task. destruct (negb _); [done|].
  destruct (get_user _ _); [|done].
  by destruct (get_pending_task _).
Qed.

Lemma get_balance_state user_id st : (get_balance user_id st).2 = st.
Proof.
  unfold get_balance. destruct (negb _); [done|].
  by destruct (get_user_stats _ _).
Qed.

Lemma submit_result_ledger uid tid update n1 n2 st u :
  users (db st) !! uid = Some u →
  let r := submit_result (Some uid) (Some tid) (Some update) n1 n2 st in
  training_data r.2 = training_data st ∧
  (∀ other, other ≠ uid → users (db r.2) !! other = users (db st) !! other) ∧
  ((status_code r.1 = 200 ∧
    users (db r.2) !! uid = Some (credit tokens_per_task u) ∧
    transactions (db r.2)
    = (transactions (db st) ++
         [ {| tx_user_id := uid; amount := tokens_per_task;
              tx_type := "reward";
              description := "Completed training task " ++ tid;
              timestamp := n2 |} ])%list) ∨
   (status_code r.1 ≠ 200 ∧
    users (db r.2) !! uid = Some u ∧
    transactions (db r.2) = transactions (db st))).
Proof.
  intros Hu r. subst r. unfold submit_result.
  destruct (negb _).
  { split; [done|]. split; [done|]. right. cbn. split; [lia|done]. }
  cbn [default from_option id].
  assert (get_user uid (db st) = Some u) as Hg by done. rewrite Hg.
  destruct (aggregate_parameters _ _ _) as [[|] m].
  - unfold get_user. cbn [add_tokens users complete_task update_task].
    rewrite lookup_alter_eq, Hu. cbn [fmap option_fmap option_map snd fst db
      training_data users transactions].
    split; [done|]. split.
    { intros other Hne. cbn [add_tokens users complete_task update_task].
      by rewrite lookup_alter_ne. }
    left. split; [done|].
    cbn [add_tokens users transactions complete_task update_task].
    by rewrite lookup_alter_eq, Hu.
  - cbn [snd fst db training_data users transactions complete_task
         update_task status_code].
    split; [done|]. split; [done|]. right. split; [lia|done].
Qed.
End WorkerFacts.

Section WorkerTheorems.
Context {num : Type} `{!Arith num} {local : Type}.
Variable train_on_task :
  string → list string → gmap string (nested num) → local →
  option (gmap string (nested num)) * local.
Variable clock : nat → string * string.
Implicit Types (st : CoordinatorServer num) (uid tid : string) (w : local).

Lemma session_accounts_none uid num_tasks counted stopped w st u :
  users (db st) !! uid = Some u →
  (∀ n, num_tasks = Some n → stopped = true → counted ≤ n → counted = n) →
  (num_tasks = None → stopped = false) →
  session_accounts uid num_tasks counted st u (counted, stopped, w, st).
Proof.
  intros Hu Hstop Hnone. exists [], u. cbn [fst snd].
  rewrite Nat.sub_diag, app_nil_r.
  split; [done|]. split; [done|]. split; [done|]. split; [constructor|].
  split; [done|]. split; [done|]. split; [done|]. split; [done|].
  split; [done|]. destruct num_tasks as [n|]; [|by apply Hnone].
  intros Hle. split; [done|]. intros ->. by apply Hstop.
Qed.

Lemma session_accounts_skip uid num_tasks counted st st1 u
    (res : nat * bool * local * CoordinatorServer num) :
  users (db st1) = users (db st) →
  transactions (db st1) = transactions (db st) →
  training_data st1 = training_data st →
  session_accounts uid num_tasks counted st1 u res →
  session_accounts uid num_tasks counted st u res.
Proof.
  intros Husers Htx Htd (new & u' & H). exists new, u'.
  by rewrite <- Husers, <- Htx, <- Htd.
Qed.

Lemma session_accounts_reward uid num_tasks counted st st2 u tid now
    (res : nat * bool * local * CoordinatorServer num) :
  users (db st) !! uid = Some u →
  users (db st2) !! uid = Some (credit tokens_per_task u) →
  (∀ other, other ≠ uid → users (db st2) !! other = users (db st) !! other) →
  transactions (db st2)
  = (transactions (db st) ++
       [ {| tx_user_id := uid; amount := tokens_per_task; tx_type := "reward";
            description := "Completed training task " ++ tid;
            timestamp := now |} ])%list →
  training_data st2 = training_data st →
  (∀ n, num_tasks = Some n → counted < n) →
  session_accounts uid num_tasks (S counted) st2 (credit tokens_per_task u) res →
  session_accounts uid num_tasks counted st u res.
Proof.
  intros Hu Hu2 Hother Htx Htd Hroom
    (new & u' & Hle & Hlog & Hlen & Hnew & Hu' & Hc & Hbal & Hoth & Htd' & Hn).
  eexists (_ :: new), u'.
  replace (res.1.1.1 - counted) with (S (res.1.1.1 - S counted)) by lia.
  split; [lia|]. split; [by rewrite Hlog, Htx, <- app_assoc|].
  split; [simpl; lia|]. split; [by constructor|]. split; [done|].
  split; [done|]. split; [by rewrite Nat.iter_succ_r|].
  split; [intros other Hne; by rewrite Hoth, Hother|].
  split; [congruence|].
  destruct num_tasks as [n|]; [|done].
  intros _. apply Hn. by apply Hroom.
Qed.

Lemma work_rounds_accounts rounds :
  ∀ request num_tasks uid counted w st u,
    users (db st) !! uid = Some u →
    session_accounts uid num_tasks counted st u
      (HydraWorker.work_rounds train_on_task clock rounds request num_tasks
         uid counted w st).
Proof.
  induction rounds as [|rounds IH];
    intros request num_tasks uid counted w st u Hu.
  { apply session_accounts_none; [done|done|done]. }
  cbn [HydraWorker.work_rounds].
  destruct (match num_tasks with Some n => n <=? counted | None => false end)
    eqn:Hstop.
  { apply session_accounts_none; [done| |by intros ->].
    intros n -> _ Hle. apply Nat.leb_le in Hstop. lia. }
  unfold HydraWorker.get_task.
  pose proof (get_task_ledger (Some uid) st) as (Husers & Htx & Htd & _).
  destruct (get_task (Some uid) st) as [r st1]. cbn [snd] in Husers, Htx, Htd.
  assert (users (db st1) !! uid = Some u) as Hu1 by (by rewrite Husers).
  assert (∀ w1, session_accounts uid num_tasks counted st u
            (HydraWorker.work_rounds train_on_task clock rounds (S request)
               num_tasks uid counted w1 st1)) as Hskip.
  { intros w1. eapply session_accounts_skip; [done..|]. by apply IH. }
  destruct (status_code r =? 200); [|by apply Hskip].
  destruct r as [| |tid batch params reward| | | | | | |];
    try (eapply session_accounts_skip; [done..|];
         apply session_accounts_none; [done|by intros n _ [=]|done]).
  destruct (train_on_task tid batch params w) as [[update|] w1];
    [|by apply Hskip].
  unfold HydraWorker.submit_result, HydraWorker.check_balance.
  pose proof (submit_result_ledger uid tid update (clock (S request)).1
                (clock (S request)).2 st1 u Hu1) as (Htd2 & Hother & Hcase).
  destruct (submit_result _ _ _ _ _ st1) as [r2 st2].
  cbn [fst snd] in Htd2, Hother, Hcase.
  assert (∀ c, (if c mod 5 =? 0
                then (let '(r0, st') := get_balance (Some uid) st2 in
                      (if status_code r0 =? 200 then Some r0 else None, st')).2
                else st2) = st2) as Hbal.
  { intros c. destruct (c mod 5 =? 0); [|done].
    pose proof (get_balance_state (Some uid) st2) as Hsame.
    by destruct (get_balance (Some uid) st2). }
  rewrite Hbal.
  destruct Hcase as [(H200 & Hu2 & Htx2)|(Hn200 & Hu2 & Htx2)].
  - rewrite H200. cbn [Nat.eqb].
    eapply session_accounts_skip; [done..|].
    eapply session_accounts_reward; [done..| |by apply IH].
    intros n ->. apply Nat.leb_gt in Hstop. lia.
  - apply Nat.eqb_neq in Hn200. rewrite Hn200.
    eapply session_accounts_skip; [done..|].
    eapply session_accounts_skip; [| | |by apply IH].
    + apply map_eq. intros other. destruct (decide (other = uid)) as [->|Hne].
      * by rewrite Hu2.
      * by apply Hother.
    + done.
    + done.
Qed.

Lemma register_worker_accounts uid now st :
  uid ≠ EmptyString →
  let r := register_worker (Some uid) now st in
  status_code r.1 = 200 ∧
  transactions (db r.2) = transactions (db st) ∧
  tasks (db r.2) = tasks (db st) ∧
  training_data r.2 = training_data st ∧
  model r.2 = model st ∧
  (∀ other, other ≠ uid → users (db r.2) !! other = users (db st) !! other) ∧
  ∃ u', users (db r.2) !! uid = Some u' ∧
        total_tokens u'
        = from_option total_tokens num_zero (users (db st) !! uid).
Proof.
  intros Hne r. subst r. unfold register_worker.
  apply truthy_str_Some in Hne. rewrite Hne. cbn [negb default from_option id].
  unfold create_user, get_user.
  destruct (users (db st) !! uid) as [u|] eqn:Hu.
  - rewrite Hu. cbn. repeat (split; [done|]). by exists u.
  - cbn. repeat (split; [done|]).
    split; [intros other Ho; by rewrite lookup_insert_ne|].
    eexists. by rewrite lookup_insert_eq.
Qed.

(** X21. The session counter of [work_loop] is the worker's pay. If the
    user id is empty, registration fails and nothing happens. Otherwise,
    however the training goes and whenever the loop is interrupted
    between two iterations, the balance of the worker has been raised by
    the reward once for every task the loop has counted, the log has
    gained exactly one reward record of this worker per counted task, no
    other account has changed, and the counter does not pass [num_tasks]
    and has reached it when the loop stopped by itself. *)
Theorem work_loop_accounting rounds num_tasks uid w st :
  let s := HydraWorker.work_loop train_on_task clock rounds num_tasks uid w st in
  HydraWorker.registered s = truthy_str (Some uid) ∧
  (uid = EmptyString →
   HydraWorker.coordinator s = st ∧ HydraWorker.tasks_completed s = 0) ∧
  (uid ≠ EmptyString →
   ∃ new u',
     transactions (db (HydraWorker.coordinator s))
     = (transactions (db st) ++ new)%list ∧
     length new = HydraWorker.tasks_completed s ∧
     session_rewards uid new ∧
     users (db (HydraWorker.coordinator s)) !! uid = Some u' ∧
     total_tokens u'
     = Nat.iter (HydraWorker.tasks_completed s)
         (λ b, num_add b tokens_per_task)
         (from_option total_tokens num_zero (users (db st) !! uid)) ∧
     (∀ other, other ≠ uid →
        users (db (HydraWorker.coordinator s)) !! other
        = users (db st) !! other) ∧
     match num_tasks with
     | Some n => HydraWorker.tasks_completed s ≤ n ∧
                 (HydraWorker.stopped s = true →
                  HydraWorker.tasks_completed s = n)
     | None => HydraWorker.stopped s = false
     end).
Proof.
  intros s. subst s. unfold HydraWorker.work_loop, HydraWorker.register.
  destruct (decide (uid = EmptyString)) as [->|Hne].
  { by cbn. }
  pose proof (register_worker_accounts uid (clock 0).1 st Hne)
    as (H200 & Htx & _ & Htd & _ & Hother & u0 & Hu0 & Hbal0).
  destruct (register_worker (Some uid) (clock 0).1 st) as [r st0].
  cbn [fst snd] in H200, Htx, Htd, Hother, Hu0, Hbal0.
  rewrite H200. cbn [Nat.eqb negb].
  pose proof (work_rounds_accounts rounds 0 num_tasks uid 0 w st0 u0 Hu0)
    as (new & u' & _ & Hlog & Hlen & Hnew & Hu' & _ & Hbal & Hoth & _ & Hn).
  destruct (HydraWorker.work_rounds _ _ _ _ _ _ _ _ _)
    as [[[counted stopped] w'] st'].
  cbn [fst snd] in Hlog, Hlen, Hnew, Hu', Hbal, Hoth, Hn.
  rewrite Nat.sub_0_r in Hlen, Hbal.
  unfold HydraWorker.check_balance.
  pose proof (get_balance_state (Some uid) st') as Hsame.
  destruct (get_balance (Some uid) st') as [r1 st1]. cbn [snd] in Hsame.
  subst st1.
  cbn [HydraWorker.registered HydraWorker.tasks_completed HydraWorker.stopped
       HydraWorker.coordinator snd].
  split; [symmetry; by apply truthy_str_Some|]. split; [done|]. intros _.
  exists new, u'. split; [congruence|]. split; [done|]. split; [done|].
  split; [done|]. split; [congruence|].
  split; [intros other Ho; by rewrite Hoth, Hother|].
  destruct num_tasks as [n|]; [apply Hn; lia|done].
Qed.
End WorkerTheorems.

Section WorkerProgress.
Context {num : Type} `{!Arith num} {local : Type}.
Variable train_on_task :
  string → list string → gmap string (nested num) → local →
  option (gmap string (nested num)) * local.
Variable clock : nat → string * string.
Implicit Types (st : CoordinatorServer num) (uid tid : string) (w : local).

Lemma aggregate_parameters_wf update rate (model : gmap string (nested num)) :
  store_wf model → store_wf (aggregate_parameters update rate model).2.
Proof.
  intros Hwf k g' Hg'.
  destruct (model !! k) as [g|] eqn:Hg.
  - destruct (aggregate_parameters_lookup update rate model k g Hg)
      as [Hsame|(c & t & _ & Ht & Hk & _)].
    + rewrite Hsame in Hg'. injection Hg' as <-. by apply (Hwf k).
    + rewrite Hk in Hg'. injection Hg' as <-.
      destruct (torch_tensor_Some _ _ Ht) as (s & _ & _ & _ & Hs & _).
      by eexists.
  - apply not_elem_of_dom in Hg.
    rewrite <- (aggregate_parameters_dom update rate model) in Hg.
    apply not_elem_of_dom in Hg. congruence.
Qed.

Lemma pending_tasks_split (l1 l2 : list (task_row num)) t :
  length (List.filter (λ t, bool_decide (status t = pending))
            (l1 ++ t :: l2)%list)
  = length (List.filter (λ t, bool_decide (status t = pending)) l1)
    + (if bool_decide (status t = pending) then 1 else 0)
    + length (List.filter (λ t, bool_decide (status t = pending)) l2).
Proof.
  rewrite List.filter_app, length_app. simpl.
  destruct (bool_decide (status t = pending)); simpl; lia.
Qed.

Lemma worker_round_table st uid u :
  reachable st → uid ≠ EmptyString → users (db st) !! uid = Some u →
  store_wf (model st) → pending_tasks st ≠ [] →
  ∃ task st1,
    get_task (Some uid) st
    = (TaskIssued (task_id task) (data_batch task) (model st)
         (tokens_reward task), st1) ∧
    ∀ update n1 n2,
      well_shaped update (model st) → update ≠ ∅ →
      ∃ r2 st2,
        submit_result (Some uid) (Some (task_id task)) (Some update) n1 n2 st1
        = (r2, st2) ∧
        status_code r2 = 200 ∧
        reachable st2 ∧ store_wf (model st2) ∧
        dom (model st2) = dom (model st) ∧
        is_Some (users (db st2) !! uid) ∧
        S (length (pending_tasks st2)) = length (pending_tasks st) ∧
        completed_by uid (db st2) = S (completed_by uid (db st)).
Proof.
  intros Hreach Hne Hu Hwf Hpending.
  destruct (get_pending_task (db st)) as [task|] eqn:Hpend; last first.
  { exfalso. apply Hpending. unfold get_pending_task in Hpend.
    apply find_none_all in Hpend. unfold pending_tasks.
    induction Hpend as [|t l Ht _ IH]; [done|]. simpl. by rewrite Ht. }
  destruct (reachable_task_inv st Hreach) as [Hnd Hrows].
  destruct (get_pending_task_Some _ _ Hpend) as (l1 & l2 & Hl & Hp & _).
  assert (task ∈ tasks (db st)) as Hin.
  { rewrite Hl. apply elem_of_app. right. by left. }
  destruct (proj1 (Forall_forall _ _) Hrows task Hin)
    as (_ & _ & Hpnone & _ & _ & _ & _ & _ & [hex Hhex]).
  destruct (Hpnone Hp) as (Hanone & _ & _).
  pose proof (update_task_split (set_assigned uid) (db st) l1 l2 task Hnd Hl)
    as Hl1.
  assert (NoDup (task_id <$> tasks (assign_task (task_id task) uid (db st))))
    as Hnd1.
  { unfold assign_task. by rewrite update_task_ids. }
  pose proof Hne as Htruthy. apply truthy_str_Some in Htruthy.
  assert (get_task (Some uid) st
          = (TaskIssued (task_id task) (data_batch task) (model st)
               (tokens_reward task),
             with_db (assign_task (task_id task) uid (db st)) st)) as Hget.
  { unfold get_task, get_user. rewrite Htruthy.
    cbn [negb default from_option id]. by rewrite Hu, Hpend. }
  set (st1 := with_db (assign_task (task_id task) uid (db st)) st) in *.
  assert (reachable st1) as Hreach1.
  { replace st1 with (step (GetTask (Some uid)) st) by (simpl; by rewrite Hget).
    by constructor. }
  exists task, st1. split; [done|]. intros update n1 n2 Hws Hnonempty.
  pose proof (update_task_split (set_completed update n1)
                (assign_task (task_id task) uid (db st)) l1 l2
                (set_assigned uid task) Hnd1 Hl1) as Hl2.
  simpl task_id in Hl2.
  destruct (submit_result (Some uid) (Some (task_id task)) (Some update)
              n1 n2 st1) as [r2 st2] eqn:Hsub.
  assert (reachable st2) as Hreach2.
  { replace st2 with (step (SubmitResult (Some uid) (Some (task_id task))
                              (Some update) n1 n2) st1)
      by (simpl; by rewrite Hsub).
    by constructor. }
  exists r2, st2. split; [done|].
  unfold submit_result in Hsub.
  assert (truthy_str (Some (task_id task)) = true) as Htid.
  { rewrite Hhex. reflexivity. }
  assert (truthy_dict (Some update) = true) as Hdict.
  { unfold truthy_dict. apply negb_true_iff, Nat.eqb_neq.
    intros Hsize. by apply map_size_empty_iff in Hsize. }
  rewrite Htruthy, Htid, Hdict in Hsub.
  cbn [andb negb default from_option id] in Hsub.
  assert (get_user uid (db st1) = Some u) as Hu1 by done.
  rewrite Hu1 in Hsub.
  pose proof (aggregate_parameters_Ok update num_tenth (model st1) Hwf Hws)
    as Hok.
  pose proof (aggregate_parameters_wf update num_tenth (model st1) Hwf) as Hwf2.
  pose proof (aggregate_parameters_dom update num_tenth (model st1)) as Hdom.
  destruct (aggregate_parameters update num_tenth (model st1)) as [o m].
  cbn [fst snd] in Hok, Hwf2, Hdom. subst o.
  unfold get_user in Hsub.
  cbn [add_tokens users complete_task update_task] in Hsub.
  rewrite lookup_alter_eq in Hsub.
  change (users (db st1)) with (users (db st)) in Hsub. rewrite Hu in Hsub.
  cbn [fmap option_fmap option_map] in Hsub.
  injection Hsub as <- <-.
  split; [done|]. split; [done|]. split; [done|]. split; [done|].
  split.
  { cbn [db users add_tokens complete_task update_task].
    rewrite lookup_alter_eq. cbn [assign_task update_task users].
    by rewrite Hu. }
  assert (tasks (complete_task (task_id task) update n1
                   (assign_task (task_id task) uid (db st)))
          = (l1 ++ set_completed update n1 (set_assigned uid task) :: l2)%list)
    as Htasks by exact Hl2.
  split.
  - unfold pending_tasks. cbn [db tasks add_tokens]. rewrite Htasks, Hl.
    rewrite !pending_tasks_split.
    cbn [status set_completed set_assigned].
    rewrite (bool_decide_eq_true_2 (status task = pending)) by done.
    rewrite (bool_decide_eq_false_2 (completed = pending)) by done.
    lia.
  - rewrite (completed_by_split uid _ l1 l2
               (set_completed update n1 (set_assigned uid task)));
      [|exact Htasks].
    rewrite (completed_by_split uid (db st) l1 l2 task Hl).
    cbn [assigned_to status set_completed set_assigned].
    rewrite Hanone.
    rewrite (bool_decide_eq_true_2 (Some uid = Some uid)) by done.
    rewrite (bool_decide_eq_true_2 (completed = completed)) by done.
    rewrite (bool_decide_eq_false_2 (None = Some uid)) by done.
    cbn [andb]. lia.
Qed.

Lemma check_balance_state uid st : (HydraWorker.check_balance uid st).2 = st.
Proof.
  unfold HydraWorker.check_balance.
  pose proof (get_balance_state (Some uid) st) as Hsame.
  by destruct (get_balance (Some uid) st).
Qed.

Lemma work_rounds_progress uid k :
  ∀ rounds request n counted w st,
    keeps_layout train_on_task → uid ≠ EmptyString →
    n = counted + k → k < rounds →
    reachable st → is_Some (users (db st) !! uid) →
    store_wf (model st) → model st ≠ ∅ →
    k ≤ length (pending_tasks st) →
    ∃ w' st',
      HydraWorker.work_rounds train_on_task clock rounds request (Some n)
        uid counted w st = (n, true, w', st') ∧
      reachable st' ∧
      length (pending_tasks st') + k = length (pending_tasks st) ∧
      completed_by uid (db st') = completed_by uid (db st) + k.
Proof.
  induction k as [|k IH];
    intros rounds request n counted w st Htrain Hne Hn Hrounds Hreach
      [u Hu] Hwf Hmodel Hpending;
    (destruct rounds as [|rounds]; [lia|]); cbn [HydraWorker.work_rounds].
  - rewrite (proj2 (Nat.leb_le n counted)) by lia.
    exists w, st. replace n with counted by lia. split; [done|].
    split; [done|]. split; lia.
  - rewrite (proj2 (Nat.leb_gt n counted)) by lia.
    destruct (worker_round_table st uid u Hreach Hne Hu Hwf)
      as (task & st1 & Hget & Hround).
    { intros Hnil. rewrite Hnil in Hpending. simpl in Hpending. lia. }
    unfold HydraWorker.get_task. rewrite Hget. cbn [status_code Nat.eqb].
    destruct (Htrain (task_id task) (data_batch task) (model st) w Hwf Hmodel)
      as (update & Htr & Hnonempty & Hws).
    destruct (train_on_task _ _ _ w) as [o w1]. cbn [fst] in Htr. subst o.
    destruct (Hround update (clock (S request)).1 (clock (S request)).2
                Hws Hnonempty)
      as (r2 & st2 & Hsub & H200 & Hreach2 & Hwf2 & Hdom & Hu2 & Hpend & Hdone).
    unfold HydraWorker.submit_result. rewrite Hsub, H200. cbn [Nat.eqb].
    assert ((if S counted mod 5 =? 0
             then (HydraWorker.check_balance uid st2).2 else st2) = st2)
      as ->.
    { destruct (S counted mod 5 =? 0); [apply check_balance_state|done]. }
    destruct (IH rounds (S request) n (S counted) w1 st2)
      as (w' & st' & Hrun & Hreach' & Hpend' & Hdone');
      [done|done|lia|lia|done|done|done| |lia|].
    { intros Hempty. apply Hmodel. apply dom_empty_iff_L.
      rewrite <- Hdom, Hempty. apply dom_empty_L. }
    exists w', st'. split; [done|]. split; [done|]. split; lia.
Qed.

(** X22. A worker that trains reliably gets its tasks done. In a
    reachable state whose model is rectangular and not empty, let a
    worker with a non-empty id ask for [n] tasks when at least [n] are
    pending, and let its training always return parameters in the layout
    it was handed. Served alone and not interrupted before round [n + 1],
    [work_loop] registers, completes exactly [n] tasks and stops by
    itself; [n] tasks have left the pending ones and [n] more count as
    completed by this worker. *)
Theorem work_loop_completes n rounds uid w st :
  keeps_layout train_on_task →
  reachable st → uid ≠ EmptyString →
  store_wf (model st) → model st ≠ ∅ →
  n ≤ length (pending_tasks st) → n < rounds →
  let s := HydraWorker.work_loop train_on_task clock rounds (Some n) uid w st in
  HydraWorker.registered s = true ∧
  HydraWorker.stopped s = true ∧
  HydraWorker.tasks_completed s = n ∧
  length (pending_tasks (HydraWorker.coordinator s)) + n
  = length (pending_tasks st) ∧
  completed_by uid (db (HydraWorker.coordinator s))
  = completed_by uid (db st) + n.
Proof.
  intros Htrain Hreach Hne Hwf Hmodel Hpending Hrounds s. subst s.
  unfold HydraWorker.work_loop, HydraWorker.register.
  pose proof (register_worker_accounts uid (clock 0).1 st Hne)
    as (H200 & _ & Htasks & _ & Hsame & _ & u0 & Hu0 & _).
  assert (reachable (register_worker (Some uid) (clock 0).1 st).2) as Hreach0.
  { by apply (reachable_step (Register (Some uid) (clock 0).1)). }
  destruct (register_worker (Some uid) (clock 0).1 st) as [r st0].
  cbn [fst snd] in H200, Htasks, Hsame, Hu0, Hreach0.
  rewrite H200. cbn [Nat.eqb negb].
  destruct (work_rounds_progress uid n rounds 0 n 0 w st0)
    as (w' & st' & Hrun & _ & Hpend & Hdone);
    [done|done|done|done|done|by eexists|by rewrite Hsame|by rewrite Hsame| |].
  { unfold pending_tasks. by rewrite Htasks. }
  rewrite Hrun, check_balance_state.
  cbn [HydraWorker.registered HydraWorker.tasks_completed HydraWorker.stopped
       HydraWorker.coordinator].
  split; [done|]. split; [done|]. split; [done|].
  unfold pending_tasks, completed_by in *. rewrite Htasks in Hpend, Hdone.
  done.
Qed.
End WorkerProgress.

(** ** The coordinator URL of the two clients *)

Lemma rstrip_slash_cons c rest :
  rstrip_slash (String c rest)
  = match rstrip_slash rest with
    | EmptyString => if is_slash c then EmptyString else String c EmptyString
    | stripped => String c stripped
    end.
Proof. done. Qed.

Lemma endswith_slash_rstrip url : endswith_slash (rstrip_slash url) = false.
Proof.
  induction url as [|c rest IH]; [done|]. rewrite rstrip_slash_cons.
  destruct (rstrip_slash rest) as [|c' r].
  - destruct (is_slash c) eqn:Hc; [done|]. simpl. by rewrite Hc.
  - exact IH.
Qed.

Lemma rstrip_slash_id url : endswith_slash url = false → rstrip_slash url = url.
Proof.
  induction url as [|c rest IH]; [done|]. rewrite rstrip_slash_cons.
  destruct rest as [|c' rest].
  - simpl. by intros ->.
  - intros Hends. by rewrite IH.
Qed.

Lemma rstrip_slash_without_last url :
  endswith_slash url = true → rstrip_slash (without_last url) = rstrip_slash url.
Proof.
  induction url as [|c rest IH]; [done|].
  destruct rest as [|c' rest].
  - simpl. by intros ->.
  - intros Hends.
    change (without_last (String c (String c' rest)))
      with (String c (without_last (String c' rest))).
    rewrite (rstrip_slash_cons c (without_last _)).
    rewrite (rstrip_slash_cons c (String c' rest)).
    by rewrite (IH Hends).
Qed.

(** X23. The two clients clean the coordinator URL differently. The query
    client removes every trailing slash, so its URL never ends in one;
    the worker removes one. Both leave a URL without a trailing slash
    alone. The worker's URL is the query client's exactly when it no
    longer ends in a slash, that is, unless the given URL ended in two or
    more. *)
Theorem coordinator_url_trailing_slash url :
  endswith_slash (query_coordinator_url url) = false ∧
  (endswith_slash url = false →
   worker_coordinator_url url = url ∧ query_coordinator_url url = url) ∧
  query_coordinator_url (worker_coordinator_url url)
  = query_coordinator_url url ∧
  (worker_coordinator_url url = query_coordinator_url url
   ↔ endswith_slash (worker_coordinator_url url) = false).
Proof.
  unfold query_coordinator_url.
  assert (rstrip_slash (worker_coordinator_url url) = rstrip_slash url)
    as Hsame.
  { unfold worker_coordinator_url.
    destruct (endswith_slash url) eqn:Hends; [|done].
    by apply rstrip_slash_without_last. }
  split; [apply endswith_slash_rstrip|]. split; [|split; [done|split]].
  - intros Hends. unfold worker_coordinator_url. rewrite Hends.
    split; [done|by apply rstrip_slash_id].
  - intros ->. apply endswith_slash_rstrip.
  - intros Hends. rewrite <- Hsame. symmetry. by apply rstrip_slash_id.
Qed.

(** ** Worked examples *)

Lemma task_table_invariant_witness :
  reachable alice_done ∧
  NoDup (task_id <$> tasks (db alice_done)) ∧
  ∀ uid, assigned_to (set_completed bias_update "2024-05-01T09:05:00"
                        (set_assigned "alice" demo_task)) = Some uid →
         is_Some (get_user uid (db alice_done)).
Proof.
  split; [exact alice_done_reachable|].
  destruct (task_table_invariant alice_done alice_done_reachable)
    as [Hnd Hrows].
  split; [exact Hnd|].
  apply (Hrows (set_completed bias_update "2024-05-01T09:05:00"
                  (set_assigned "alice" demo_task))).
  left.
Defined.

Lemma task_reward_and_batch_witness :
  reachable two_workers ∧ demo_task ∈ tasks (db two_workers) ∧
  tokens_reward demo_task = tokens_per_task ∧
  (∃ hex, task_id demo_task = "task-" ++ hex) ∧
  length (data_batch demo_task) ≤ 3 ∧
  ∀ x, x ∈ data_batch demo_task → x ∈ training_data two_workers.
Proof.
  split; [exact two_workers_reachable|].
  assert (demo_task ∈ tasks (db two_workers)) as Hin by left.
  split; [exact Hin|].
  exact (task_reward_and_batch two_workers demo_task two_workers_reachable Hin).
Defined.

Lemma task_rows_persist_witness :
  reachable alice_holds_task ∧
  tasks (db alice_holds_task) !! 0 = Some (set_assigned "alice" demo_task) ∧
  ∃ t', tasks (db (run [GetTask (Some "bob");
                        Register (Some "carol") "2024-05-01T09:03:00";
                        GenerateTasks 2 later_rnd] alice_holds_task)) !! 0
        = Some t' ∧
        task_id t' = "task-3f9a2c00" ∧
        status t' ≠ pending ∧ assigned_to t' = Some "alice".
Proof.
  assert (reachable alice_holds_task) as Hreach.
  { constructor 2. exact two_workers_reachable. }
  split; [exact Hreach|]. split; [reflexivity|].
  destruct (task_rows_persist alice_holds_task
              [GetTask (Some "bob");
               Register (Some "carol") "2024-05-01T09:03:00";
               GenerateTasks 2 later_rnd] 0
              (set_assigned "alice" demo_task) Hreach eq_refl)
    as (t' & Ht' & Hid & _ & _ & _ & Hkeeps & _).
  exists t'. split; [exact Ht'|]. split; [exact Hid|].
  apply Hkeeps. discriminate.
Defined.

Lemma get_task_never_reissues_witness :
  reachable two_workers ∧
  get_task (Some "alice") two_workers
  = (TaskIssued "task-3f9a2c00" ["a"; "c"; "b"] small_model 1%Q,
     alice_holds_task) ∧
  (get_task (Some "bob")
     (run [Register (Some "carol") "2024-05-01T09:03:00";
           GetTask (Some "carol")] alice_holds_task)).1
  ≠ TaskIssued "task-3f9a2c00" ["a"; "c"; "b"] small_model 1%Q.
Proof.
  split; [exact two_workers_reachable|]. split; [reflexivity|].
  apply (get_task_never_reissues two_workers (Some "alice") "task-3f9a2c00"
           ["a"; "c"; "b"] small_model 1%Q alice_holds_task).
  - exact two_workers_reachable.
  - reflexivity.
Defined.

Lemma get_task_first_pending_witness :
  reachable two_workers ∧
  get_task (Some "bob") two_workers
  = (TaskIssued "task-3f9a2c00" ["a"; "c"; "b"] (model two_workers) 1%Q,
     with_db {| users := users (db two_workers);
                tasks := [set_assigned "bob" demo_task];
                transactions := transactions (db two_workers) |}
       two_workers) ∧
  get_task (Some "bob") alice_done = (NoTasksAvailable, alice_done).
Proof.
  split; [exact two_workers_reachable|]. split.
  - destruct (get_task_first_pending two_workers "bob" two_workers_reachable)
      as [_ Hfirst]; [discriminate|by eexists|].
    apply (Hfirst [] demo_task []); [reflexivity|constructor|reflexivity].
  - destruct (get_task_first_pending alice_done "bob" alice_done_reachable)
      as [Hnone _]; [discriminate|by eexists|].
    apply Hnone. repeat constructor. discriminate.
Defined.

Lemma worker_round_witness :
  reachable two_workers ∧
  get_task (Some "alice") two_workers
  = (TaskIssued "task-3f9a2c00" ["a"; "c"; "b"] small_model 1%Q,
     alice_holds_task) ∧
  (submit_result (Some "alice") (Some "task-3f9a2c00") (Some bias_update)
     "2024-05-01T09:05:00" "2024-05-01T09:05:01" alice_holds_task).1
  = TaskCompleted 1%Q 1%Q ∧
  get_balance (Some "alice") alice_done
  = (Stats {| stats_user_id := "alice"; stats_total_tokens := 1%Q;
              tasks_completed := 1;
              member_since := "2024-05-01T09:01:00" |}, alice_done).
Proof.
  split; [exact two_workers_reachable|]. split; [reflexivity|].
  assert (aggregate_parameters bias_update num_tenth (model two_workers)
          = (Ok, (aggregate_parameters bias_update num_tenth small_model).2))
    as Hblend by (vm_compute; reflexivity).
  destruct (worker_round two_workers "alice" "task-3f9a2c00" ["a"; "c"; "b"]
              small_model 1%Q alice_holds_task bias_update
              (aggregate_parameters bias_update num_tenth small_model).2
              "2024-05-01T09:05:00" "2024-05-01T09:05:01"
              two_workers_reachable eq_refl eq_refl Hblend)
    as (u & task & Hu & _ & _ & _ & _ & Hanswer & Hstats & _).
  injection Hu as <-. split; [exact Hanswer|exact Hstats].
Defined.

Lemma background_task_generator_replenishes_witness :
  (background_task_generator later_rnd alice_done).1 = Ok ∧
  get_pending_task (db alice_done) = None ∧
  is_Some (get_pending_task
             (db (background_task_generator later_rnd alice_done).2)) ∧
  length (tasks (db (background_task_generator later_rnd alice_done).2)) = 11.
Proof.
  split; [reflexivity|]. split; [reflexivity|].
  destruct (background_task_generator_replenishes later_rnd alice_done eq_refl)
    as (Hsome & _ & Hlen).
  split; [exact Hsome|]. rewrite (Hlen eq_refl). reflexivity.
Defined.

Lemma register_then_get_balance_witness :
  reachable alice_done ∧ get_user "carol" (db alice_done) = None ∧
  let r := register_worker (Some "carol") "2024-05-02T08:00:00" alice_done in
  r.1 = Registered "carol" 0%Q ∧
  get_balance (Some "carol") r.2
  = (Stats {| stats_user_id := "carol"; stats_total_tokens := 0%Q;
              tasks_completed := 0;
              member_since := "2024-05-02T08:00:00" |}, r.2) ∧
  tasks (db r.2) = tasks (db alice_done) ∧
  transactions (db r.2) = transactions (db alice_done).
Proof.
  split; [exact alice_done_reachable|]. split; [reflexivity|].
  assert ("carol" ≠ EmptyString) as Hne by discriminate.
  exact (register_then_get_balance alice_done "carol" "2024-05-02T08:00:00"
           alice_done_reachable Hne eq_refl).
Defined.

Lemma balance_moves_witness :
  users (db alice_done) !! "alice" = Some (alice_row 1) ∧
  ((∃ u, users (db alice_holds_task) !! "alice" = Some u ∧
         created_at (alice_row 1) = created_at u ∧
         (total_tokens (alice_row 1) = total_tokens u ∨
          total_tokens (alice_row 1) = num_add (total_tokens u) tokens_per_task ∨
          (num_ltb (total_tokens u) tokens_cost = false ∧
           total_tokens (alice_row 1)
           = num_add (total_tokens u) (num_neg tokens_cost))))
   ∨ (users (db alice_holds_task) !! "alice" = None ∧
      "alice" ≠ EmptyString ∧ total_tokens (alice_row 1) = num_zero)).
Proof.
  split; [reflexivity|].
  apply (balance_moves
           (SubmitResult (Some "alice") (Some "task-3f9a2c00")
              (Some bias_update) "2024-05-01T09:05:00" "2024-05-01T09:05:01")
           alice_holds_task "alice" (alice_row 1)).
  reflexivity.
Defined.

Lemma transaction_log_records_witness :
  reachable alice_done ∧
  length (transactions (db alice_done)) = 1 ∧
  ∀ tx, tx ∈ transactions (db alice_done) →
    is_Some (get_user (tx_user_id tx) (db alice_done)) ∧
    ((tx_type tx = "reward" ∧ amount tx = tokens_per_task ∧
      ∃ tid, description tx = "Completed training task " ++ tid) ∨
     (tx_type tx = "query" ∧ amount tx = num_neg tokens_cost ∧
      description tx = "Model query")).
Proof.
  split; [exact alice_done_reachable|]. split; [reflexivity|].
  exact (proj1 (transaction_log_records alice_done alice_done_reachable)).
Defined.

Lemma balance_never_negative_witness :
  reachable alice_done ∧
  get_user "alice" (db alice_done) = Some (alice_row 1) ∧
  (0 <= total_tokens (alice_row 1))%Q.
Proof.
  split; [exact alice_done_reachable|]. split; [reflexivity|].
  apply (balance_never_negative alice_done "alice" (alice_row 1)).
  - exact alice_done_reachable.
  - reflexivity.
Defined.

Lemma trained_model_wf : store_wf trained_model.
Proof. apply (bool_decide_unpack _). vm_compute. exact I. Qed.

Lemma trained_model_tensors : tensor_store trained_model.
Proof.
  apply map_Forall_insert_2; [reflexivity|].
  apply map_Forall_singleton. reflexivity.
Qed.

Lemma set_parameters_same_layout_witness :
  store_wf trained_model ∧
  (shape_of <$> trained_model) = (shape_of <$> small_model) ∧
  tensor_store trained_model ∧
  set_parameters trained_model small_model = (Ok, trained_model) ∧
  set_parameters (get_trainable_parameters trained_model) trained_model
  = (Ok, trained_model).
Proof.
  split; [exact trained_model_wf|].
  assert ((shape_of <$> trained_model) = (shape_of <$> small_model)) as Hlayout
    by reflexivity.
  split; [exact Hlayout|]. split; [exact trained_model_tensors|].
  destruct (set_parameters_same_layout trained_model small_model)
    as (loaded & Hset & _ & _ & Hsame & Hagain).
  - exact trained_model_wf.
  - intros k. rewrite <- !lookup_fmap. by rewrite Hlayout.
  - rewrite (Hsame trained_model_tensors) in Hset, Hagain.
    split; [exact Hset|exact Hagain].
Defined.

Lemma encode_layout_witness :
  let enc := (encode "The quick brown fox" 8 (new_tokenizer 10000)).1 in
  (0 ≤ 8)%Z ∧
  Z.of_nat (length (input_ids enc)) = 8%Z ∧
  Z.of_nat (length (attention_mask enc)) = 8%Z ∧
  input_ids enc = [2; 4; 5; 6; 7; 3; 0; 0]%Z ∧
  attention_mask enc = [1; 1; 1; 1; 1; 1; 0; 0]%Z.
Proof.
  assert (0 ≤ 8)%Z as Hm by lia.
  destruct (encode_layout "The quick brown fox" 8 (new_tokenizer 10000) Hm)
    as (Hids & Hmask & _).
  split; [exact Hm|]. split; [exact Hids|]. split; [exact Hmask|].
  split; reflexivity.
Defined.

Lemma encode_within_vocabulary_witness :
  let r := encode "The quick brown fox" 8 (new_tokenizer 10000) in
  tokenizer_wf (new_tokenizer 10000) ∧
  tokenizer_wf r.2 ∧ next_id r.2 = 8%Z ∧
  Forall (λ i, 0 ≤ i < 10000)%Z (input_ids r.1).
Proof.
  assert (4 ≤ 10000)%Z as Hsize by lia.
  destruct (new_tokenizer_wf 10000 Hsize) as [Hwf Hroom].
  destruct (encode_within_vocabulary "The quick brown fox" 8
              (new_tokenizer 10000) Hwf Hroom)
    as (Hwf' & _ & _ & _ & Hids & _).
  split; [exact Hwf|]. split; [exact Hwf'|]. split; [reflexivity|exact Hids].
Defined.

Lemma decode_encode_witness :
  let r := encode "The quick  brown fox" 8 (new_tokenizer 10000) in
  decode (input_ids r.1) r.2 = "the quick brown fox".
Proof.
  assert (4 ≤ 10000)%Z as Hsize by lia.
  destruct (new_tokenizer_wf 10000 Hsize) as [Hwf _].
  cbv zeta.
  rewrite (decode_encode "The quick  brown fox" 8 (new_tokenizer 10000) Hwf);
    [reflexivity|vm_compute; discriminate|vm_compute; discriminate].
Defined.

Lemma encode_full_vocabulary_witness :
  let r := encode "hello world" 6 (new_tokenizer 4) in
  r.2 = new_tokenizer 4 ∧ input_ids r.1 = [2; 1; 1; 3; 0; 0]%Z.
Proof.
  assert (vocab_size (new_tokenizer 4) ≤ next_id (new_tokenizer 4))%Z as Hfull
    by (simpl; lia).
  destruct (encode_full_vocabulary "hello world" 6 (new_tokenizer 4) Hfull)
    as [Hsame _].
  split; [exact Hsame|reflexivity].
Defined.

Lemma echo_training_keeps_layout : keeps_layout echo_training.
Proof.
  intros tid batch params w _ Hnonempty. exists params.
  split; [reflexivity|]. split; [exact Hnonempty|].
  intros k u Hk. unfold same_shape_as. rewrite Hk.
  by apply bool_decide_eq_true_2.
Qed.

Lemma work_loop_completes_witness :
  let s := HydraWorker.work_loop echo_training demo_clock 2 (Some 1)
             "alice" tt two_workers in
  keeps_layout echo_training ∧ reachable two_workers ∧
  length (pending_tasks two_workers) = 1 ∧
  HydraWorker.registered s = true ∧
  HydraWorker.stopped s = true ∧
  HydraWorker.tasks_completed s = 1 ∧
  length (pending_tasks (HydraWorker.coordinator s)) + 1 = 1 ∧
  completed_by "alice" (db (HydraWorker.coordinator s))
  = completed_by "alice" (db two_workers) + 1.
Proof.
  cbv zeta.
  split; [exact echo_training_keeps_layout|].
  split; [exact two_workers_reachable|]. split; [reflexivity|].
  apply (work_loop_completes echo_training demo_clock 1 2 "alice" tt
           two_workers).
  - exact echo_training_keeps_layout.
  - exact two_workers_reachable.
  - discriminate.
  - exact small_model_wf.
  - intros Hempty.
    apply (f_equal (λ m, m !! "output_layer.bias")) in Hempty. discriminate.
  - apply Nat.le_refl.
  - apply Nat.le_refl.
Defined.
